(** * check-package-versions: a shallow embedding and its properties

    The hook script [post-tool-use/check-package-versions.py] is embedded
    function by function.  Python [str] values are Rocq strings whose
    characters stand for the code points 0..255; Python [int] is [Z];
    the research cache (a [dict] from key to text) is a [gmap]; the
    regular expressions of the script are terms of a small pattern
    language run by a backtracking matcher with CPython's priorities
    (leftmost start, alternatives left to right, greedy repetition). *)

From Stdlib Require Import ZArith List Ascii String Bool Lia Permutation.
From stdpp Require Import base option list strings gmap pretty.
Import ListNotations.

Local Open Scope Z_scope.

(** ** Characters *)

Module Chars.

Definition code (c : ascii) : N := N_of_ascii c.

Definition in_range (lo hi : N) (c : ascii) : bool :=
  ((lo <=? code c) && (code c <=? hi))%N.

(** [\d] on a [str] pattern: the decimal digits (category Nd); below
    code point 256 these are 0-9 only. *)
Definition is_digit (c : ascii) : bool := in_range 48 57 c.

(** [\s], [str.split()], [str.strip()]: [Py_UNICODE_ISSPACE]. *)
Definition is_space (c : ascii) : bool :=
  in_range 9 13 c || in_range 28 32 c
  || (code c =? 133)%N || (code c =? 160)%N.

Definition is_alpha (c : ascii) : bool :=
  in_range 65 90 c || in_range 97 122 c
  || (code c =? 170)%N || (code c =? 181)%N || (code c =? 186)%N
  || in_range 192 214 c || in_range 216 246 c || in_range 248 255 c.

(** [str.isdigit] / [str.isnumeric] beyond the decimal digits:
    superscripts one to three and the vulgar fractions. *)
Definition is_numeric_other (c : ascii) : bool :=
  (code c =? 178)%N || (code c =? 179)%N || (code c =? 185)%N
  || in_range 188 190 c.

(** [\w]: alphanumeric ([Py_UNICODE_ISALNUM]) or underscore. *)
Definition is_word (c : ascii) : bool :=
  is_alpha c || is_digit c || is_numeric_other c || (code c =? 95)%N.

Definition is_char (x : ascii) (c : ascii) : bool :=
  if ascii_dec x c then true else false.

(** [.] without DOTALL: anything but a line feed. *)
Definition is_dot (c : ascii) : bool := negb (is_char "010" c).

Definition digit_value (c : ascii) : Z := Z.of_N (code c) - 48.

End Chars.

Import Chars.

(** ** Regular expressions as the script uses them *)

Module Re.

(** Every repetition in the script's patterns is over a single character
    class, so [Star] and [Plus] take a class. *)
Inductive regex : Type :=
| Eps
| Chr (p : ascii -> bool)
| Cat (r1 r2 : regex)
| Alt (r1 r2 : regex)
| Opt (r : regex)
| Star (p : ascii -> bool)
| Plus (p : ascii -> bool)
| Bol
| Eol
| WordB
| Group (n : nat) (r : regex).

(** A literal word, character by character. *)
Fixpoint Lit (s : string) : regex :=
  match s with
  | EmptyString => Eps
  | String c t => Cat (Chr (is_char c)) (Lit t)
  end.

(** A position in the subject: the character just before it (if any),
    the text from it on, and the groups closed so far. *)
Record mstate : Type := MState {
  ms_prev : option ascii;
  ms_rest : string;
  ms_caps : list (nat * string)
}.

Definition word_before (st : mstate) : bool :=
  match ms_prev st with Some c => is_word c | None => false end.

Definition word_after (st : mstate) : bool :=
  match ms_rest st with String c _ => is_word c | EmptyString => false end.

(** [$] without MULTILINE: at the end, or just before a final line feed. *)
Definition at_eol (s : string) : bool :=
  match s with
  | EmptyString => true
  | String c EmptyString => is_char "010" c
  | _ => false
  end.

(** The text consumed between two positions of one subject. *)
Definition consumed (from to : string) : string :=
  substring 0 (String.length from - String.length to) from.

Section Matcher.
Context {R : Type}.

(** Greedy repetition of a class: longest first, then give back. *)
Fixpoint rep_greedy (p : ascii -> bool) (prev : option ascii) (s : string)
    (k : option ascii -> string -> option R) : option R :=
  match s with
  | String c t =>
      if p c then
        match rep_greedy p (Some c) t k with
        | Some x => Some x
        | None => k prev s
        end
      else k prev s
  | EmptyString => k prev s
  end.

Fixpoint sre_match (r : regex) (st : mstate) (k : mstate -> option R) : option R :=
  match r with
  | Eps => k st
  | Chr p =>
      match ms_rest st with
      | String c t => if p c then k (MState (Some c) t (ms_caps st)) else None
      | EmptyString => None
      end
  | Cat r1 r2 => sre_match r1 st (fun st' => sre_match r2 st' k)
  | Alt r1 r2 =>
      match sre_match r1 st k with
      | Some x => Some x
      | None => sre_match r2 st k
      end
  | Opt r1 =>
      match sre_match r1 st k with
      | Some x => Some x
      | None => k st
      end
  | Star p =>
      rep_greedy p (ms_prev st) (ms_rest st)
        (fun pv s => k (MState pv s (ms_caps st)))
  | Plus p =>
      match ms_rest st with
      | String c t =>
          if p c then
            rep_greedy p (Some c) t (fun pv s => k (MState pv s (ms_caps st)))
          else None
      | EmptyString => None
      end
  | Bol => match ms_prev st with None => k st | Some _ => None end
  | Eol => if at_eol (ms_rest st) then k st else None
  | WordB => if xorb (word_before st) (word_after st) then k st else None
  | Group n r1 =>
      sre_match r1 st (fun st' =>
        k (MState (ms_prev st') (ms_rest st')
             ((n, consumed (ms_rest st) (ms_rest st')) :: ms_caps st')))
  end.

End Matcher.

(** A match object: where it starts and ends, its text and its groups. *)
Record match_obj : Type := Match {
  m_start : nat;
  m_end : nat;
  m_text : string;
  m_groups : list (nat * string);
  m_tail : string
}.

(** [match.group(n)] for a group that took part in the match. *)
Fixpoint lookup_group (n : nat) (caps : list (nat * string)) : option string :=
  match caps with
  | [] => None
  | (i, s) :: rest => if Nat.eqb i n then Some s else lookup_group n rest
  end.

Definition group (m : match_obj) (n : nat) : option string :=
  match n with
  | O => Some (m_text m)
  | _ => lookup_group n (m_groups m)
  end.

(** One attempt at a fixed start. [must_advance] refuses the empty match
    (the rule [re.sub] applies right after an empty match). *)
Definition attempt (must_advance : bool) (r : regex) (prev : option ascii)
    (s : string) : option mstate :=
  sre_match r (MState prev s [])
    (fun st' =>
       if must_advance && (String.length (ms_rest st') =? String.length s)%nat
       then None else Some st').

Definition mk_match (i : nat) (s : string) (st' : mstate) : match_obj :=
  let txt := consumed s (ms_rest st') in
  Match i (i + String.length txt) txt (ms_caps st') (ms_rest st').

(** [re.match]: at the start of the subject only. *)
Definition re_match (r : regex) (s : string) : option match_obj :=
  option_map (mk_match 0 s) (attempt false r None s).

(** [re.search]: the first start, left to right, with a match. *)
Fixpoint search_from (r : regex) (prev : option ascii) (s : string) (i : nat)
    : option match_obj :=
  match attempt false r prev s with
  | Some st' => Some (mk_match i s st')
  | None =>
      match s with
      | String c t => search_from r (Some c) t (S i)
      | EmptyString => None
      end
  end.

Definition re_search (r : regex) (s : string) : option match_obj :=
  search_from r None s 0.

(** [re.sub(r, repl, s)] for a replacement without group references:
    non-overlapping matches left to right; an empty match is not accepted
    at the position where the previous match was empty. *)
Fixpoint sub_loop (fuel : nat) (r : regex) (repl : string)
    (prev : option ascii) (s : string) (must_advance : bool) : string :=
  match fuel with
  | O => s
  | S fuel' =>
      match attempt must_advance r prev s with
      | Some st' =>
          let s' := ms_rest st' in
          repl +:+
            sub_loop fuel' r repl (ms_prev st') s'
              (String.length s' =? String.length s)%nat
      | None =>
          match s with
          | String c t => String c (sub_loop fuel' r repl (Some c) t false)
          | EmptyString => EmptyString
          end
      end
  end.

Definition re_sub (r : regex) (repl : string) (s : string) : string :=
  sub_loop (2 * String.length s + 2) r repl None s false.

End Re.

Import Re.

(** ** Exceptions

    What the interpreter raises where the script has no handler: a
    fallible step returns [inr] with its value or [inl] with the
    exception. *)
Inductive exn : Type :=
| AttributeError
| TypeError
| ValueError
| OSError.

(** ** [str] methods *)

Module Str.

Fixpoint startswith (pre s : string) : bool :=
  match pre, s with
  | EmptyString, _ => true
  | String a p, String b t => if ascii_dec a b then startswith p t else false
  | String _ _, EmptyString => false
  end.

(** [int(text)] on a run of decimal digits. *)
Fixpoint int_acc (acc : Z) (s : string) : Z :=
  match s with
  | EmptyString => acc
  | String c t => int_acc (10 * acc + digit_value c) t
  end.

(** CPython's limit on the number of digits of a decimal text that
    [int] converts ([sys.int_info.default_max_str_digits]; the script
    does not change it). *)
Definition int_max_str_digits : Z := 4300.

(** [int(text)] on a run of decimal digits: beyond the limit the
    conversion raises [ValueError]. *)
Definition int_of_digits (s : string) : exn + Z :=
  if int_max_str_digits <? Z.of_nat (String.length s) then inl ValueError
  else inr (int_acc 0 s).

End Str.

Import Str.

(** ** Version Extractor *)

(** [r"(\d+)"] *)
Definition re_major : regex := Group 1 (Plus is_digit).

Definition get_major_version (version_str : string) : exn + option Z :=
  match version_str with
  | EmptyString => inr None
  | _ =>
      match re_search re_major version_str with
      | Some m =>
          match group m 1 with
          | Some digits =>
              match int_of_digits digits with
              | inr major => inr (Some major)
              | inl e => inl e
              end
          | None => inl TypeError
          end
      | None => inr None
      end
  end.

(** ** More [str] methods *)

Module StrOps.

Definition snoc (s : string) (c : ascii) : string := s +:+ String c EmptyString.

(** [s.split()]: maximal runs of non-whitespace characters. [cur] is the
    run being read. *)
Fixpoint split_go (cur : string) (s : string) : list string :=
  match s with
  | EmptyString =>
      match cur with EmptyString => [] | _ => [cur] end
  | String c t =>
      if is_space c then
        match cur with
        | EmptyString => split_go EmptyString t
        | _ => cur :: split_go EmptyString t
        end
      else split_go (snoc cur c) t
  end.

Definition split (s : string) : list string := split_go EmptyString s.

Fixpoint lstrip (s : string) : string :=
  match s with
  | String c t => if is_space c then lstrip t else s
  | EmptyString => EmptyString
  end.

Fixpoint rstrip (s : string) : string :=
  match s with
  | EmptyString => EmptyString
  | String c t =>
      match rstrip t with
      | EmptyString => if is_space c then EmptyString else String c EmptyString
      | t' => String c t'
      end
  end.

Definition strip (s : string) : string := rstrip (lstrip s).

(** [s.replace(old, new)]: every occurrence of [old], found left to right
    without overlap. [skip] counts the characters of the occurrence being
    passed over. *)
Fixpoint replace_go (old new : string) (skip : nat) (s : string) : string :=
  match s with
  | EmptyString => EmptyString
  | String c t =>
      match skip with
      | S k => replace_go old new k t
      | O =>
          if startswith old s
          then new +:+ replace_go old new (String.length old - 1) t
          else String c (replace_go old new 0 t)
      end
  end.

Fixpoint intersperse (new : string) (s : string) : string :=
  match s with
  | EmptyString => new
  | String c t => new +:+ String c (intersperse new t)
  end.

Definition replace (old new s : string) : string :=
  match old with
  | EmptyString => intersperse new s
  | _ => replace_go old new 0 s
  end.

(** [sep.join(parts)] is not needed: the log lines are not modelled. *)

End StrOps.

Import StrOps.

(** ** Command Interpreter: the pattern tables *)

Definition ws1 : regex := Plus is_space.
Definition ws0 : regex := Star is_space.
Definition not_space (c : ascii) : bool := negb (is_space c).

Definition alt3 (a b c : string) : regex :=
  Group 1 (Alt (Lit a) (Alt (Lit b) (Lit c))).
Definition alt2 (a b : string) : regex :=
  Group 1 (Alt (Lit a) (Lit b)).

(** [PACKAGE_MANAGERS], in the order of the dict. *)
Definition PACKAGE_MANAGERS : list (string * regex) :=
  [ ("npm",  Cat WordB (Cat (Lit "npm") (Cat ws1 (Cat (alt3 "install" "i" "add") WordB))));
    ("yarn", Cat WordB (Cat (Lit "yarn") (Cat ws1 (Cat (Lit "add") WordB))));
    ("pnpm", Cat WordB (Cat (Lit "pnpm") (Cat ws1 (Cat (alt2 "add" "install") WordB))));
    ("bun",  Cat WordB (Cat (Lit "bun") (Cat ws1 (Cat (alt2 "add" "install") WordB))));
    ("pip",  Cat WordB (Cat (Lit "pip") (Cat ws1 (Cat (Lit "install") WordB)))) ].

(** The [patterns] table of [parse_command_packages]. *)
Definition prefix_patterns : list (string * regex) :=
  [ ("npm",  Cat Bol (Cat (Lit "npm") (Cat ws1 (Cat (alt3 "install" "i" "add") ws0))));
    ("yarn", Cat Bol (Cat (Lit "yarn") (Cat ws1 (Cat (Lit "add") ws0))));
    ("pnpm", Cat Bol (Cat (Lit "pnpm") (Cat ws1 (Cat (alt2 "add" "install") ws0))));
    ("bun",  Cat Bol (Cat (Lit "bun") (Cat ws1 (Cat (alt2 "add" "install") ws0))));
    ("pip",  Cat Bol (Cat (Lit "pip") (Cat ws1 (Cat (Lit "install") ws0)))) ].

(** [table.get(key, default)] on a table in source order. *)
Fixpoint table_get {A} (key : string) (table : list (string * A)) (default : A) : A :=
  match table with
  | [] => default
  | (k, v) :: rest => if String.eqb k key then v else table_get key rest default
  end.

(** [r"\s+--?\w+(\s+\S+)?"] *)
Definition re_flag : regex :=
  Cat ws1 (Cat (Chr (is_char "-")) (Cat (Opt (Chr (is_char "-")))
    (Cat (Plus is_word) (Opt (Group 1 (Cat ws1 (Plus not_space))))))).

Definition is_specifier (c : ascii) : bool :=
  is_char "@" c || is_char "=" c || is_char "<" c || is_char ">" c
  || is_char "~" c || is_char "!" c.

(** [r"[@=<>~!]+.*$"] *)
Definition re_specifier : regex :=
  Cat (Plus is_specifier) (Cat (Star is_dot) Eol).

(** The loop body of [parse_command_packages] for one word of the split. *)
Definition package_of_token (pkg : string) : option string :=
  match pkg with
  | EmptyString => None
  | _ =>
      if startswith "-" pkg then None
      else
        match re_sub re_specifier "" pkg with
        | EmptyString => None
        | name => Some name
        end
  end.

Definition parse_command_packages (command manager : string) : list string :=
  let cmd := re_sub (table_get manager prefix_patterns Eps) "" command in
  let cmd := re_sub re_flag " " cmd in
  omap package_of_token (split cmd).

(** ** JSON documents and insertion-ordered dicts *)

#[local] Set Warnings "-register-all".

(** What [json.load] returns. An object keeps its members as they are
    written; [ODict.of_pairs] makes the dict of them. No part of the
    script reads a number, so integers stand for all of them. *)
Inductive json : Type :=
| JNull
| JBool (b : bool)
| JNum (n : Z)
| JStr (s : string)
| JArr (items : list json)
| JObj (members : list (string * json)).

Module ODict.
Section WithValue.
Context {V : Type}.

(** [d[k] = v]: an existing key keeps its place, a new one goes last. *)
Fixpoint set (k : string) (v : V) (d : list (string * V)) : list (string * V) :=
  match d with
  | [] => [(k, v)]
  | (k', v') :: rest =>
      if String.eqb k' k then (k', v) :: rest else (k', v') :: set k v rest
  end.

Fixpoint get (k : string) (d : list (string * V)) : option V :=
  match d with
  | [] => None
  | (k', v') :: rest => if String.eqb k' k then Some v' else get k rest
  end.

(** The dict built from the members of a document, in reading order. *)
Definition of_pairs (l : list (string * V)) : list (string * V) :=
  fold_left (fun d kv => set (fst kv) (snd kv) d) l [].

End WithValue.
End ODict.

(** [obj.get(key, default)]: only a dict has the method. *)
Definition py_get (obj : json) (key : string) (default : json) : exn + json :=
  match obj with
  | JObj members =>
      inr (match ODict.get key (ODict.of_pairs members) with
           | Some v => v
           | None => default
           end)
  | _ => inl AttributeError
  end.

(** ** The world outside the process

    Everything [main] reads from its environment is a field of one
    record: standard input, the working directory, the manifests, the
    registries, the research agent, the order in which the research
    calls complete, and the cache file.  Progress lines written to
    standard error ([log]) are not modelled. *)

(** How the [subprocess.run] of the research agent ends. *)
Inductive proc_outcome : Type :=
| Completed (returncode : Z) (stdout : string)
| TimedOut
| Failed (message : string).

(** What is on standard input: a text [json.load] rejects with
    [JSONDecodeError], or the value it decodes to. *)
Inductive stdin_doc : Type :=
| NotJson
| Json (v : json).

(** A VersionDiff, the dict [check_version_diff] returns. *)
Record diff : Type := Diff {
  package : string;
  installed_version : string;
  installed_major : Z;
  latest_version : string;
  latest_major : Z
}.

(** A ResearchResult: [{**diff, "research": text}]. *)
Record result : Type := Result {
  r_diff : diff;
  research : string
}.

(** What the reader of a manifest finds: [Path.exists] raises (an
    [OSError] other than "not found": permission denied, name too long),
    or there is nothing to read (the file is missing, or does not open
    or decode), or the contents. *)
Inductive probe (A : Type) : Type :=
| ProbeFails
| NoFile
| File (contents : A).

Arguments ProbeFails {A}.
Arguments NoFile {A}.
Arguments File {A} contents.

Record World : Type := {
  w_stdin : stdin_doc;
  w_getcwd : string;
  w_normpath : string -> string;
  (** the [package.json] of a directory, decoded *)
  w_package_json : string -> probe json;
  (** the [requirements.txt] of a directory, as its lines *)
  w_requirements_txt : string -> probe (list string);
  (** the lines of a named requirements file, when it opens *)
  w_file_lines : string -> option (list string);
  (** the registries: [None] for any failure of the request or decoding *)
  w_npm_latest : string -> option string;
  w_pypi_latest : string -> option string;
  (** the research agent, by package and major transition *)
  w_claude : string -> Z -> Z -> proc_outcome;
  (** the order in which the submitted calls complete *)
  w_schedule : list nat;
  (** the cache file, an object of strings as [save_cache] writes it:
      [None] when missing, unreadable or undecodable *)
  w_cache_file : option (gmap string string);
  (** whether the cache directory can be created and the file opened for
      writing; when not, [save_cache] swallows the error and the file
      stays.  An error after the file was opened, which would leave it
      truncated, is not among the outcomes of the world *)
  w_cache_writable : bool
}.

(** ** Research Cache *)

Definition load_cache (file : option (gmap string string)) : gmap string string :=
  match file with
  | Some c => c
  | None => ∅
  end.

Definition save_cache (writable : bool) (cache : gmap string string)
    (file : option (gmap string string)) : option (gmap string string) :=
  if writable then Some cache else file.

Definition cache_key (pkg : string) (old_major new_major : Z) : string :=
  pkg +:+ ":" +:+ pretty old_major +:+ "->" +:+ pretty new_major.

(** ** Registry Client and Diff Resolver *)

Definition get_npm_latest (w : World) (package_name : string) : option string :=
  w_npm_latest w package_name.

Definition get_pypi_latest (w : World) (package_name : string) : option string :=
  w_pypi_latest w package_name.


(** Lines 181-184: the registry is chosen by name. *)
Definition query_registry (w : World) (registry pkg : string) : option string :=
  if String.eqb registry "npm" then get_npm_latest w pkg
  else get_pypi_latest w pkg.

Definition check_version_diff (w : World) (pkg installed_version registry : string)
    : exn + option diff :=
  match get_major_version installed_version with
  | inl e => inl e
  | inr None => inr None
  | inr (Some installed_major) =>
      match query_registry w registry pkg with
      | None => inr None
      | Some EmptyString => inr None
      | Some latest =>
          match get_major_version latest with
          | inl e => inl e
          | inr None => inr None
          | inr (Some latest_major) =>
              if negb (installed_major =? latest_major) then
                inr (Some (Diff pkg installed_version installed_major latest
                             latest_major))
              else inr None
          end
      end
  end.

(** ** Research *)

Definition spawn_research (w : World) (pkg : string) (old_major new_major : Z)
    : string :=
  match w_claude w pkg old_major new_major with
  | Completed _ stdout => strip stdout
  | TimedOut => "(Research timed out for " +:+ pkg +:+ ")"
  | Failed e => "(Research failed for " +:+ pkg +:+ ": " +:+ e +:+ ")"
  end.

(** ** Redundant-Entry Filter *)

Definition is_types (pkg : string) : bool := startswith "@types/" pkg.

Definition base_packages (diffs : list diff) : gset string :=
  list_to_set (package <$> filter (fun d => is_types (package d) = false) diffs).

Definition redundant (base : gset string) (d : diff) : bool :=
  is_types (package d)
  && bool_decide (replace "@types/" "" (package d) ∈ base).

Definition filter_redundant_types (diffs : list diff) : list diff :=
  let base := base_packages diffs in
  filter (fun d => redundant base d = false) diffs.

#[global] Instance diff_eq_dec : EqDecision diff.
Proof. solve_decision. Defined.

#[global] Instance result_eq_dec : EqDecision result.
Proof. solve_decision. Defined.

(** ** Paths ([os.path] on POSIX) *)

Module Path.

Definition isabs (p : string) : bool := startswith "/" p.

Fixpoint endswith_slash (s : string) : bool :=
  match s with
  | EmptyString => false
  | String c EmptyString => is_char "/" c
  | String _ t => endswith_slash t
  end.

Definition join (a b : string) : string :=
  if startswith "/" b then b
  else match a with
       | EmptyString => b
       | _ => if endswith_slash a then a +:+ b else a +:+ "/" +:+ b
       end.

(** [p[:p.rfind("/") + 1]] *)
Fixpoint head_of (p : string) : string :=
  match p with
  | EmptyString => EmptyString
  | String c t =>
      match head_of t with
      | EmptyString => if is_char "/" c then String c EmptyString else EmptyString
      | h => String c h
      end
  end.

Fixpoint all_slashes (s : string) : bool :=
  match s with
  | EmptyString => true
  | String c t => is_char "/" c && all_slashes t
  end.

Fixpoint rstrip_slashes (s : string) : string :=
  match s with
  | EmptyString => EmptyString
  | String c t =>
      match rstrip_slashes t with
      | EmptyString => if is_char "/" c then EmptyString else String c EmptyString
      | t' => String c t'
      end
  end.

Definition dirname (p : string) : string :=
  let head := head_of p in
  if all_slashes head then head else rstrip_slashes head.

End Path.

(** ** Manifest Reader *)

Definition odict : Type := list (string * string).

Definition skipped_reference (version : string) : bool :=
  startswith "workspace:" version || startswith "file:" version
  || startswith "git:" version || startswith "github:" version.

(** The inner loop over [deps.items()]; [false] when an entry raised (a
    version that is not a string), which the function's handler swallows
    with the entries read so far kept. *)
Fixpoint add_deps (items : list (string * json)) (packages : odict) : odict * bool :=
  match items with
  | [] => (packages, true)
  | (name, JStr version) :: rest =>
      add_deps rest
        (if skipped_reference version then packages
         else ODict.set name version packages)
  | _ :: _ => (packages, false)
  end.

Definition add_group (data : json) (dep_type : string) (packages : odict) : odict * bool :=
  match py_get data dep_type (JObj []) with
  | inr (JObj members) => add_deps (ODict.of_pairs members) packages
  | _ => (packages, false)
  end.

Definition parse_package_json (w : World) (cwd : string) : exn + odict :=
  match w_package_json w cwd with
  | ProbeFails => inl OSError
  | NoFile => inr []
  | File data =>
      let (packages, ok) := add_group data "dependencies" [] in
      inr (if ok then fst (add_group data "devDependencies" packages) else packages)
  end.

Definition is_name_char (c : ascii) : bool :=
  in_range 97 122 c || in_range 65 90 c || in_range 48 57 c
  || is_char "_" c || is_char "-" c.

Definition is_operator_char (c : ascii) : bool :=
  is_char "=" c || is_char "<" c || is_char ">" c || is_char "~" c || is_char "!" c.

Definition is_version_char (c : ascii) : bool := is_digit c || is_char "." c.

(** [r"([a-zA-Z0-9_-]+)\s*([=<>~!]+)\s*([\d.]+)"] *)
Definition re_requirement : regex :=
  Cat (Group 1 (Plus is_name_char))
    (Cat ws0 (Cat (Group 2 (Plus is_operator_char))
      (Cat ws0 (Group 3 (Plus is_version_char))))).

Definition add_requirement (packages : odict) (line : string) : odict :=
  let line := strip line in
  match line with
  | EmptyString => packages
  | _ =>
      if startswith "#" line || startswith "-" line then packages
      else
        match re_match re_requirement line with
        | Some m =>
            match group m 1, group m 3 with
            | Some name, Some version => ODict.set name version packages
            | _, _ => packages
            end
        | None => packages
        end
  end.

Definition read_requirements (lines : option (list string)) : odict :=
  match lines with
  | None => []
  | Some ls => fold_left add_requirement ls []
  end.

Definition parse_requirements_txt (w : World) (cwd : string) : exn + odict :=
  match w_requirements_txt w cwd with
  | ProbeFails => inl OSError
  | NoFile => inr (read_requirements None)
  | File lines => inr (read_requirements (Some lines))
  end.

(** ** The hook: [main] *)

Inductive cache_event : Type :=
| EvLoad
| EvResearch (pkg : string) (old_major new_major : Z)
| EvSave (cache : gmap string string).

#[global] Instance cache_event_eq_dec : EqDecision cache_event.
Proof. solve_decision. Defined.

Inductive summary : Type :=
| Researched (checked total researched cached : nat)
| AllCached (checked total : nat).

(** The document printed for the host: the summary line and the results
    whose rows and sections make up the context block, in order. *)
Record hook_output : Type := HookOutput {
  systemMessage : summary;
  additionalContext : list result
}.

Inductive status : Type :=
| Exited (code : Z)
| Uncaught (e : exn).

(** Everything one invocation does that can be seen from outside. *)
Record run : Type := Run {
  r_status : status;
  r_stdout : option hook_output;
  r_trace : list cache_event;
  r_cache_file : option (gmap string string)
}.

Inductive event_reading : Type :=
| Leave
| Raise (e : exn)
| Command (command : string).

Definition is_bash (tool_name : json) : bool :=
  match tool_name with
  | JStr s => String.eqb s "Bash"
  | _ => false
  end.

(** Lines 257-269: from standard input to the command string. *)
Definition read_event (doc : stdin_doc) : event_reading :=
  match doc with
  | NotJson => Leave
  | Json hook_input =>
      match py_get hook_input "tool_name" (JStr "") with
      | inl e => Raise e
      | inr tool_name =>
          match py_get hook_input "tool_input" (JObj []) with
          | inl e => Raise e
          | inr tool_input =>
              if is_bash tool_name then
                match py_get tool_input "command" (JStr "") with
                | inl e => Raise e
                | inr (JStr command) => Command command
                | inr _ => Raise TypeError
                end
              else Leave
          end
      end
  end.

Definition not_space_amp (c : ascii) : bool := negb (is_space c || is_char "&" c).

(** [r'^cd\s+([^\s&]+)\s*&&\s*'] *)
Definition re_cd : regex :=
  Cat Bol (Cat (Lit "cd") (Cat ws1 (Cat (Group 1 (Plus not_space_amp))
    (Cat ws0 (Cat (Lit "&&") ws0))))).

(** [r'-r\s+(\S+)'] *)
Definition re_dash_r : regex :=
  Cat (Lit "-r") (Cat ws1 (Group 1 (Plus not_space))).

(** Lines 270-283: the effective directory and the command without its
    [cd] prefix. *)
Definition resolve_cd (w : World) (command : string) : string * string :=
  match re_match re_cd command with
  | Some m =>
      match group m 1 with
      | Some cd_path =>
          (w_normpath w
             (if Path.isabs cd_path then cd_path
              else Path.join (w_getcwd w) cd_path),
           m_tail m)
      | None => (w_getcwd w, command)
      end
  | None => (w_getcwd w, command)
  end.

Fixpoint first_manager (table : list (string * regex)) (command : string)
    : option string :=
  match table with
  | [] => None
  | (manager, pattern) :: rest =>
      match re_search pattern command with
      | Some _ => Some manager
      | None => first_manager rest command
      end
  end.

Definition detect_manager (command : string) : option string :=
  first_manager PACKAGE_MANAGERS command.

Definition registry_of (manager : string) : string :=
  if String.eqb manager "npm" || String.eqb manager "yarn"
     || String.eqb manager "pnpm" || String.eqb manager "bun"
  then "npm" else "pypi".

Definition pip_requirements_file (cwd command manager : string) : option string :=
  if String.eqb manager "pip" then
    match re_search re_dash_r command with
    | Some m =>
        match group m 1 with
        | Some file => Some (if Path.isabs file then file else Path.join cwd file)
        | None => None
        end
    | None => None
    end
  else None.

Definition select_installed (explicit : list string) (installed : odict) : odict :=
  fold_left
    (fun acc pkg =>
       match ODict.get pkg installed with
       | Some version => ODict.set pkg version acc
       | None => acc
       end)
    explicit [].

(** Lines 300-348. *)
Definition packages_to_check (w : World) (cwd command manager : string)
    : exn + odict :=
  let registry := registry_of manager in
  let pip_file := pip_requirements_file cwd command manager in
  let explicit_packages :=
    match pip_file with
    | Some _ => []
    | None => parse_command_packages command manager
    end in
  match explicit_packages with
  | _ :: _ =>
      let installed :=
        if String.eqb registry "npm" then parse_package_json w cwd
        else parse_requirements_txt w cwd in
      match installed with
      | inl e => inl e
      | inr installed => inr (select_installed explicit_packages installed)
      end
  | [] =>
      if String.eqb registry "npm" then parse_package_json w cwd
      else
        let req_file :=
          match pip_file with
          | Some f => f
          | None => Path.join cwd "requirements.txt"
          end in
        match parse_requirements_txt w (Path.dirname req_file) with
        | inl e => inl e
        | inr packages =>
            match pip_file with
            | Some f => inr (read_requirements (w_file_lines w f))
            | None => inr packages
            end
        end
  end.

(** Lines 357-361: the loop ends at the first package whose check
    raises. *)
Definition find_diffs (w : World) (registry : string) : odict -> exn + list diff :=
  fix loop (packages : odict) : exn + list diff :=
    match packages with
    | [] => inr []
    | (pkg, version) :: rest =>
        match check_version_diff w pkg version registry with
        | inl e => inl e
        | inr found =>
            match loop rest with
            | inl e => inl e
            | inr diffs =>
                inr (match found with Some d => d :: diffs | None => diffs end)
            end
        end
    end.

Definition key_of (d : diff) : string :=
  cache_key (package d) (installed_major d) (latest_major d).

(** Lines 376-385: cache hits and the diffs left to research. *)
Fixpoint split_cached (cache : gmap string string) (diffs : list diff)
    : list result * list diff :=
  match diffs with
  | [] => ([], [])
  | d :: rest =>
      let (cached_results, uncached_diffs) := split_cached cache rest in
      match cache !! key_of d with
      | Some text => (Result d text :: cached_results, uncached_diffs)
      | None => (cached_results, d :: uncached_diffs)
      end
  end.

Definition research_worker (w : World) (d : diff) : result :=
  Result d (spawn_research w (package d) (installed_major d) (latest_major d)).

(** The order [as_completed] hands the futures over: each number of the
    schedule names, among the calls still running, the next to finish. *)
Fixpoint as_completed {A} (schedule : list nat) (fuel : nat) (pending : list A) : list A :=
  match fuel with
  | O => []
  | S fuel' =>
      match pending with
      | [] => []
      | x :: _ =>
          let i := (hd O schedule mod length pending)%nat in
          nth i pending x :: as_completed (tl schedule) fuel' (delete i pending)
      end
  end.

(** Lines 414-420: a result is kept in the cache unless its text starts
    with an opening parenthesis. *)
Definition remember (cache : gmap string string) (r : result) : gmap string string :=
  if startswith "(" (research r) then cache
  else <[key_of (r_diff r) := research r]> cache.

(** Lines 412-420: one turn of the collecting loop. *)
Definition collect (acc : list result * gmap string string) (r : result)
    : list result * gmap string string :=
  let (research_results, cache) := acc in
  (research_results ++ [r], remember cache r).

Definition research_event (d : diff) : cache_event :=
  EvResearch (package d) (installed_major d) (latest_major d).

(** Lines 388-430: the Research Dispatcher. *)
Definition dispatch (w : World) (uncached_diffs : list diff)
    (acc : list result * gmap string string) : list result * gmap string string :=
  let futures := research_worker w <$> uncached_diffs in
  fold_left collect (as_completed (w_schedule w) (length futures) futures) acc.

Definition count_cached (research_results cached_results : list result) : nat :=
  length (filter (fun r => r ∈ cached_results) research_results).

(** Lines 432-477. *)
Definition compose (checked : nat) (research_results cached_results : list result)
    : hook_output :=
  let cached_count := count_cached research_results cached_results in
  let researched_count := (length research_results - cached_count)%nat in
  HookOutput
    (if (0 <? researched_count)%nat
     then Researched checked (length research_results) researched_count cached_count
     else AllCached checked (length research_results))
    research_results.

(** Lines 363-479: from the diffs to the exit. *)
Definition report (w : World) (checked : nat) (diffs : list diff) : run :=
  match diffs with
  | [] => Run (Exited 0) None [] (w_cache_file w)
  | _ :: _ =>
      let diffs := filter_redundant_types diffs in
      let cache := load_cache (w_cache_file w) in
      let (cached_results, uncached_diffs) := split_cached cache diffs in
      match uncached_diffs with
      | [] =>
          Run (Exited 2) (Some (compose checked cached_results cached_results))
            [EvLoad] (w_cache_file w)
      | _ :: _ =>
          let (research_results, cache') :=
            dispatch w uncached_diffs (cached_results, cache) in
          Run (Exited 2) (Some (compose checked research_results cached_results))
            (EvLoad :: (research_event <$> uncached_diffs) ++ [EvSave cache'])
            (save_cache (w_cache_writable w) cache' (w_cache_file w))
      end
  end.

Definition quiet (w : World) (s : status) : run :=
  Run s None [] (w_cache_file w).

(** Lines 255-361: up to the list of diffs. Either the run ends here
    (a silent exit, or an exception nothing catches: from the shape of
    the event, from [Path.exists] in a manifest reader, from [int] in
    the version extractor), or it goes on with the number of packages
    checked and the diffs found. *)
Definition find_work (w : World) : status + (nat * list diff) :=
  match read_event (w_stdin w) with
  | Leave => inl (Exited 0)
  | Raise e => inl (Uncaught e)
  | Command command =>
      let (cwd, command) := resolve_cd w command in
      match detect_manager command with
      | None => inl (Exited 0)
      | Some detected_manager =>
          let registry := registry_of detected_manager in
          match packages_to_check w cwd command detected_manager with
          | inl e => inl (Uncaught e)
          | inr [] => inl (Exited 0)
          | inr packages =>
              match find_diffs w registry packages with
              | inl e => inl (Uncaught e)
              | inr diffs => inr (length packages, diffs)
              end
          end
      end
  end.

Definition main (w : World) : run :=
  match find_work w with
  | inl s => quiet w s
  | inr (checked, diffs) => report w checked diffs
  end.

(** The same world at a later invocation: another cache file, and an
    agent and a completion order of their own. *)
Definition next_invocation (w : World) (cache_file : option (gmap string string))
    (agent : string -> Z -> Z -> proc_outcome) (schedule : list nat) : World :=
  {| w_stdin := w_stdin w;
     w_getcwd := w_getcwd w;
     w_normpath := w_normpath w;
     w_package_json := w_package_json w;
     w_requirements_txt := w_requirements_txt w;
     w_file_lines := w_file_lines w;
     w_npm_latest := w_npm_latest w;
     w_pypi_latest := w_pypi_latest w;
     w_claude := agent;
     w_schedule := schedule;
     w_cache_file := cache_file;
     w_cache_writable := w_cache_writable w |}.

(** ** The Research Dispatcher as a transition system

    Lines 407-426 again, this time with the executor spelled out:
    [ThreadPoolExecutor(max_workers=10)] keeps a queue of submitted calls
    and at most [max_workers] worker threads; [submit] queues a call and
    may start one more worker; a worker takes the call at the head of the
    queue, runs it, and stores the result in its future; once everything
    is submitted, [as_completed] hands any finished future to the
    collecting loop. *)

Module Pool.











End Pool.

(** ** Predicates used to state the properties *)

Module Spec.

Fixpoint all_chars (p : ascii -> bool) (s : string) : bool :=
  match s with
  | EmptyString => true
  | String c t => p c && all_chars p t
  end.

Definition head_is (p : ascii -> bool) (s : string) : bool :=
  match s with
  | String c _ => p c
  | EmptyString => false
  end.

Definition non_digit (c : ascii) : bool := negb (is_digit c).

(** The character before the position reached after reading [text]. *)
Fixpoint last_of (prev : option ascii) (text : string) : option ascii :=
  match text with
  | EmptyString => prev
  | String c t => last_of (Some c) t
  end.

Definition is_not (x : ascii) (c : ascii) : bool := negb (is_char x c).

(** The characters of the decimal text of an integer. *)
Definition is_int_char (c : ascii) : bool := is_digit c || is_char "-" c.

(** A word cut at the first of [@ = < > ~ !]: what the substitution of
    the specifier pattern by the empty string leaves of it. *)
Fixpoint bare_name (token : string) : string :=
  match token with
  | EmptyString => EmptyString
  | String c t => if is_specifier c then EmptyString else String c (bare_name t)
  end.

Definition is_flag_token (token : string) : bool := startswith "-" token.

(** The command after the two substitutions of [parse_command_packages]:
    the manager's prefix pattern removed, each flag match made a space. *)
Definition without_prefix (command manager : string) : string :=
  re_sub (table_get manager prefix_patterns Eps) "" command.

Definition without_flags (cmd : string) : string := re_sub re_flag " " cmd.

(** A pattern that, on a text starting with [word], goes on after the
    word whenever what follows the pattern can match there. *)
Definition takes (a : regex) (word tail : string) : Prop :=
  forall (R : Type) pv caps (k : mstate -> option R),
    (forall caps', k (MState (last_of pv word) tail caps') <> None) ->
    exists caps',
      sre_match a (MState pv (word +:+ tail) caps) k
      = k (MState (last_of pv word) tail caps').

(** After the subcommand comes whitespace or the end of the command. *)
Definition word_ends (tail : string) : Prop :=
  tail = "" \/ head_is is_space tail = true.

(** What follows a flag when no argument is taken with it: whitespace to
    the end of the command, or a character that is neither whitespace
    nor a word character. *)
Definition no_argument (post : string) : Prop :=
  all_chars is_space post = true
  \/ (head_is is_space post = false /\ head_is is_word post = false).

(** The managers and their install subcommands. *)
Definition subcommands : list (string * string) :=
  [("npm", "install"); ("npm", "i"); ("npm", "add"); ("yarn", "add");
   ("pnpm", "add"); ("pnpm", "install"); ("bun", "add"); ("bun", "install");
   ("pip", "install")].

(** A result whose text does not start with an opening parenthesis. *)
Definition genuine (r : result) : Prop := startswith "(" (research r) = false.

Definition result_key (r : result) : string := key_of (r_diff r).

#[global] Instance genuine_dec (r : result) : Decision (genuine r).
Proof. unfold genuine. apply _. Defined.

(** The agent's call ended without an answer. *)
Definition failed (o : proc_outcome) : Prop :=
  match o with
  | Completed _ _ => False
  | TimedOut => True
  | Failed _ => True
  end.

Definition outcome_of (w : World) (d : diff) : proc_outcome :=
  w_claude w (package d) (installed_major d) (latest_major d).

(** The stages of [report], named. *)
Definition cache_hits (cache : gmap string string) (diffs : list diff) : list result :=
  fst (split_cached cache diffs).

Definition cache_misses (cache : gmap string string) (diffs : list diff) : list diff :=
  snd (split_cached cache diffs).

(** The diffs one invocation sends to the agent. *)
Definition to_research (w : World) (diffs : list diff) : list diff :=
  cache_misses (load_cache (w_cache_file w)) (filter_redundant_types diffs).

Definition fresh_results (w : World) (diffs : list diff) : list result :=
  let futures := research_worker w <$> to_research w diffs in
  as_completed (w_schedule w) (length futures) futures.

Definition cache_after (w : World) (diffs : list diff) : gmap string string :=
  fold_left remember (fresh_results w diffs) (load_cache (w_cache_file w)).

Definition transition (d : diff) : string * Z * Z :=
  (package d, installed_major d, latest_major d).

(** Reading the trace. *)
Definition loads (trace : list cache_event) : nat :=
  length (filter (fun e => e = EvLoad) trace).

Definition saved (trace : list cache_event) : list (gmap string string) :=
  omap (fun e => match e with EvSave c => Some c | _ => None end) trace.

(** The cache file is read exactly once, written at most once, written
    only with an entry the loaded cache did not have, and left as it was
    when nothing was added. *)
Definition read_once_written_when_new (w : World) : Prop :=
  loads (r_trace (main w)) = 1%nat
  /\ (length (saved (r_trace (main w))) <= 1)%nat
  /\ (forall cache, cache ∈ saved (r_trace (main w)) ->
        cache <> load_cache (w_cache_file w))
  /\ ((forall cache, cache ∈ saved (r_trace (main w)) ->
         cache = load_cache (w_cache_file w)) ->
      r_cache_file (main w) = w_cache_file w).

Definition researched (trace : list cache_event) : list (string * Z * Z) :=
  omap (fun e => match e with
                 | EvResearch pkg o n => Some (pkg, o, n)
                 | _ => None
                 end) trace.

End Spec.

Import Spec.

(** ** Sample worlds *)

Module Sample.

Definition event (command : string) : stdin_doc :=
  Json (JObj [("tool_name", JStr "Bash");
              ("tool_input", JObj [("command", JStr command)])]).

Definition manifest : json :=
  JObj [("dependencies",
         JObj [("react", JStr "^17.0.2"); ("react-dom", JStr "^17.0.2");
               ("lodash", JStr "4.17.21"); ("local-lib", JStr "file:../lib")]);
        ("devDependencies",
         JObj [("@types/react", JStr "^16.9.0"); ("@types/node", JStr "^18.0.0")])].

Definition npm_registry (pkg : string) : option string :=
  if String.eqb pkg "react" then Some "18.2.0"
  else if String.eqb pkg "react-dom" then Some "17.9.0"
  else if String.eqb pkg "lodash" then Some "5.0.0"
  else if String.eqb pkg "@types/react" then Some "18.0.1"
  else if String.eqb pkg "@types/node" then Some "20.1.0"
  else None.

Definition pypi_registry (pkg : string) : option string :=
  if String.eqb pkg "requests" then Some "2.31.0"
  else if String.eqb pkg "flask" then Some "3.0.0"
  else None.

(** The agent answers for react, times out for lodash, and leaves with a
    non-zero status and nothing printed for anything else. *)
Definition agent (pkg : string) (old_major new_major : Z) : proc_outcome :=
  if String.eqb pkg "react" then Completed 0 "- ReactDOM.render -> createRoot "
  else if String.eqb pkg "lodash" then TimedOut
  else Completed 1 "".

Definition world (doc : stdin_doc) (cache_file : option (gmap string string)) : World :=
  {| w_stdin := doc;
     w_getcwd := "/srv/app";
     w_normpath := fun p => p;
     w_package_json := fun dir =>
       if String.eqb dir "/srv/app" then File manifest else NoFile;
     w_requirements_txt := fun dir =>
       if String.eqb dir "/srv/api"
       then File ["requests==2.28.0"; "flask==1.1.0"; "# pinned"; ""]
       else NoFile;
     w_file_lines := fun _ => None;
     w_npm_latest := npm_registry;
     w_pypi_latest := pypi_registry;
     w_claude := agent;
     w_schedule := [2%nat; 0%nat; 1%nat];
     w_cache_file := cache_file;
     w_cache_writable := true |}.

Definition lodash : diff := Diff "lodash" "4.17.21" 4 "5.0.0" 5.

(** A version whose first digit run has 4301 digits. *)
Definition nines (n : N) : string := N.iter n (String "9") EmptyString.

Definition endless_version : string := "^" +:+ nines 4301 +:+ ".0.0".

Definition react : diff := Diff "react" "^17.0.2" 17 "18.2.0" 18.

End Sample.

(** ** More predicates and world updates, for the properties of the
    stages around the engine *)

Module More.

(** The same world with the research calls completing in another order. *)
Definition with_schedule (w : World) (schedule : list nat) : World :=
  next_invocation w (w_cache_file w) (w_claude w) schedule.

(** The version a dependency group publishes for a name: the string
    value of the member, unless it is a local, workspace or VCS
    reference. *)
Definition published (group : list (string * json)) (name : string) : option string :=
  match ODict.get name (ODict.of_pairs group) with
  | Some (JStr version) => if skipped_reference version then None else Some version
  | _ => None
  end.

Definition is_string (v : json) : bool :=
  match v with
  | JStr _ => true
  | _ => false
  end.

Definition all_strings (group : list (string * json)) : bool :=
  forallb (fun kv => is_string (snd kv)) (ODict.of_pairs group).

(** A member of a decoded object, with the default [{}] of [data.get]. *)
Definition member (data : list (string * json)) (key : string) : json :=
  match ODict.get key (ODict.of_pairs data) with
  | Some v => v
  | None => JObj []
  end.

(** A world whose manifest has a version that is not a string. *)
Definition broken_manifest_world : World :=
  {| w_stdin := Sample.event "npm install";
     w_getcwd := "/srv/app";
     w_normpath := fun p => p;
     w_package_json := fun _ =>
       File (JObj [("dependencies",
                    JObj [("a", JStr "1.0.0"); ("b", JNum 2); ("c", JStr "3.0.0")]);
                   ("devDependencies", JObj [("d", JStr "1.0.0")])]);
     w_requirements_txt := fun _ => NoFile;
     w_file_lines := fun _ => None;
     w_npm_latest := fun _ => Some "2.0.0";
     w_pypi_latest := fun _ => None;
     w_claude := fun _ _ _ => TimedOut;
     w_schedule := [];
     w_cache_file := None;
     w_cache_writable := true |}.

(** A world whose manifest pins a version with a digit run beyond the
    limit of [int], and one where the manifest cannot be probed. *)
Definition endless_version_world : World :=
  {| w_stdin := Sample.event "npm install";
     w_getcwd := "/srv/app";
     w_normpath := fun p => p;
     w_package_json := fun _ =>
       File (JObj [("dependencies", JObj [("left-pad", JStr Sample.endless_version)])]);
     w_requirements_txt := fun _ => NoFile;
     w_file_lines := fun _ => None;
     w_npm_latest := fun _ => Some "2.0.0";
     w_pypi_latest := fun _ => None;
     w_claude := fun _ _ _ => TimedOut;
     w_schedule := [];
     w_cache_file := None;
     w_cache_writable := true |}.

Definition unreachable_manifest_world : World :=
  {| w_stdin := Sample.event "npm install";
     w_getcwd := "/srv/app";
     w_normpath := fun p => p;
     w_package_json := fun _ => ProbeFails;
     w_requirements_txt := fun _ => ProbeFails;
     w_file_lines := fun _ => None;
     w_npm_latest := fun _ => Some "2.0.0";
     w_pypi_latest := fun _ => None;
     w_claude := fun _ _ _ => TimedOut;
     w_schedule := [];
     w_cache_file := None;
     w_cache_writable := true |}.

(** [\b]: whether the character before a position is a word character,
    and whether a position is at a word boundary. *)
Definition word_char_before (prev : option ascii) : bool :=
  match prev with
  | Some c => is_word c
  | None => false
  end.

Definition at_boundary (prev : option ascii) (rest : string) : bool :=
  xorb (word_char_before prev) (head_is is_word rest).

(** A command that holds, as whole words, a manager's name, whitespace
    and one of the manager's install subcommands. *)
Definition install_command (command manager : string) : Prop :=
  exists pre ws sub post,
    command = pre +:+ manager +:+ ws +:+ sub +:+ post
    /\ (manager, sub) ∈ subcommands
    /\ ws <> "" /\ all_chars is_space ws = true
    /\ word_char_before (last_of None pre) = false
    /\ head_is is_word post = false.

(** What a subcommand pattern reads is one of the listed subcommands. *)
Definition reads_one_of (a : regex) (subs : list string) : Prop :=
  forall (R : Type) pv s caps (k : mstate -> option R) x,
    sre_match a (MState pv s caps) k = Some x ->
    exists sub t caps',
      sub ∈ subs /\ s = sub +:+ t /\ k (MState (last_of pv sub) t caps') = Some x.

End More.

Import More.

(** Case analysis on the entries of the two tables. *)
Ltac listed_subcommand H :=
  unfold subcommands;
  repeat (apply elem_of_cons in H as [-> | H]); [.. | inversion H];
  (split; [set_solver | reflexivity]).

Ltac entry_of H :=
  repeat (apply elem_of_cons in H as [H | H]; [simplify_eq|]);
  try (inversion H; fail).

(** * Evaluating the embedding on small inputs *)

Example major_caret : get_major_version "^17.0.2" = inr (Some 17).
Proof. reflexivity. Qed.

Example major_ge : get_major_version ">=14.0.0" = inr (Some 14).
Proof. reflexivity. Qed.

Example major_none : get_major_version "latest" = inr None.
Proof. reflexivity. Qed.

Example major_empty : get_major_version "" = inr None.
Proof. reflexivity. Qed.

Example split_ex : split "  foo   bar@2 " = ["foo"; "bar@2"].
Proof. reflexivity. Qed.

Example strip_ex : strip "  a b  " = "a b".
Proof. reflexivity. Qed.

Example replace_ex : replace "@types/" "" "@types/node" = "node".
Proof. reflexivity. Qed.

Example replace_inner : replace "@types/" "" "@ty@types/pes/x" = "@types/x".
Proof. reflexivity. Qed.

Example pcp_simple :
  parse_command_packages "npm install lodash@5 react" "npm" = ["lodash"; "react"].
Proof. vm_compute. reflexivity. Qed.

Example pcp_flag_arg :
  parse_command_packages "npm install foo -D bar baz" "npm" = ["foo"; "baz"].
Proof. vm_compute. reflexivity. Qed.

Example pcp_leading_flag :
  parse_command_packages "npm install --save-dev foo" "npm" = ["foo"].
Proof. vm_compute. reflexivity. Qed.

Example pcp_pip :
  parse_command_packages "pip install requests==2.28.0 flask>=1" "pip"
  = ["requests"; "flask"].
Proof. vm_compute. reflexivity. Qed.

Example pcp_unknown_manager :
  parse_command_packages "cargo add serde" "cargo" = ["cargo"; "add"; "serde"].
Proof. vm_compute. reflexivity. Qed.

Example cache_key_ex : cache_key "react" 17 18 = "react:17->18".
Proof. reflexivity. Qed.

Example dirname_ex : Path.dirname "/srv/app/requirements.txt" = "/srv/app".
Proof. reflexivity. Qed.

Example dirname_root : Path.dirname "/requirements.txt" = "/".
Proof. reflexivity. Qed.

Example requirement_line :
  add_requirement [] "requests==2.28.0" = [("requests", "2.28.0")].
Proof. vm_compute. reflexivity. Qed.

Example requirement_compound :
  add_requirement [] "flask >= 1.0,<2.0" = [("flask", "1.0")].
Proof. vm_compute. reflexivity. Qed.

Example filter_types_shadow :
  filter_redundant_types
    [Diff "@types/lodash" "^3.0.0" 3 "4.14.0" 4;
     Diff "lodash" "3.10.1" 3 "4.17.21" 4;
     Diff "@types/node" "^18.0.0" 18 "20.1.0" 20]
  = [Diff "lodash" "3.10.1" 3 "4.17.21" 4;
     Diff "@types/node" "^18.0.0" 18 "20.1.0" 20].
Proof. vm_compute. reflexivity. Qed.

Example diff_flask :
  check_version_diff (Sample.world NotJson None) "flask" "1.1.0" "pypi"
  = inr (Some (Diff "flask" "1.1.0" 1 "3.0.0" 3)).
Proof. reflexivity. Qed.

Example diff_requests :
  check_version_diff (Sample.world NotJson None) "requests" "2.28.0" "pypi"
  = inr None.
Proof. reflexivity. Qed.

Example pcp_scoped :
  parse_command_packages "npm install @types/node lodash" "npm" = ["lodash"].
Proof. vm_compute. reflexivity. Qed.

Example pcp_not_at_start :
  parse_command_packages "sudo npm install foo" "npm"
  = ["sudo"; "npm"; "install"; "foo"].
Proof. vm_compute. reflexivity. Qed.

Example major_endless : get_major_version Sample.endless_version = inl ValueError.
Proof. vm_compute. reflexivity. Qed.

Example major_at_limit :
  exists major, get_major_version (Sample.nines 4300) = inr (Some major).
Proof. eexists. vm_compute. reflexivity. Qed.

Example main_endless_version :
  main endless_version_world = quiet endless_version_world (Uncaught ValueError).
Proof. vm_compute. reflexivity. Qed.

Example main_unreachable_manifest :
  main unreachable_manifest_world
  = quiet unreachable_manifest_world (Uncaught OSError).
Proof. vm_compute. reflexivity. Qed.

(** * Properties *)

(** ** Strings *)

#[local] Arguments String.append !s1 s2 : simpl nomatch.

Section StringFacts.

Lemma string_length_app (a b : string) :
  String.length (a +:+ b) = (String.length a + String.length b)%nat.
Proof. induction a as [|c a IH]; simpl; [reflexivity | now rewrite IH]. Qed.

Lemma app_empty_r (a : string) : a +:+ "" = a.
Proof. induction a as [|c a IH]; simpl; [reflexivity | now rewrite IH]. Qed.

Lemma app_assoc_s (a b c : string) : (a +:+ b) +:+ c = a +:+ b +:+ c.
Proof. induction a as [|x a IH]; simpl; [reflexivity | now rewrite IH]. Qed.

Lemma substring_prefix (a b : string) :
  substring 0 (String.length a) (a +:+ b) = a.
Proof.
  induction a as [|c a IH]; simpl.
  - destruct b; reflexivity.
  - now rewrite IH.
Qed.

Lemma consumed_app (a b : string) : consumed (a +:+ b) b = a.
Proof.
  unfold consumed. rewrite string_length_app.
  replace (String.length a + String.length b - String.length b)%nat
    with (String.length a) by lia.
  apply substring_prefix.
Qed.

Lemma consumed_nil (s : string) : consumed s s = "".
Proof. apply (consumed_app "" s). Qed.

Lemma all_chars_app (p : ascii -> bool) (a b : string) :
  all_chars p (a +:+ b) = all_chars p a && all_chars p b.
Proof.
  induction a as [|c a IH]; simpl; [reflexivity|].
  rewrite IH. now rewrite andb_assoc.
Qed.

End StringFacts.

(** ** The matcher on a greedy class repetition *)

Section Greedy.
Context {R : Type}.

(** When the continuation accepts the longest repetition, that is the
    answer: shorter ones are never tried. *)
Lemma rep_greedy_longest (p : ascii -> bool) (run post : string)
    (prev : option ascii) (k : option ascii -> string -> option R) (x : R) :
  all_chars p run = true ->
  head_is p post = false ->
  k (last_of prev run) post = Some x ->
  rep_greedy p prev (run +:+ post) k = Some x.
Proof.
  revert prev. induction run as [|c run IH]; intros prev Hall Hpost Hk; simpl in *.
  - destruct post as [|d post]; simpl in *; [assumption|].
    now rewrite Hpost.
  - apply andb_true_iff in Hall as [Hc Hrun]. rewrite Hc.
    now rewrite (IH (Some c) Hrun Hpost Hk).
Qed.

(** When the continuation refuses every position, so does the repetition. *)
Lemma rep_greedy_none (p : ascii -> bool) (s : string) (prev : option ascii)
    (k : option ascii -> string -> option R) :
  (forall pv t, k pv t = None) ->
  rep_greedy p prev s k = None.
Proof.
  intros Hk. revert prev. induction s as [|c s IH]; intros prev; simpl.
  - apply Hk.
  - destruct (p c); [rewrite IH|]; apply Hk.
Qed.

End Greedy.

(** ** Version Extractor *)

Lemma major_attempt_miss (prev : option ascii) (s : string) :
  head_is is_digit s = false ->
  attempt false re_major prev s = None.
Proof.
  intros H. unfold attempt, re_major. simpl.
  destruct s as [|c s]; [reflexivity|]. simpl in H. now rewrite H.
Qed.

Lemma major_attempt_hit (prev : option ascii) (c : ascii) (run post : string) :
  is_digit c = true ->
  all_chars is_digit run = true ->
  head_is is_digit post = false ->
  attempt false re_major prev (String c run +:+ post)
  = Some (MState (last_of (Some c) run) post [(1%nat, String c run)]).
Proof.
  intros Hc Hrun Hpost. unfold attempt, re_major. simpl. rewrite Hc.
  apply rep_greedy_longest; try assumption.
  simpl. f_equal. f_equal.
  change (String c (run +:+ post)) with (String c run +:+ post).
  now rewrite consumed_app.
Qed.

Lemma major_search_skip (pre rest : string) (prev : option ascii) (i : nat) :
  all_chars non_digit pre = true ->
  search_from re_major prev (pre +:+ rest) i
  = search_from re_major (last_of prev pre) rest (i + String.length pre).
Proof.
  revert prev i. induction pre as [|c pre IH]; intros prev i Hpre; simpl.
  - now rewrite Nat.add_0_r.
  - simpl in Hpre. apply andb_true_iff in Hpre as [Hc Hpre].
    rewrite major_attempt_miss.
    + rewrite IH by assumption. f_equal. lia.
    + simpl. unfold non_digit in Hc. now apply negb_true_iff in Hc.
Qed.

Lemma major_search_none (s : string) (prev : option ascii) (i : nat) :
  all_chars non_digit s = true ->
  search_from re_major prev s i = None.
Proof.
  intros H. rewrite <- (app_empty_r s). rewrite major_search_skip by assumption.
  reflexivity.
Qed.

(** Every string with a digit splits at its first run of digits. *)
Lemma first_run_exists (s : string) :
  all_chars non_digit s = false ->
  exists pre run post,
    s = pre +:+ run +:+ post
    /\ all_chars non_digit pre = true
    /\ run <> ""
    /\ all_chars is_digit run = true
    /\ head_is is_digit post = false.
Proof.
  assert (Hrun : forall t, exists run post,
             t = run +:+ post /\ all_chars is_digit run = true
             /\ head_is is_digit post = false).
  { induction t as [|c t [run [post (Ht & Hr & Hp)]]].
    - exists "", "". repeat split.
    - destruct (is_digit c) eqn:Hc.
      + exists (String c run), post. simpl. rewrite Hc, Hr. subst t. repeat split.
        assumption.
      + exists "", (String c t). simpl. repeat split. assumption. }
  induction s as [|c s IH]; simpl; [discriminate|].
  unfold non_digit at 1. destruct (is_digit c) eqn:Hc; simpl.
  - intros _. destruct (Hrun s) as [run [post (Hs & Hr & Hp)]].
    exists "", (String c run), post. simpl. rewrite Hc, Hr. subst s.
    repeat split; [discriminate | assumption].
  - intros H. destruct (IH H) as [pre [run [post (Hs & Hpre & Hne & Hr & Hp)]]].
    exists (String c pre), run, post. simpl. unfold non_digit at 1.
    rewrite Hc. simpl. subst s. repeat split; assumption.
Qed.

(** The major of a text cut at its first run of digits. *)
Lemma get_major_version_cut (pre run post : string) :
  all_chars non_digit pre = true ->
  run <> "" ->
  all_chars is_digit run = true ->
  head_is is_digit post = false ->
  get_major_version (pre +:+ run +:+ post)
  = match int_of_digits run with
    | inr major => inr (Some major)
    | inl e => inl e
    end.
Proof.
  intros Hpre Hne Hrun Hpost.
  assert (Hnonempty : pre +:+ run +:+ post <> "").
  { destruct pre; simpl; [|discriminate]. destruct run; simpl; [contradiction|discriminate]. }
  unfold get_major_version, re_search.
  rewrite major_search_skip by assumption.
  destruct run as [|c run]; [contradiction|].
  simpl in Hrun. apply andb_true_iff in Hrun as [Hc Hrun].
  simpl search_from.
  change (String c (run +:+ post)) with (String c run +:+ post).
  rewrite major_attempt_hit by assumption.
  destruct (pre +:+ String c run +:+ post) eqn:E; [contradiction|].
  reflexivity.
Qed.

Lemma get_major_version_no_digit (version_str : string) :
  all_chars non_digit version_str = true ->
  get_major_version version_str = inr None.
Proof.
  intros H. unfold get_major_version, re_search.
  rewrite major_search_none by assumption.
  now destruct version_str.
Qed.

(** C2. For every version string: a string without digits, the empty
    string included, gives nothing; a string cut as [pre ++ run ++ post],
    with [pre] free of digits, [run] a non-empty run of digits and [post]
    not starting with a digit, gives the integer value of [run] when the
    run has at most 4300 digits, wherever the run starts (so the
    constraint prefixes before it are skipped); when the run has more
    than 4300 digits, [int] raises [ValueError] and [get_major_version],
    which has no handler, raises it too instead of returning an integer;
    and every string with a digit has such a cut. *)
Theorem get_major_version_first_digit_run (version_str : string) :
  (all_chars non_digit version_str = true ->
     get_major_version version_str = inr None)
  /\ (forall pre run post,
        version_str = pre +:+ run +:+ post ->
        all_chars non_digit pre = true ->
        run <> "" ->
        all_chars is_digit run = true ->
        head_is is_digit post = false ->
        (Z.of_nat (String.length run) <= int_max_str_digits ->
           get_major_version version_str = inr (Some (int_acc 0 run)))
        /\ (int_max_str_digits < Z.of_nat (String.length run) ->
              get_major_version version_str = inl ValueError))
  /\ (all_chars non_digit version_str = false ->
        exists pre run post,
          version_str = pre +:+ run +:+ post
          /\ all_chars non_digit pre = true
          /\ run <> ""
          /\ all_chars is_digit run = true
          /\ head_is is_digit post = false).
Proof.
  split; [|split].
  - apply get_major_version_no_digit.
  - intros pre run post -> Hpre Hne Hrun Hpost.
    rewrite get_major_version_cut by assumption. unfold int_of_digits.
    split; intros Hlen.
    + apply Z.ltb_ge in Hlen. now rewrite Hlen.
    + apply Z.ltb_lt in Hlen. now rewrite Hlen.
  - apply first_run_exists.
Qed.

Lemma get_major_version_witness :
  get_major_version Sample.endless_version = inl ValueError
  /\ get_major_version "latest" = inr None.
Proof.
  split.
  - apply (proj2 (proj1 (proj2 (get_major_version_first_digit_run
                                  Sample.endless_version))
                    "^" (Sample.nines 4301) ".0.0"
                    eq_refl eq_refl
                    ltac:(intros H; vm_compute in H; discriminate H)
                    ltac:(vm_compute; reflexivity) eq_refl)).
    vm_compute. reflexivity.
  - apply (proj1 (get_major_version_first_digit_run "latest")). reflexivity.
Defined.

(** ** The substitution loop never runs out of fuel *)

Section Fuel.

Lemma rep_greedy_shrinks {R} (p : ascii -> bool) (s : string) (prev : option ascii)
    (k : option ascii -> string -> option R) (x : R) :
  rep_greedy p prev s k = Some x ->
  exists pv t, k pv t = Some x /\ (String.length t <= String.length s)%nat.
Proof.
  revert prev. induction s as [|c s IH]; intros prev; simpl.
  - intros H. exists prev, "". auto.
  - destruct (p c).
    + destruct (rep_greedy p (Some c) s k) eqn:E.
      * intros [= ->]. destruct (IH _ E) as (pv & t & Hk & Hlen).
        exists pv, t. split; [assumption | lia].
      * intros H. exists prev, (String c s). auto.
    + intros H. exists prev, (String c s). auto.
Qed.

(** The continuation is only ever called further on in the subject. *)
Lemma sre_match_shrinks {R} (r : regex) (st : mstate) (k : mstate -> option R) (x : R) :
  sre_match r st k = Some x ->
  exists st', k st' = Some x
              /\ (String.length (ms_rest st') <= String.length (ms_rest st))%nat.
Proof.
  revert st k. induction r as [|p|r1 IH1 r2 IH2|r1 IH1 r2 IH2|r1 IH1|p|p| | | |n r1 IH1];
    intros st k; cbn [sre_match].
  - intros H. exists st. auto.
  - destruct st as [pv [|c t] caps]; simpl; [discriminate|].
    destruct (p c); [|discriminate]. intros H. eexists. split; [exact H|]. simpl. lia.
  - intros H. apply IH1 in H as (st1 & H & Hlen1).
    apply IH2 in H as (st2 & H & Hlen2). exists st2. split; [assumption | lia].
  - destruct (sre_match r1 st k) eqn:E.
    + intros [= ->]. now apply IH1.
    + now apply IH2.
  - destruct (sre_match r1 st k) eqn:E.
    + intros [= ->]. now apply IH1.
    + intros H. exists st. auto.
  - intros H. apply rep_greedy_shrinks in H as (pv & t & H & Hlen).
    eexists. split; [exact H|]. exact Hlen.
  - destruct st as [pv [|c t] caps]; simpl; [discriminate|].
    destruct (p c); [|discriminate].
    intros H. apply rep_greedy_shrinks in H as (pv' & t' & H & Hlen).
    eexists. split; [exact H|]. simpl. lia.
  - destruct (ms_prev st); [discriminate|]. intros H. exists st. auto.
  - destruct (at_eol (ms_rest st)); [|discriminate]. intros H. exists st. auto.
  - destruct (xorb _ _); [|discriminate]. intros H. exists st. auto.
  - intros H. apply IH1 in H as (st1 & H & Hlen).
    eexists. split; [exact H|]. exact Hlen.
Qed.

Lemma attempt_shrinks (adv : bool) (r : regex) (prev : option ascii) (s : string)
    (st' : mstate) :
  attempt adv r prev s = Some st' ->
  (String.length (ms_rest st') <= String.length s)%nat
  /\ (adv = true -> String.length (ms_rest st') <> String.length s).
Proof.
  unfold attempt. intros H. apply sre_match_shrinks in H as (st1 & H & Hlen).
  simpl in Hlen.
  destruct adv; simpl in H.
  - destruct (String.length (ms_rest st1) =? String.length s)%nat eqn:E;
      [discriminate|].
    injection H as <-. split; [assumption|]. intros _. now apply Nat.eqb_neq.
  - injection H as <-. split; [assumption | discriminate].
Qed.

(** What is left for the loop to do. *)
Lemma sub_loop_fuel (r : regex) (repl : string) (n : nat) :
  forall (s : string) (adv : bool) (prev : option ascii) (fuel fuel' : nat),
    (2 * String.length s + (if adv then 0 else 1) <= n)%nat ->
    (n < fuel)%nat -> (n < fuel')%nat ->
    sub_loop fuel r repl prev s adv = sub_loop fuel' r repl prev s adv.
Proof.
  induction n as [|n IH]; intros s adv prev fuel fuel' Hn Hf Hf'.
  - destruct fuel as [|fuel]; [lia|]. destruct fuel' as [|fuel']; [lia|].
    cbn [sub_loop].
    destruct (attempt adv r prev s) as [st'|] eqn:E.
    + apply attempt_shrinks in E as [Hle Hadv].
      destruct adv; [|lia]. assert (String.length s = 0)%nat by lia.
      exfalso. apply Hadv; [reflexivity | lia].
    + destruct s; [reflexivity | simpl in Hn; lia].
  - destruct fuel as [|fuel]; [lia|]. destruct fuel' as [|fuel']; [lia|].
    cbn [sub_loop].
    destruct (attempt adv r prev s) as [st'|] eqn:E.
    + apply attempt_shrinks in E as [Hle Hadv]. f_equal.
      apply IH; try lia.
      destruct (String.length (ms_rest st') =? String.length s)%nat eqn:Elen.
      * apply Nat.eqb_eq in Elen. destruct adv; [now destruct (Hadv eq_refl) | lia].
      * apply Nat.eqb_neq in Elen. destruct adv; lia.
    + destruct s as [|c s]; [reflexivity|]. f_equal.
      apply IH; try lia. simpl in Hn. destruct adv; lia.
Qed.

(** More fuel than [re_sub] takes changes nothing: the loop ends by
    itself, at the end of the subject. *)
Lemma re_sub_enough_fuel (r : regex) (repl s : string) (extra : nat) :
  sub_loop (2 * String.length s + 2 + extra) r repl None s false = re_sub r repl s.
Proof.
  unfold re_sub. apply (sub_loop_fuel r repl (2 * String.length s + 1)); lia.
Qed.

End Fuel.

(** ** Diff Resolver *)



(** ** Redundant-Entry Filter *)

Section Filter.

Lemma not_types_not_redundant (base : gset string) (d : diff) :
  is_types (package d) = false -> redundant base d = false.
Proof. intros H. unfold redundant. now rewrite H. Qed.

(** Filtering never removes a base package, so the set of base names is
    the same before and after. *)
Lemma base_packages_filter (base : gset string) (diffs : list diff) :
  base_packages (filter (fun d => redundant base d = false) diffs)
  = base_packages diffs.
Proof.
  unfold base_packages. f_equal. f_equal.
  rewrite list_filter_filter. apply list_filter_iff.
  intros d. split; [tauto|].
  intros H. split; [assumption|]. now apply not_types_not_redundant.
Qed.

Lemma filter_twice (base : gset string) (diffs : list diff) :
  filter (fun d => redundant base d = false)
    (filter (fun d => redundant base d = false) diffs)
  = filter (fun d => redundant base d = false) diffs.
Proof. rewrite list_filter_filter. apply list_filter_iff. tauto. Qed.

End Filter.

(** C6. For every list of diffs, [filter_redundant_types] is idempotent
    and its output is a subsequence of its input: the surviving diffs
    keep their relative order. *)
Theorem filter_redundant_types_idempotent_ordered (diffs : list diff) :
  filter_redundant_types (filter_redundant_types diffs)
  = filter_redundant_types diffs
  /\ filter_redundant_types diffs `sublist_of` diffs.
Proof.
  unfold filter_redundant_types. split.
  - rewrite base_packages_filter. apply filter_twice.
  - apply sublist_filter.
Qed.

(** ** Research Dispatcher: completion order and the collecting loop *)

Section Dispatch.

(** Whatever the schedule, [as_completed] hands over every call once. *)
Lemma as_completed_perm {A} (schedule : list nat) (pending : list A) (fuel : nat) :
  (length pending <= fuel)%nat ->
  as_completed schedule fuel pending ≡ₚ pending.
Proof.
  revert schedule pending.
  induction fuel as [|fuel IH]; intros schedule pending Hlen.
  - destruct pending; simpl in *; [reflexivity | lia].
  - destruct pending as [|x pending]; [reflexivity|].
    cbn [as_completed].
    set (i := (hd O schedule mod length (x :: pending))%nat).
    assert (Hi : (i < length (x :: pending))%nat).
    { apply Nat.mod_upper_bound. simpl. lia. }
    destruct (lookup_lt_is_Some_2 _ _ Hi) as [y Hy].
    rewrite (nth_lookup_Some _ _ x y Hy).
    rewrite (delete_Permutation (x :: pending) i y Hy) at 2.
    constructor. apply IH.
    rewrite length_delete by eauto. simpl in *. lia.
Qed.

Lemma fold_collect (rs results : list result) (cache : gmap string string) :
  fold_left collect rs (results, cache)
  = (results ++ rs, fold_left remember rs cache).
Proof.
  revert results cache. induction rs as [|r rs IH]; intros results cache; simpl.
  - now rewrite app_nil_r.
  - rewrite IH. now rewrite <- app_assoc.
Qed.

(** A key no genuine result of the batch carries keeps its entry. *)
Lemma remember_all_other (rs : list result) (cache : gmap string string) (k : string) :
  (forall r, r ∈ rs -> genuine r -> result_key r <> k) ->
  fold_left remember rs cache !! k = cache !! k.
Proof.
  revert cache. induction rs as [|r rs IH]; intros cache H; simpl; [reflexivity|].
  rewrite IH by (intros r' Hr'; apply H; now right).
  unfold remember. destruct (startswith "(" (research r)) eqn:E; [reflexivity|].
  apply lookup_insert_ne. apply H; [now left | exact E].
Qed.

(** With distinct keys in the batch, a genuine result is found under its
    key when the loop is over. *)
Lemma remember_all_hit (rs : list result) (cache : gmap string string) (r : result) :
  NoDup (result_key <$> rs) ->
  r ∈ rs -> genuine r ->
  fold_left remember rs cache !! result_key r = Some (research r).
Proof.
  revert cache. induction rs as [|r0 rs IH]; intros cache Hnd Hin Hgen.
  - inversion Hin.
  - rewrite fmap_cons in Hnd. apply NoDup_cons in Hnd as [Hfresh Hnd].
    simpl. apply elem_of_cons in Hin as [-> | Hin].
    + rewrite remember_all_other.
      * unfold remember. unfold genuine in Hgen. rewrite Hgen.
        apply lookup_insert_eq.
      * intros r' Hr' _ Heq. apply Hfresh. rewrite <- Heq.
        now apply list_elem_of_fmap_2.
    + now apply IH.
Qed.

(** Entries already in the cache stay when every result of the batch has
    a key the cache did not hold. *)
Lemma remember_all_keeps (rs : list result) (cache : gmap string string)
    (k t : string) :
  (forall r, r ∈ rs -> cache !! result_key r = None) ->
  cache !! k = Some t ->
  fold_left remember rs cache !! k = Some t.
Proof.
  intros Hnew Hk. rewrite remember_all_other; [assumption|].
  intros r Hr _ Heq. specialize (Hnew r Hr). rewrite Heq in Hnew. congruence.
Qed.

(** The cache after the loop does not depend on the completion order. *)
Lemma remember_all_perm (rs rs' : list result) (cache : gmap string string) :
  NoDup (result_key <$> rs) ->
  rs ≡ₚ rs' ->
  fold_left remember rs cache = fold_left remember rs' cache.
Proof.
  intros Hnd Hperm. apply map_eq. intros k.
  assert (Hnd' : NoDup (result_key <$> rs')) by now rewrite <- Hperm.
  destruct (decide (Exists (fun r => genuine r /\ result_key r = k) rs))
    as [Hyes | Hno].
  - apply Exists_exists in Hyes as [r (Hr & Hg & <-)].
    rewrite (remember_all_hit rs) by assumption.
    rewrite (remember_all_hit rs'); [reflexivity | assumption | | assumption].
    now rewrite <- Hperm.
  - rewrite Exists_exists in Hno.
    rewrite !remember_all_other; [reflexivity | |].
    + intros r Hr Hg Heq. apply Hno. exists r. rewrite Hperm. auto.
    + intros r Hr Hg Heq. apply Hno. exists r. auto.
Qed.

End Dispatch.

(** ** Cache keys *)

Section Keys.

Lemma all_chars_impl (p q : ascii -> bool) (s : string) :
  (forall c, p c = true -> q c = true) ->
  all_chars p s = true -> all_chars q s = true.
Proof.
  intros Hpq. induction s as [|c s IH]; simpl; [reflexivity|].
  intros H. apply andb_true_iff in H as [Hc Hs].
  now rewrite (Hpq c Hc), IH.
Qed.

Lemma pretty_N_char_digit (x : N) : is_digit (pretty_N_char x) = true.
Proof. unfold pretty_N_char. repeat case_match; reflexivity. Qed.

Lemma pretty_N_go_chars (x : N) (s : string) :
  all_chars is_int_char s = true ->
  all_chars is_int_char (pretty_N_go x s) = true.
Proof.
  revert s. induction (N.lt_wf_0 x) as [x _ IH]; intros s Hs.
  destruct (decide (x = 0)%N) as [-> | Hx].
  - now rewrite pretty_N_go_0.
  - rewrite pretty_N_go_step by lia. apply IH.
    + apply N.div_lt; lia.
    + simpl. rewrite Hs. unfold is_int_char. now rewrite pretty_N_char_digit.
Qed.

Lemma pretty_N_chars (x : N) : all_chars is_int_char (pretty x) = true.
Proof.
  unfold pretty, pretty_N. case_decide; [reflexivity|].
  now apply pretty_N_go_chars.
Qed.

(** The decimal text of an integer: digits, after a minus sign at most. *)
Lemma pretty_Z_chars (z : Z) : all_chars is_int_char (pretty z) = true.
Proof.
  destruct z as [|p|p]; unfold pretty, pretty_Z; [reflexivity | |].
  - apply pretty_N_chars.
  - simpl. apply (pretty_N_chars (Npos p)).
Qed.

(** A text is cut in one way only at the last occurrence of a character. *)
Lemma cut_at_last (x : ascii) (u u' v v' : string) :
  all_chars (is_not x) v = true ->
  all_chars (is_not x) v' = true ->
  u +:+ String x v = u' +:+ String x v' ->
  u = u' /\ v = v'.
Proof.
  intros Hv Hv'. revert u'. induction u as [|c u IH]; intros [|c' u'] H; simpl in H.
  - now injection H.
  - injection H as <- ->. rewrite all_chars_app in Hv. simpl in Hv.
    unfold is_not at 2, is_char in Hv. destruct (ascii_dec x x); [|contradiction].
    simpl in Hv. now rewrite andb_false_r in Hv.
  - injection H as -> <-. rewrite all_chars_app in Hv'. simpl in Hv'.
    unfold is_not at 2, is_char in Hv'. destruct (ascii_dec x x); [|contradiction].
    simpl in Hv'. now rewrite andb_false_r in Hv'.
  - injection H as -> H. destruct (IH _ H) as [-> ->]. now split.
Qed.

Lemma int_chars_free (x : ascii) (s : string) :
  is_int_char x = false ->
  all_chars is_int_char s = true -> all_chars (is_not x) s = true.
Proof.
  intros Hx. apply all_chars_impl. intros c Hc. unfold is_not, is_char.
  destruct (ascii_dec x c) as [-> |]; [congruence | reflexivity].
Qed.

(** Two diffs share a cache key only when package and both majors agree. *)
Lemma cache_key_inj (pkg pkg' : string) (old_major old_major' new_major new_major' : Z) :
  cache_key pkg old_major new_major = cache_key pkg' old_major' new_major' ->
  pkg = pkg' /\ old_major = old_major' /\ new_major = new_major'.
Proof.
  unfold cache_key. intros H.
  change (":" +:+ ?t) with (String ":" t) in H.
  apply cut_at_last in H as [-> H].
  - split; [reflexivity|].
    change ("->" +:+ ?t) with (String "-" (String ">" t)) in H.
    change (?a +:+ String "-" (String ">" ?t))
      with (a +:+ String "-" "" +:+ String ">" t) in H.
    rewrite <- !app_assoc_s in H.
    apply cut_at_last in H as [H1 H2];
      try (apply (int_chars_free ">"); [reflexivity | apply pretty_Z_chars]).
    apply (cut_at_last "-" _ _ "" "") in H1 as [H1 _]; try reflexivity.
    split; now apply pretty_Z_inj.
  - rewrite all_chars_app. rewrite (int_chars_free ":") by
      (reflexivity || apply pretty_Z_chars).
    simpl. apply (int_chars_free ":"); [reflexivity | apply pretty_Z_chars].
  - rewrite all_chars_app. rewrite (int_chars_free ":") by
      (reflexivity || apply pretty_Z_chars).
    simpl. apply (int_chars_free ":"); [reflexivity | apply pretty_Z_chars].
Qed.

Lemma key_of_inj (d d' : diff) :
  key_of d = key_of d' -> package d = package d'.
Proof. intros H. now apply cache_key_inj in H. Qed.

End Keys.

(** ** Package names are distinct all along the pipeline *)

Section Distinct.

Lemma odict_set_keys {V} (k : string) (v : V) (d : list (string * V)) :
  fst <$> ODict.set k v d
  = (fst <$> d) ++ (if bool_decide (k ∈ fst <$> d) then [] else [k]).
Proof.
  induction d as [|[k' v'] d IH]; csimpl; [reflexivity|].
  destruct (String.eqb_spec k' k) as [-> | Hne]; csimpl.
  - rewrite bool_decide_eq_true_2 by left. now rewrite app_nil_r.
  - rewrite IH. f_equal.
    destruct (decide (k ∈ fst <$> d)) as [Hin | Hout].
    + rewrite !bool_decide_eq_true_2; [reflexivity | now right | assumption].
    + rewrite !bool_decide_eq_false_2; [reflexivity | | assumption].
      intros [? | ?]%elem_of_cons; congruence.
Qed.

Lemma odict_set_nodup {V} (k : string) (v : V) (d : list (string * V)) :
  NoDup (fst <$> d) -> NoDup (fst <$> ODict.set k v d).
Proof.
  intros H. rewrite odict_set_keys. case_bool_decide.
  - now rewrite app_nil_r.
  - apply NoDup_app. repeat split; [assumption | | apply NoDup_singleton].
    intros x Hx ->%list_elem_of_singleton. contradiction.
Qed.

Lemma fold_set_nodup {A V} (f : list (string * V) -> A -> list (string * V))
    (l : list A) (d : list (string * V)) :
  (forall d a, NoDup (fst <$> d) -> NoDup (fst <$> f d a)) ->
  NoDup (fst <$> d) -> NoDup (fst <$> fold_left f l d).
Proof.
  intros Hf. revert d. induction l as [|a l IH]; intros d Hd; simpl; auto.
Qed.

Lemma add_deps_nodup (items : list (string * json)) (packages : odict) :
  NoDup (fst <$> packages) -> NoDup (fst <$> fst (add_deps items packages)).
Proof.
  revert packages. induction items as [|[name v] items IH]; intros packages H; simpl.
  - assumption.
  - destruct v; try assumption. apply IH.
    destruct (skipped_reference s); [assumption | now apply odict_set_nodup].
Qed.

Lemma add_group_nodup (data : json) (dep_type : string) (packages : odict) :
  NoDup (fst <$> packages) -> NoDup (fst <$> fst (add_group data dep_type packages)).
Proof.
  intros H. unfold add_group.
  destruct (py_get data dep_type (JObj [])) as [e | []]; try assumption.
  now apply add_deps_nodup.
Qed.

Lemma parse_package_json_nodup (w : World) (cwd : string) (packages : odict) :
  parse_package_json w cwd = inr packages -> NoDup (fst <$> packages).
Proof.
  unfold parse_package_json.
  destruct (w_package_json w cwd) as [| |data]; [discriminate| |].
  - intros [= <-]. constructor.
  - pose proof (add_group_nodup data "dependencies" [] (NoDup_nil_2)) as H1.
    destruct (add_group data "dependencies" []) as [found ok]. simpl in H1.
    intros [= <-]. destruct ok; [|assumption]. now apply add_group_nodup.
Qed.

Lemma read_requirements_nodup (lines : option (list string)) :
  NoDup (fst <$> read_requirements lines).
Proof.
  destruct lines as [ls|]; simpl; [|constructor].
  apply fold_set_nodup; [|constructor].
  intros d line Hd. unfold add_requirement.
  destruct (strip line); [assumption|].
  destruct (_ || _); [assumption|].
  destruct (re_match _ _) as [m|]; [|assumption].
  destruct (group m 1); [|assumption].
  destruct (group m 3); [|assumption].
  now apply odict_set_nodup.
Qed.

Lemma select_installed_nodup (explicit : list string) (installed : odict) :
  NoDup (fst <$> select_installed explicit installed).
Proof.
  unfold select_installed. apply fold_set_nodup; [|constructor].
  intros d pkg Hd. destruct (ODict.get pkg installed); [|assumption].
  now apply odict_set_nodup.
Qed.

Lemma parse_requirements_txt_nodup (w : World) (cwd : string) (packages : odict) :
  parse_requirements_txt w cwd = inr packages -> NoDup (fst <$> packages).
Proof.
  unfold parse_requirements_txt.
  destruct (w_requirements_txt w cwd) as [| |lines]; [discriminate| |];
    intros [= <-]; [apply (read_requirements_nodup None) |
                    apply (read_requirements_nodup (Some lines))].
Qed.

Lemma packages_to_check_nodup (w : World) (cwd command manager : string)
    (packages : odict) :
  packages_to_check w cwd command manager = inr packages ->
  NoDup (fst <$> packages).
Proof.
  unfold packages_to_check.
  destruct (pip_requirements_file cwd command manager) as [f|].
  - destruct (String.eqb (registry_of manager) "npm").
    + apply parse_package_json_nodup.
    + destruct (parse_requirements_txt w (Path.dirname f)); [discriminate|].
      intros [= <-]. apply read_requirements_nodup.
  - destruct (parse_command_packages command manager).
    + destruct (String.eqb (registry_of manager) "npm").
      * apply parse_package_json_nodup.
      * destruct (parse_requirements_txt w _) as [e|found] eqn:E; [discriminate|].
        intros [= <-]. now apply parse_requirements_txt_nodup in E.
    + destruct (if String.eqb (registry_of manager) "npm" then _ else _);
        [discriminate|].
      intros [= <-]. apply select_installed_nodup.
Qed.

Lemma check_version_diff_package (w : World) (pkg installed registry : string) (d : diff) :
  check_version_diff w pkg installed registry = inr (Some d) -> package d = pkg.
Proof.
  unfold check_version_diff.
  destruct (get_major_version installed) as [e|[im|]]; try discriminate.
  destruct (query_registry w registry pkg) as [[|c l]|]; try discriminate.
  destruct (get_major_version (String c l)) as [e|[lm|]]; try discriminate.
  destruct (im =? lm); simpl; [discriminate|]. now intros [= <-].
Qed.

Lemma find_diffs_packages (w : World) (registry : string) (packages : odict)
    (diffs : list diff) :
  find_diffs w registry packages = inr diffs ->
  package <$> diffs `sublist_of` fst <$> packages.
Proof.
  revert diffs. induction packages as [|[pkg v] packages IH]; intros diffs; simpl.
  - intros [= <-]. constructor.
  - destruct (check_version_diff w pkg v registry) as [e|found] eqn:E;
      [discriminate|].
    destruct (find_diffs w registry packages) as [e|rest]; [discriminate|].
    intros [= <-]. destruct found as [d|]; csimpl.
    + rewrite (check_version_diff_package _ _ _ _ _ E). constructor. now apply IH.
    + constructor. now apply IH.
Qed.

(** What a run that reaches the diffs went through. *)
Lemma find_work_inv (w : World) (checked : nat) (diffs : list diff) :
  find_work w = inr (checked, diffs) ->
  exists command cwd command' manager packages,
    read_event (w_stdin w) = Command command
    /\ resolve_cd w command = (cwd, command')
    /\ detect_manager command' = Some manager
    /\ packages_to_check w cwd command' manager = inr packages
    /\ packages <> []
    /\ checked = length packages
    /\ find_diffs w (registry_of manager) packages = inr diffs.
Proof.
  unfold find_work. destruct (read_event (w_stdin w)) as [| |command] eqn:Hev;
    try discriminate.
  destruct (resolve_cd w command) as [cwd command'] eqn:Hcd.
  destruct (detect_manager command') as [manager|] eqn:Hm; [|discriminate].
  destruct (packages_to_check w cwd command' manager) as [e|[|pv packages]] eqn:Hp;
    try discriminate.
  destruct (find_diffs w (registry_of manager) (pv :: packages)) as [e|found] eqn:Hd;
    [discriminate|].
  intros [= <- <-]. exists command, cwd, command', manager, (pv :: packages).
  repeat split; try assumption; discriminate.
Qed.

Lemma find_work_nodup (w : World) (checked : nat) (diffs : list diff) :
  find_work w = inr (checked, diffs) -> NoDup (package <$> diffs).
Proof.
  intros (command & cwd & command' & manager & packages & _ & _ & _ & Hp & _ & _ & Hd)
    %find_work_inv.
  apply packages_to_check_nodup in Hp.
  exact (sublist_NoDup _ _ Hp (find_diffs_packages _ _ _ _ Hd)).
Qed.

Lemma split_cached_spec (cache : gmap string string) (diffs : list diff) :
  split_cached cache diffs
  = (omap (fun d => Result d <$> cache !! key_of d) diffs,
     filter (fun d => cache !! key_of d = None) diffs).
Proof.
  induction diffs as [|d diffs IH]; simpl; [reflexivity|].
  rewrite IH. destruct (cache !! key_of d) as [t|] eqn:E; simpl.
  - rewrite filter_cons_False by congruence. reflexivity.
  - rewrite filter_cons_True by assumption. reflexivity.
Qed.

Lemma nodup_keys (diffs : list diff) :
  NoDup (package <$> diffs) -> NoDup (key_of <$> diffs).
Proof.
  induction diffs as [|d diffs IH]; simpl; [constructor|].
  rewrite !NoDup_cons. intros [Hfresh Hnd]. split; [|auto].
  intros Hin. apply Hfresh.
  apply list_elem_of_fmap in Hin as [d' [Heq Hd']].
  apply key_of_inj in Heq. rewrite Heq. now apply list_elem_of_fmap_2.
Qed.

End Distinct.

(** ** The run from the diffs on *)

Section Report.

Lemma report_none (w : World) (checked : nat) :
  report w checked [] = quiet w (Exited 0).
Proof. reflexivity. Qed.

Lemma report_all_cached (w : World) (checked : nat) (diffs : list diff) :
  diffs <> [] ->
  to_research w diffs = [] ->
  let hits := cache_hits (load_cache (w_cache_file w)) (filter_redundant_types diffs) in
  report w checked diffs
  = Run (Exited 2) (Some (compose checked hits hits)) [EvLoad] (w_cache_file w).
Proof.
  intros Hne Hmiss. unfold report, to_research, cache_misses, cache_hits in *.
  destruct diffs as [|d diffs]; [contradiction|].
  destruct (split_cached _ _) as [cached uncached]. simpl in *. now subst.
Qed.

Lemma report_researched (w : World) (checked : nat) (diffs : list diff) :
  to_research w diffs <> [] ->
  let hits := cache_hits (load_cache (w_cache_file w)) (filter_redundant_types diffs) in
  report w checked diffs
  = Run (Exited 2)
      (Some (compose checked (hits ++ fresh_results w diffs) hits))
      (EvLoad :: (research_event <$> to_research w diffs)
         ++ [EvSave (cache_after w diffs)])
      (save_cache (w_cache_writable w) (cache_after w diffs) (w_cache_file w)).
Proof.
  intros Hmiss.
  unfold report, cache_after, fresh_results, to_research, cache_misses, cache_hits in *.
  destruct diffs as [|d diffs].
  { exfalso. apply Hmiss. reflexivity. }
  destruct (split_cached _ _) as [cached uncached]. simpl in *.
  destruct uncached as [|u uncached]; [contradiction|].
  unfold dispatch. rewrite fold_collect. reflexivity.
Qed.

Lemma fresh_results_perm (w : World) (diffs : list diff) :
  fresh_results w diffs ≡ₚ research_worker w <$> to_research w diffs.
Proof. unfold fresh_results. now apply as_completed_perm. Qed.

Lemma to_research_spec (w : World) (diffs : list diff) (d : diff) :
  d ∈ to_research w diffs
  <-> d ∈ filter_redundant_types diffs
      /\ load_cache (w_cache_file w) !! key_of d = None.
Proof.
  unfold to_research, cache_misses. rewrite split_cached_spec. simpl.
  rewrite list_elem_of_filter. tauto.
Qed.

Lemma to_research_nodup (w : World) (diffs : list diff) :
  NoDup (package <$> diffs) -> NoDup (package <$> to_research w diffs).
Proof.
  intros H. eapply sublist_NoDup; [exact H|].
  apply fmap_sublist. unfold to_research, cache_misses.
  rewrite split_cached_spec. simpl.
  etransitivity; [apply sublist_filter|]. apply sublist_filter.
Qed.

Lemma fresh_results_keys (w : World) (diffs : list diff) :
  NoDup (package <$> diffs) -> NoDup (result_key <$> fresh_results w diffs).
Proof.
  intros H. rewrite fresh_results_perm. rewrite <- list_fmap_compose.
  apply (nodup_keys (to_research w diffs)). now apply to_research_nodup.
Qed.

Lemma fresh_result_inv (w : World) (diffs : list diff) (r : result) :
  r ∈ fresh_results w diffs ->
  exists d, r = research_worker w d /\ d ∈ to_research w diffs.
Proof.
  rewrite fresh_results_perm. now intros ?%list_elem_of_fmap.
Qed.

(** Among diffs with distinct package names, the key tells the diff. *)
Lemma same_key_same_diff (diffs : list diff) (d d' : diff) :
  NoDup (package <$> diffs) ->
  d ∈ diffs -> d' ∈ diffs -> key_of d = key_of d' -> d = d'.
Proof.
  intros Hnd Hd Hd' Hk. apply key_of_inj in Hk.
  apply list_elem_of_lookup in Hd as [i Hi]. apply list_elem_of_lookup in Hd' as [j Hj].
  assert (i = j) as ->.
  { eapply NoDup_lookup; [exact Hnd | |].
    - rewrite list_lookup_fmap, Hi. reflexivity.
    - rewrite list_lookup_fmap, Hj. simpl. now rewrite Hk. }
  congruence.
Qed.

(** What the cache holds once the loop is over: the entries it had, and
    the text of every genuine result under its key. *)
Lemma cache_after_lookup (w : World) (diffs : list diff) (d : diff) :
  NoDup (package <$> diffs) ->
  d ∈ to_research w diffs ->
  cache_after w diffs !! key_of d
  = if decide (genuine (research_worker w d))
    then Some (research (research_worker w d)) else None.
Proof.
  intros Hnd Hd. unfold cache_after. case_decide as Hg.
  - apply (remember_all_hit _ _ (research_worker w d)).
    + now apply fresh_results_keys.
    + rewrite fresh_results_perm. now apply list_elem_of_fmap_2.
    + assumption.
  - rewrite remember_all_other.
    + now apply to_research_spec in Hd.
    + intros r Hr Hgen Hk. apply fresh_result_inv in Hr as [d' [-> Hd']].
      apply Hg. replace d with d'; [assumption|].
      apply (same_key_same_diff (to_research w diffs)); auto.
      now apply to_research_nodup.
Qed.

Lemma cache_after_keeps (w : World) (diffs : list diff) (k t : string) :
  load_cache (w_cache_file w) !! k = Some t ->
  cache_after w diffs !! k = Some t.
Proof.
  intros H. unfold cache_after. apply remember_all_keeps; [|assumption].
  intros r Hr. apply fresh_result_inv in Hr as [d [-> Hd]].
  now apply to_research_spec in Hd.
Qed.

Lemma find_work_next (w : World) (file : option (gmap string string))
    (agent : string -> Z -> Z -> proc_outcome) (schedule : list nat) :
  find_work (next_invocation w file agent schedule) = find_work w.
Proof. reflexivity. Qed.

End Report.

(** ** Reading traces *)

Section Traces.

Lemma loads_researched (ds : list diff) (c : gmap string string) :
  loads (EvLoad :: (research_event <$> ds) ++ [EvSave c]) = 1%nat.
Proof.
  unfold loads. rewrite filter_cons_True by reflexivity. simpl. f_equal.
  rewrite filter_app. rewrite filter_cons_False by discriminate.
  rewrite filter_nil, app_nil_r.
  induction ds as [|d ds IH]; [reflexivity|].
  rewrite fmap_cons, filter_cons_False by discriminate. exact IH.
Qed.

Lemma saved_researched (ds : list diff) (c : gmap string string) :
  saved (EvLoad :: (research_event <$> ds) ++ [EvSave c]) = [c].
Proof.
  unfold saved. simpl. rewrite omap_app. simpl.
  induction ds as [|d ds IH]; [reflexivity|]. exact IH.
Qed.

Lemma researched_researched (ds : list diff) (c : gmap string string) :
  researched (EvLoad :: (research_event <$> ds) ++ [EvSave c]) = transition <$> ds.
Proof.
  unfold researched. simpl. rewrite omap_app. simpl. rewrite app_nil_r.
  induction ds as [|d ds IH]; [reflexivity|]. csimpl. now rewrite IH.
Qed.

End Traces.

(** ** Failed research *)

Lemma failed_marker (w : World) (d : diff) :
  failed (outcome_of w d) ->
  startswith "(" (research (research_worker w d)) = true.
Proof.
  unfold outcome_of, research_worker, spawn_research. simpl.
  destruct (w_claude w _ _ _); simpl; [contradiction | reflexivity | reflexivity].
Qed.

Lemma main_researched (w : World) (checked : nat) (diffs : list diff) :
  find_work w = inr (checked, diffs) ->
  to_research w diffs <> [] ->
  main w
  = Run (Exited 2)
      (Some (compose checked
               (cache_hits (load_cache (w_cache_file w)) (filter_redundant_types diffs)
                  ++ fresh_results w diffs)
               (cache_hits (load_cache (w_cache_file w)) (filter_redundant_types diffs))))
      (EvLoad :: (research_event <$> to_research w diffs)
         ++ [EvSave (cache_after w diffs)])
      (save_cache (w_cache_writable w) (cache_after w diffs) (w_cache_file w)).
Proof.
  intros Hw Hne. unfold main. rewrite Hw. now apply report_researched.
Qed.

Lemma elem_not_nil {A} (x : A) (l : list A) : x ∈ l -> l <> [].
Proof. intros H ->. inversion H. Qed.

(** ** What a run does to the cache file *)

Section CacheFile.

(** The three shapes of a run, by how far it gets. *)
Lemma main_shapes (w : World) :
  (r_trace (main w) = [] /\ r_cache_file (main w) = w_cache_file w
   /\ r_stdout (main w) = None
   /\ (forall checked diffs, find_work w = inr (checked, diffs) -> diffs = []))
  \/ (exists checked diffs,
        find_work w = inr (checked, diffs) /\ diffs <> []
        /\ to_research w diffs = []
        /\ r_trace (main w) = [EvLoad]
        /\ r_cache_file (main w) = w_cache_file w)
  \/ (exists checked diffs,
        find_work w = inr (checked, diffs)
        /\ to_research w diffs <> []
        /\ r_trace (main w)
           = EvLoad :: (research_event <$> to_research w diffs)
               ++ [EvSave (cache_after w diffs)]
        /\ r_cache_file (main w)
           = save_cache (w_cache_writable w) (cache_after w diffs) (w_cache_file w)).
Proof.
  destruct (find_work w) as [s | [checked diffs]] eqn:Hw.
  - left. unfold main. rewrite Hw. simpl. repeat split; try reflexivity. discriminate.
  - destruct diffs as [|d diffs].
    + left. unfold main. rewrite Hw. simpl. repeat split; try reflexivity.
      now intros ? ? [= _ <-].
    + destruct (decide (to_research w (d :: diffs) = [])) as [Hnone | Hsome].
      * right. left. exists checked, (d :: diffs).
        unfold main. rewrite Hw.
        rewrite report_all_cached by (assumption || discriminate).
        repeat split; try reflexivity; try assumption. discriminate.
      * right. right. exists checked, (d :: diffs).
        rewrite (main_researched w checked (d :: diffs) Hw Hsome).
        repeat split; try reflexivity; assumption.
Qed.


(** A diff whose key is in the cache file is not sent to the agent. *)
Lemma cached_not_researched (w : World) (d : diff) (t : string) :
  load_cache (w_cache_file w) !! key_of d = Some t ->
  transition d ∉ researched (r_trace (main w)).
Proof.
  intros H.
  destruct (main_shapes w) as [(-> & _) | [(c & ds & _ & _ & _ & -> & _) |
                                           (c & ds & _ & _ & -> & _)]].
  - intros Hin. inversion Hin.
  - intros Hin. inversion Hin.
  - rewrite researched_researched.
    intros [d' [Heq Hd']]%list_elem_of_fmap.
    apply to_research_spec in Hd' as [_ Hd'].
    assert (key_of d = key_of d') as Hk.
    { unfold key_of. unfold transition in Heq. now injection Heq as -> -> ->. }
    congruence.
Qed.

(** A surviving diff whose key is in the cache is reported with the
    cached text. *)
Lemma cached_reported (w : World) (checked : nat) (diffs : list diff) (d : diff)
    (t : string) :
  find_work w = inr (checked, diffs) ->
  d ∈ filter_redundant_types diffs ->
  load_cache (w_cache_file w) !! key_of d = Some t ->
  exists out, r_stdout (main w) = Some out /\ Result d t ∈ additionalContext out.
Proof.
  intros Hw Hd Ht.
  assert (Hhit : Result d t
                 ∈ cache_hits (load_cache (w_cache_file w)) (filter_redundant_types diffs)).
  { unfold cache_hits. rewrite split_cached_spec. simpl.
    apply list_elem_of_omap. exists d. split; [assumption|]. now rewrite Ht. }
  assert (Hne : diffs <> []).
  { intros ->. inversion Hd. }
  destruct (decide (to_research w diffs = [])) as [Hnone | Hsome].
  - unfold main. rewrite Hw. rewrite report_all_cached by assumption.
    eexists. split; [reflexivity|]. exact Hhit.
  - rewrite (main_researched w checked diffs Hw Hsome).
    eexists. split; [reflexivity|]. simpl. apply elem_of_app. now left.
Qed.

End CacheFile.



(** ** Research calls that fail *)

(** C3. For every diff sent to the agent.  When the call times out or
    cannot be run, the text [spawn_research] returns starts with an
    opening parenthesis; the result is part of the output; it is not in
    the cache the run saves, nor in the cache file after the run; and
    the next invocation on that cache file sends the same diff to the
    agent again.  When the call runs and fails with a non-zero exit
    status, the status is never read: the text is the output of the
    call, stripped, with no marker; unless that output happens to start
    with an opening parenthesis, the result is reported like research,
    saved in the cache under the diff's key, and, once the cache file is
    written, served from the cache by every later invocation, which does
    not send the diff to the agent again. *)
Theorem failed_research_cached_on_exit_status
    (w : World) (checked : nat) (diffs : list diff) (d : diff) :
  find_work w = inr (checked, diffs) ->
  d ∈ to_research w diffs ->
  (failed (outcome_of w d) ->
     startswith "(" (research (research_worker w d)) = true
     /\ (exists out, r_stdout (main w) = Some out
                     /\ research_worker w d ∈ additionalContext out)
     /\ (forall cache, cache ∈ saved (r_trace (main w)) -> cache !! key_of d = None)
     /\ load_cache (r_cache_file (main w)) !! key_of d = None
     /\ (forall agent schedule,
           transition d
           ∈ researched
               (r_trace
                  (main (next_invocation w (r_cache_file (main w)) agent schedule)))))
  /\ (forall returncode stdout,
        outcome_of w d = Completed returncode stdout ->
        returncode <> 0 ->
        startswith "(" (strip stdout) = false ->
        research (research_worker w d) = strip stdout
        /\ (exists out, r_stdout (main w) = Some out
                        /\ Result d (strip stdout) ∈ additionalContext out)
        /\ (forall cache, cache ∈ saved (r_trace (main w)) ->
              cache !! key_of d = Some (strip stdout))
        /\ (w_cache_writable w = true ->
            load_cache (r_cache_file (main w)) !! key_of d = Some (strip stdout)
            /\ forall agent schedule,
                 (transition d
                  ∉ researched
                      (r_trace
                         (main (next_invocation w (r_cache_file (main w))
                                  agent schedule))))
                 /\ exists out,
                      r_stdout
                        (main (next_invocation w (r_cache_file (main w))
                                 agent schedule)) = Some out
                      /\ Result d (strip stdout) ∈ additionalContext out)).
Proof.
  intros Hw Hd.
  pose proof (find_work_nodup _ _ _ Hw) as Hnd.
  pose proof (main_researched w checked diffs Hw (elem_not_nil _ _ Hd)) as Hmain.
  assert (Hout : exists out, r_stdout (main w) = Some out
                             /\ research_worker w d ∈ additionalContext out).
  { rewrite Hmain. simpl. eexists. split; [reflexivity|]. simpl.
    apply elem_of_app. right. rewrite fresh_results_perm.
    now apply list_elem_of_fmap_2. }
  split.
  - intros Hfail. pose proof (failed_marker w d Hfail) as Hmark.
    assert (Hafter : cache_after w diffs !! key_of d = None).
    { rewrite cache_after_lookup by assumption.
      rewrite decide_False; [reflexivity|]. unfold genuine. now rewrite Hmark. }
    assert (Hfile : load_cache (r_cache_file (main w)) !! key_of d = None).
    { rewrite Hmain. simpl. unfold save_cache.
      destruct (w_cache_writable w); [exact Hafter|].
      now apply to_research_spec in Hd. }
    split; [exact Hmark|]. split; [exact Hout|]. split; [|split].
    + rewrite Hmain. simpl r_trace. rewrite saved_researched.
      intros cache ->%list_elem_of_singleton. exact Hafter.
    + exact Hfile.
    + intros agent schedule.
      set (w' := next_invocation w (r_cache_file (main w)) agent schedule).
      assert (Hd' : d ∈ to_research w' diffs).
      { apply to_research_spec. split; [|exact Hfile]. now apply to_research_spec in Hd. }
      rewrite (main_researched w' checked diffs);
        [|rewrite <- Hw; apply find_work_next|].
      * simpl r_trace. rewrite researched_researched. now apply list_elem_of_fmap_2.
      * now apply elem_not_nil in Hd'.
  - intros returncode stdout Hrun _ Hplain.
    assert (Htext : research (research_worker w d) = strip stdout).
    { unfold research_worker, spawn_research. simpl.
      unfold outcome_of in Hrun. now rewrite Hrun. }
    assert (Hworker : research_worker w d = Result d (strip stdout)).
    { unfold research_worker. f_equal. exact Htext. }
    assert (Hafter : cache_after w diffs !! key_of d = Some (strip stdout)).
    { rewrite cache_after_lookup by assumption. rewrite decide_True.
      - now rewrite Htext.
      - unfold genuine. now rewrite Htext. }
    split; [exact Htext|]. split; [now rewrite <- Hworker|]. split.
    + rewrite Hmain. simpl r_trace. rewrite saved_researched.
      intros cache ->%list_elem_of_singleton. exact Hafter.
    + intros Hwritable.
      assert (Hfile : load_cache (r_cache_file (main w)) !! key_of d
                      = Some (strip stdout)).
      { rewrite Hmain. simpl. now rewrite Hwritable. }
      split; [exact Hfile|]. intros agent schedule. split.
      * now apply (cached_not_researched _ d (strip stdout)).
      * apply (cached_reported _ checked diffs d (strip stdout)).
        -- rewrite <- Hw. apply find_work_next.
        -- now apply to_research_spec in Hd.
        -- exact Hfile.
Qed.

Lemma failed_research_witness :
  load_cache
    (r_cache_file (main (Sample.world (Sample.event "npm install") None)))
  !! "@types/node:18->20" = Some "".
Proof.
  apply (proj2 (failed_research_cached_on_exit_status
                  (Sample.world (Sample.event "npm install") None) 5
                  [Sample.react; Sample.lodash;
                   Diff "@types/react" "^16.9.0" 16 "18.0.1" 18;
                   Diff "@types/node" "^18.0.0" 18 "20.1.0" 20]
                  (Diff "@types/node" "^18.0.0" 18 "20.1.0" 20)
                  ltac:(vm_compute; reflexivity)
                  ltac:(apply (bool_decide_unpack _); vm_compute; exact I))
           1 "" eq_refl ltac:(discriminate) eq_refl);
    reflexivity.
Defined.

(** C5. For every key and research text: a lookup right after the store
    returns the text; after a save that goes through and a reload the key
    is still a hit with the same text; and an invocation that starts
    from the saved file does not send a diff with that key to the agent,
    but reports it with the stored text. *)
Theorem cache_round_trip (key text : string) (cache : gmap string string)
    (file : option (gmap string string)) :
  (<[key := text]> cache) !! key = Some text
  /\ load_cache (save_cache true (<[key := text]> cache) file) !! key = Some text
  /\ (forall w d,
        w_cache_file w = save_cache true (<[key := text]> cache) file ->
        key_of d = key ->
        (transition d ∉ researched (r_trace (main w)))
        /\ (forall checked diffs,
              find_work w = inr (checked, diffs) ->
              d ∈ filter_redundant_types diffs ->
              exists out, r_stdout (main w) = Some out
                          /\ Result d text ∈ additionalContext out)).
Proof.
  assert (Hstore : (<[key := text]> cache) !! key = Some text) by apply lookup_insert_eq.
  split; [exact Hstore|]. split; [exact Hstore|].
  intros w d Hfile <-.
  assert (Hhit : load_cache (w_cache_file w) !! key_of d = Some text).
  { rewrite Hfile. exact Hstore. }
  split.
  - now apply (cached_not_researched w d text).
  - intros checked diffs Hw Hd. now apply (cached_reported w checked diffs d text).
Qed.

Lemma cache_round_trip_witness :
  transition Sample.react
  ∉ researched
      (r_trace
         (main (Sample.world (Sample.event "npm install react")
                  (save_cache true (<["react:17->18" := "- createRoot"]> ∅) None)))).
Proof.
  apply (proj1 (proj2 (proj2
           (cache_round_trip "react:17->18" "- createRoot" ∅ None))
           (Sample.world (Sample.event "npm install react")
              (save_cache true (<["react:17->18" := "- createRoot"]> ∅) None))
           Sample.react eq_refl eq_refl)).
Defined.

(** ** Cache file access *)

(** C8, as the code has it. In every invocation the cache file is read
    at most once and written at most once.  A run that ends before any
    diff is found neither reads nor writes it.  A run whose surviving
    diffs are all cache hits reads it once and does not write it.  Every
    other run reads it once, before the research calls, and writes it
    once, after them: the cache is saved whenever at least one diff was
    not in it, whether or not an entry was added, and the saved cache
    holds every entry that was loaded. *)
Theorem cache_file_access (w : World) :
  (loads (r_trace (main w)) <= 1)%nat
  /\ (length (saved (r_trace (main w))) <= 1)%nat
  /\ ((r_trace (main w) = []
       /\ r_cache_file (main w) = w_cache_file w
       /\ (forall checked diffs, find_work w = inr (checked, diffs) -> diffs = []))
      \/ (r_trace (main w) = [EvLoad]
          /\ r_cache_file (main w) = w_cache_file w
          /\ exists checked diffs,
               find_work w = inr (checked, diffs) /\ diffs <> []
               /\ to_research w diffs = [])
      \/ (exists checked diffs,
            find_work w = inr (checked, diffs)
            /\ to_research w diffs <> []
            /\ r_trace (main w)
               = EvLoad :: (research_event <$> to_research w diffs)
                   ++ [EvSave (cache_after w diffs)]
            /\ r_cache_file (main w)
               = save_cache (w_cache_writable w) (cache_after w diffs) (w_cache_file w)
            /\ load_cache (w_cache_file w) ⊆ cache_after w diffs)).
Proof.
  destruct (main_shapes w) as [(Ht & Hf & _ & Hd) | [(c & ds & Hw & Hne & Hnone & Ht & Hf) |
                                                (c & ds & Hw & Hsome & Ht & Hf)]].
  - rewrite Ht. split; [vm_compute; lia|]. split; [vm_compute; lia|]. left. auto.
  - rewrite Ht. split; [vm_compute; lia|]. split; [vm_compute; lia|].
    right. left. repeat split; try assumption. exists c, ds. auto.
  - rewrite Ht. rewrite loads_researched, saved_researched.
    split; [lia|]. split; [simpl; lia|].
    right. right. exists c, ds. repeat split; try assumption.
    apply map_subseteq_spec. intros k t Hk. now apply cache_after_keeps.
Qed.

(** Read exactly once and written only for a new entry: this fails
    twice.  A run that leaves at once never reads the cache file, and a
    run whose only research call times out saves the cache with nothing
    new in it, which creates the file that was missing. *)
Lemma read_once_written_when_new_fails :
  ~ read_once_written_when_new (Sample.world NotJson None)
  /\ ~ read_once_written_when_new
         (Sample.world (Sample.event "npm install lodash") None)
  /\ r_cache_file (main (Sample.world (Sample.event "npm install lodash") None))
     = Some ∅.
Proof.
  split; [|split].
  - intros (Hloads & _). vm_compute in Hloads. discriminate.
  - intros (_ & _ & Hnew & _).
    apply (Hnew ∅); [|reflexivity].
    replace (saved _) with [(∅ : gmap string string)] by (vm_compute; reflexivity).
    left.
  - vm_compute. reflexivity.
Qed.

(** ** Uncaught exceptions *)

(** The extractor raises nothing but the [ValueError] of [int]. *)
Lemma get_major_version_raises (version_str : string) (e : exn) :
  get_major_version version_str = inl e -> e = ValueError.
Proof.
  destruct (all_chars non_digit version_str) eqn:E.
  - now rewrite get_major_version_no_digit.
  - destruct (first_run_exists version_str E)
      as (pre & run & post & -> & Hpre & Hne & Hrun & Hpost).
    rewrite get_major_version_cut by assumption. unfold int_of_digits.
    destruct (_ <? _); [now intros [= <-] | discriminate].
Qed.

Lemma check_version_diff_raises (w : World) (pkg installed registry : string) (e : exn) :
  check_version_diff w pkg installed registry = inl e -> e = ValueError.
Proof.
  unfold check_version_diff.
  destruct (get_major_version installed) as [e'|[im|]] eqn:Hi.
  - intros [= <-]. now apply get_major_version_raises in Hi.
  - destruct (query_registry w registry pkg) as [[|c l]|]; try discriminate.
    destruct (get_major_version (String c l)) as [e'|[lm|]] eqn:Hl.
    + intros [= <-]. now apply get_major_version_raises in Hl.
    + now destruct (negb _).
    + discriminate.
  - discriminate.
Qed.

Lemma find_diffs_raises (w : World) (registry : string) (packages : odict) (e : exn) :
  find_diffs w registry packages = inl e -> e = ValueError.
Proof.
  induction packages as [|[pkg v] packages IH]; simpl; [discriminate|].
  destruct (check_version_diff w pkg v registry) as [e'|found] eqn:E.
  - intros [= <-]. now apply check_version_diff_raises in E.
  - destruct (find_diffs w registry packages) as [e'|diffs]; [|discriminate].
    intros [= <-]. now apply IH.
Qed.

Lemma packages_to_check_raises (w : World) (cwd command manager : string) (e : exn) :
  packages_to_check w cwd command manager = inl e -> e = OSError.
Proof.
  assert (Hj : forall dir, parse_package_json w dir = inl e -> e = OSError).
  { intros dir. unfold parse_package_json.
    destruct (w_package_json w dir) as [| |data]; [now intros [= <-] | discriminate |].
    now destruct (add_group data "dependencies" []). }
  assert (Hr : forall dir, parse_requirements_txt w dir = inl e -> e = OSError).
  { intros dir. unfold parse_requirements_txt.
    destruct (w_requirements_txt w dir); [now intros [= <-] | discriminate..]. }
  unfold packages_to_check.
  destruct (pip_requirements_file cwd command manager) as [f|].
  - destruct (String.eqb (registry_of manager) "npm"); [apply Hj|].
    destruct (parse_requirements_txt w (Path.dirname f)) eqn:E; [|discriminate].
    intros [= <-]. now apply Hr in E.
  - destruct (parse_command_packages command manager).
    + destruct (String.eqb (registry_of manager) "npm"); [apply Hj|].
      destruct (parse_requirements_txt w _) eqn:E; [|discriminate].
      intros [= <-]. now apply Hr in E.
    + destruct (String.eqb (registry_of manager) "npm").
      * destruct (parse_package_json w cwd) eqn:E; [|discriminate].
        intros [= <-]. now apply Hj in E.
      * destruct (parse_requirements_txt w cwd) eqn:E; [|discriminate].
        intros [= <-]. now apply Hr in E.
Qed.

(** How a run ends.  The exceptions that leave [main] come from the
    shape of the event (a document that is not an object, a [tool_input]
    that is not an object, a command that is not a string), from
    [Path.exists] in a manifest reader, and from [int] in the version
    extractor. *)
Lemma main_status (w : World) :
  match read_event (w_stdin w) with
  | Raise e => r_status (main w) = Uncaught e
  | Leave => main w = quiet w (Exited 0)
  | Command _ =>
      r_status (main w) = Exited 0 \/ r_status (main w) = Exited 2
      \/ r_status (main w) = Uncaught OSError
      \/ r_status (main w) = Uncaught ValueError
  end.
Proof.
  unfold main, find_work.
  destruct (read_event (w_stdin w)); try reflexivity.
  destruct (resolve_cd w command) as [cwd command'].
  destruct (detect_manager command') as [manager|]; [|now left].
  destruct (packages_to_check w cwd command' manager) as [e|[|pv packages]] eqn:Hp.
  - apply packages_to_check_raises in Hp as ->. right. right. now left.
  - now left.
  - destruct (find_diffs w (registry_of manager) (pv :: packages)) as [e|diffs] eqn:Hd.
    + apply find_diffs_raises in Hd as ->. right. right. now right.
    + unfold report. destruct diffs; [now left|].
      destruct (split_cached _ _) as [cached uncached].
      destruct uncached; [right; now left|].
      destruct (dispatch _ _ _). right. now left.
Qed.


(** C4, where the code departs from it. An event that decodes to a JSON
    value other than an object makes [main] end with an [AttributeError]
    that nothing catches: the handler around the decoding only catches
    the decoding error. *)
Theorem main_raises_on_non_object_event (w : World) (v : json) :
  w_stdin w = Json v ->
  (forall members, v <> JObj members) ->
  r_status (main w) = Uncaught AttributeError.
Proof.
  intros H Hv. pose proof (main_status w) as Hs. unfold read_event in Hs.
  rewrite H in Hs. destruct v; try exact Hs. now destruct (Hv members).
Qed.

Lemma main_raises_witness :
  r_status (main (Sample.world (Json (JArr [])) None)) = Uncaught AttributeError.
Proof.
  apply (main_raises_on_non_object_event (Sample.world (Json (JArr [])) None) (JArr []));
    [reflexivity | discriminate].
Defined.

(** ** Command Interpreter: explicit packages *)

Section Tokens.

Lemma all_chars_snoc (p : ascii -> bool) (s : string) (c : ascii) :
  all_chars p (snoc s c) = all_chars p s && p c.
Proof. unfold snoc. rewrite all_chars_app. simpl. now rewrite andb_true_r. Qed.

Lemma snoc_nonempty (s : string) (c : ascii) : snoc s c <> "".
Proof. destruct s; discriminate. Qed.

(** The words [split] returns are not empty and hold no whitespace. *)
Lemma split_go_tokens (s cur : string) :
  all_chars not_space cur = true ->
  Forall (fun t => t <> "" /\ all_chars not_space t = true) (split_go cur s).
Proof.
  revert cur. induction s as [|c s IH]; intros cur Hcur; simpl.
  - destruct cur; constructor; [|constructor]. split; [discriminate | assumption].
  - destruct (is_space c) eqn:Hc.
    + destruct cur.
      * now apply IH.
      * constructor; [split; [discriminate | assumption] | now apply IH].
    + apply IH. rewrite all_chars_snoc, Hcur. unfold not_space. now rewrite Hc.
Qed.

Lemma split_tokens (s : string) :
  Forall (fun t => t <> "" /\ all_chars not_space t = true) (split s).
Proof. now apply split_go_tokens. Qed.

Lemma not_space_is_dot (c : ascii) : not_space c = true -> is_dot c = true.
Proof.
  unfold not_space, is_dot, is_char. destruct (ascii_dec "010" c) as [<- |]; auto.
Qed.

End Tokens.

Section Specifier.

(** At a character that opens no specifier the pattern does not match. *)
Lemma specifier_attempt_miss (adv : bool) (prev : option ascii) (s : string) :
  head_is is_specifier s = false ->
  attempt adv re_specifier prev s = None.
Proof.
  intros H. unfold attempt, re_specifier. simpl.
  destruct s as [|c s]; [reflexivity|]. simpl in H. now rewrite H.
Qed.

(** Greedy repetition over a text made of the class alone. *)
Lemma rep_greedy_all {R} (p : ascii -> bool) (s : string) (prev : option ascii)
    (k : option ascii -> string -> option R) (x : R) :
  all_chars p s = true ->
  k (last_of prev s) "" = Some x ->
  rep_greedy p prev s k = Some x.
Proof.
  intros Hs Hk. rewrite <- (app_empty_r s).
  now apply rep_greedy_longest.
Qed.

(** At a specifier character, in a text without line feeds, the pattern
    matches up to the end. *)
Lemma specifier_attempt_hit (prev : option ascii) (c : ascii) (s : string) :
  is_specifier c = true ->
  all_chars is_dot s = true ->
  exists st', attempt false re_specifier prev (String c s) = Some st'
              /\ ms_rest st' = "".
Proof.
  intros Hc Hs. unfold attempt, re_specifier. simpl. rewrite Hc.
  (* cut [s] into its leading specifier characters and the rest *)
  assert (Hcut : exists run post, s = run +:+ post
                                  /\ all_chars is_specifier run = true
                                  /\ head_is is_specifier post = false
                                  /\ all_chars is_dot post = true).
  { clear Hc. induction s as [|a s IH].
    - exists "", "". repeat split.
    - simpl in Hs. apply andb_true_iff in Hs as [Ha Hs].
      destruct (is_specifier a) eqn:Ea.
      + destruct (IH Hs) as (run & post & -> & Hr & Hp & Hd).
        exists (String a run), post. simpl. rewrite Ea, Hr. repeat split; assumption.
      + exists "", (String a s). simpl. rewrite Ea, Ha, Hs. repeat split. }
  destruct Hcut as (run & post & -> & Hr & Hp & Hd).
  eexists. split.
  - apply rep_greedy_longest; [exact Hr | exact Hp |].
    simpl. apply rep_greedy_all; [exact Hd|]. simpl. reflexivity.
  - reflexivity.
Qed.

Lemma sub_specifier (fuel : nat) (prev : option ascii) (token : string) :
  all_chars is_dot token = true ->
  (String.length token + 2 <= fuel)%nat ->
  sub_loop fuel re_specifier "" prev token false = bare_name token.
Proof.
  revert fuel prev. induction token as [|c token IH]; intros fuel prev Hdot Hfuel.
  - destruct fuel; [simpl in Hfuel; lia|]. reflexivity.
  - destruct fuel as [|fuel]; [simpl in Hfuel; lia|].
    simpl in Hdot. apply andb_true_iff in Hdot as [_ Hdot].
    cbn [sub_loop bare_name].
    destruct (is_specifier c) eqn:Hc.
    + destruct (specifier_attempt_hit prev c token Hc Hdot) as (st' & -> & Hrest).
      rewrite Hrest. simpl.
      destruct fuel as [|fuel]; [simpl in Hfuel; lia|]. reflexivity.
    + rewrite specifier_attempt_miss by (simpl; exact Hc).
      f_equal. apply IH; [exact Hdot | simpl in Hfuel; lia].
Qed.

Lemma re_sub_specifier (token : string) :
  all_chars not_space token = true ->
  re_sub re_specifier "" token = bare_name token.
Proof.
  intros H. unfold re_sub. apply sub_specifier; [|lia].
  revert H. apply all_chars_impl. exact not_space_is_dot.
Qed.

Lemma package_of_token_spec (token : string) :
  token <> "" ->
  all_chars not_space token = true ->
  package_of_token token
  = if is_flag_token token then None
    else match bare_name token with
         | EmptyString => None
         | name => Some name
         end.
Proof.
  intros Hne Hns. unfold package_of_token, is_flag_token.
  destruct token; [contradiction|].
  destruct (startswith "-" _); [reflexivity|].
  now rewrite re_sub_specifier.
Qed.

End Specifier.

Section Prefix.

Lemma last_of_some (c : ascii) (s : string) : exists c', last_of (Some c) s = Some c'.
Proof. revert c. induction s as [|a s IH]; intros c; simpl; eauto. Qed.

Lemma last_of_app (prev : option ascii) (a b : string) :
  last_of prev (a +:+ b) = last_of (last_of prev a) b.
Proof. revert prev. induction a as [|c a IH]; intros prev; simpl; auto. Qed.

(** A literal word matches exactly where the text starts with it. *)
Lemma run_lit {R} (s t : string) (prev : option ascii) (caps : list (nat * string))
    (k : mstate -> option R) :
  sre_match (Lit s) (MState prev (s +:+ t) caps) k = k (MState (last_of prev s) t caps).
Proof.
  revert prev. induction s as [|c s IH]; intros prev; simpl; [reflexivity|].
  unfold is_char. destruct (ascii_dec c c); [|contradiction]. apply IH.
Qed.

(** Leading whitespace, cut off. *)
Lemma lstrip_cut (s : string) :
  exists ws, s = ws +:+ lstrip s
             /\ all_chars is_space ws = true
             /\ head_is is_space (lstrip s) = false.
Proof.
  induction s as [|c s (ws & Hs & Hws & Hhead)]; simpl.
  - exists "". repeat split.
  - destruct (is_space c) eqn:Hc.
    + exists (String c ws). simpl. rewrite Hc, Hws. rewrite <- Hs. repeat split.
      assumption.
    + exists "". simpl. rewrite Hc. repeat split.
Qed.

(** Once past the start of the subject an anchored pattern never
    matches: the rest is copied as it is. *)
Lemma sub_anchored_rest (r : regex) (repl : string) (s : string) (c : ascii)
    (fuel : nat) (adv : bool) :
  (String.length s + 1 <= fuel)%nat ->
  sub_loop fuel (Cat Bol r) repl (Some c) s adv = s.
Proof.
  revert c fuel adv. induction s as [|a s IH]; intros c fuel adv Hfuel.
  - destruct fuel; [simpl in Hfuel; lia|]. reflexivity.
  - destruct fuel as [|fuel]; [simpl in Hfuel; lia|].
    cbn [sub_loop]. unfold attempt at 1. cbn [sre_match ms_prev].
    f_equal. apply IH. simpl in Hfuel. lia.
Qed.

(** An anchored pattern is replaced once, at the start. *)
Lemma sub_anchored (r : regex) (repl : string) (s : string) (st' : mstate) (c : ascii) :
  attempt false (Cat Bol r) None s = Some st' ->
  ms_prev st' = Some c ->
  (String.length (ms_rest st') < String.length s)%nat ->
  re_sub (Cat Bol r) repl s = repl +:+ ms_rest st'.
Proof.
  intros Hatt Hprev Hlen. unfold re_sub.
  replace (2 * String.length s + 2)%nat with (S (2 * String.length s + 1)) by lia.
  cbn [sub_loop]. rewrite Hatt, Hprev. f_equal.
  apply sub_anchored_rest. lia.
Qed.

Lemma takes_lit (word tail : string) : takes (Lit word) word tail.
Proof. intros R pv caps k Hk. exists caps. apply run_lit. Qed.

Lemma takes_group (n : nat) (a : regex) (word tail : string) :
  takes a word tail -> takes (Group n a) word tail.
Proof.
  intros Ha R pv caps k Hk. cbn [sre_match].
  destruct (Ha R pv caps
              (fun st' => k (MState (ms_prev st') (ms_rest st')
                               ((n, consumed (ms_rest (MState pv (word +:+ tail) caps))
                                      (ms_rest st')) :: ms_caps st'))))
    as [caps' Hrun].
  - intros caps'. apply Hk.
  - rewrite Hrun. eexists. reflexivity.
Qed.

Lemma space_not_letter (c x : ascii) :
  is_space c = true -> is_space x = false -> is_char x c = false.
Proof.
  intros Hc Hx. unfold is_char. destruct (ascii_dec x c) as [-> |]; congruence.
Qed.

Lemma takes_npm (sub tail : string) :
  sub = "install" \/ sub = "i" \/ sub = "add" ->
  word_ends tail ->
  takes (Alt (Lit "install") (Alt (Lit "i") (Lit "add"))) sub tail.
Proof.
  intros Hsub Hend R pv caps k Hk. exists caps.
  destruct Hsub as [-> | [-> | ->]].
  - cbn [sre_match]. rewrite (run_lit "install").
    destruct (k _) eqn:E; [reflexivity | now apply Hk in E].
  - cbn [sre_match].
    replace (sre_match (Lit "install") _ _) with (@None R).
    + rewrite (run_lit "i"). destruct (k _) eqn:E; [reflexivity | now apply Hk in E].
    + destruct Hend as [-> | Hhead]; [reflexivity|].
      destruct tail as [|c tail]; [discriminate|]. simpl in Hhead.
      simpl. now rewrite (space_not_letter c "n" Hhead eq_refl).
  - cbn [sre_match]. simpl (sre_match (Lit "install") _ _).
    simpl (sre_match (Lit "i") _ _). apply (run_lit "add").
Qed.

Lemma takes_add_install (sub tail : string) :
  sub = "add" \/ sub = "install" ->
  takes (Alt (Lit "add") (Lit "install")) sub tail.
Proof.
  intros Hsub R pv caps k Hk. exists caps.
  destruct Hsub as [-> | ->].
  - cbn [sre_match]. rewrite (run_lit "add").
    destruct (k _) eqn:E; [reflexivity | now apply Hk in E].
  - cbn [sre_match]. simpl (sre_match (Lit "add") _ _). apply (run_lit "install").
Qed.

(** The shape shared by the five prefix patterns, on a command that
    starts with the manager, whitespace and the subcommand: the match
    ends where the whitespace after the subcommand ends. *)
Lemma prefix_attempt (m sub ws tail : string) (a : regex) :
  sub <> "" ->
  head_is is_space sub = false ->
  ws <> "" -> all_chars is_space ws = true ->
  takes a sub tail ->
  exists st' c,
    attempt false (Cat Bol (Cat (Lit m) (Cat ws1 (Cat a ws0)))) None
      (m +:+ ws +:+ sub +:+ tail) = Some st'
    /\ ms_rest st' = lstrip tail
    /\ ms_prev st' = Some c.
Proof.
  intros Hsub Hhead Hws Hspace Ha.
  destruct ws as [|w ws]; [contradiction|].
  simpl in Hspace. apply andb_true_iff in Hspace as [Hw Hspace].
  destruct sub as [|s0 sub]; [contradiction|]. simpl in Hhead.
  destruct (lstrip_cut tail) as (ws' & Htail & Hws' & Hrest).
  set (pv := last_of (last_of (Some w) ws) (String s0 sub)).
  assert (HK : forall caps',
             sre_match ws0 (MState pv tail caps') (fun st' => Some st')
             = Some (MState (last_of pv ws') (lstrip tail) caps')).
  { intros caps'. unfold ws0. cbn [sre_match ms_prev ms_rest ms_caps].
    rewrite Htail at 1.
    apply rep_greedy_longest; [exact Hws' | exact Hrest | reflexivity]. }
  destruct (Ha _ (last_of (Some w) ws) []
              (fun st'0 => sre_match ws0 st'0 (fun st' => Some st')))
    as [caps' Hrun].
  { intros caps'. fold pv. rewrite HK. discriminate. }
  fold pv in Hrun. rewrite HK in Hrun.
  assert (exists c, last_of pv ws' = Some c) as [c Hc].
  { unfold pv. simpl. destruct (last_of_some s0 sub) as [c1 ->].
    destruct ws' as [|x ws']; simpl; [eauto|]. apply last_of_some. }
  exists (MState (last_of pv ws') (lstrip tail) caps'), c.
  split; [|split; [reflexivity | exact Hc]].
  unfold attempt. cbn [sre_match ms_prev andb].
  rewrite run_lit. unfold ws1 at 1. cbn [sre_match ms_rest ms_caps].
  change (String w ws +:+ ?t) with (String w (ws +:+ t)). cbv iota. rewrite Hw.
  apply rep_greedy_longest; [exact Hspace | simpl; exact Hhead | exact Hrun].
Qed.

Lemma lstrip_length (s : string) : (String.length (lstrip s) <= String.length s)%nat.
Proof.
  induction s as [|c s IH]; simpl; [lia|]. destruct (is_space c); simpl; lia.
Qed.

Lemma strip_prefix_pattern (m sub ws tail : string) (a : regex) :
  sub <> "" ->
  head_is is_space sub = false ->
  ws <> "" -> all_chars is_space ws = true ->
  takes a sub tail ->
  re_sub (Cat Bol (Cat (Lit m) (Cat ws1 (Cat a ws0)))) "" (m +:+ ws +:+ sub +:+ tail)
  = lstrip tail.
Proof.
  intros Hsub Hhead Hws Hspace Ha.
  destruct (prefix_attempt m sub ws tail a Hsub Hhead Hws Hspace Ha)
    as (st' & c & Hatt & Hrest & Hprev).
  rewrite (sub_anchored _ "" _ st' c Hatt Hprev).
  - now rewrite Hrest.
  - rewrite Hrest, !string_length_app. pose proof (lstrip_length tail).
    destruct ws; [contradiction|]. simpl. lia.
Qed.

(** A command that starts with the manager, whitespace and one of its
    install subcommands, followed by whitespace or nothing, loses
    exactly that prefix and the whitespace after it. *)
Lemma without_prefix_strips (manager sub ws tail : string) :
  (manager, sub) ∈ subcommands ->
  ws <> "" -> all_chars is_space ws = true ->
  word_ends tail ->
  without_prefix (manager +:+ ws +:+ sub +:+ tail) manager = lstrip tail.
Proof.
  intros Hin Hws Hspace Hend. unfold without_prefix, subcommands in *.
  repeat (apply elem_of_cons in Hin as [[= -> ->] | Hin]);
    [.. | inversion Hin];
    cbn [table_get prefix_patterns String.eqb Ascii.eqb Bool.eqb];
    apply strip_prefix_pattern; try assumption; try discriminate; try reflexivity;
    try (apply takes_lit);
    try (apply takes_group; apply takes_npm; auto);
    try (apply takes_group; apply takes_add_install; auto).
Qed.

End Prefix.

Section Flags.

Lemma space_not_word (c : ascii) : is_space c = true -> is_word c = false.
Proof.
  destruct c as [[] [] [] [] [] [] [] []]; vm_compute; intros H;
    first [reflexivity | discriminate H].
Qed.

Lemma word_not_dash (c : ascii) : is_word c = true -> is_char "-" c = false.
Proof.
  unfold is_char. destruct (ascii_dec "-" c) as [<- |]; [|reflexivity].
  vm_compute. discriminate.
Qed.

(** The matcher, one construct at a time. *)
Lemma match_cat {R} (a b : regex) (st : mstate) (k : mstate -> option R) :
  sre_match (Cat a b) st k = sre_match a st (fun st' => sre_match b st' k).
Proof. reflexivity. Qed.

Lemma match_opt {R} (a : regex) (st : mstate) (k : mstate -> option R) :
  sre_match (Opt a) st k
  = match sre_match a st k with Some x => Some x | None => k st end.
Proof. reflexivity. Qed.

Lemma match_chr {R} (p : ascii -> bool) (pv : option ascii) (c : ascii) (t : string)
    (caps : list (nat * string)) (k : mstate -> option R) :
  p c = true ->
  sre_match (Chr p) (MState pv (String c t) caps) k = k (MState (Some c) t caps).
Proof. intros H. simpl. now rewrite H. Qed.

Lemma match_chr_miss {R} (p : ascii -> bool) (pv : option ascii) (s : string)
    (caps : list (nat * string)) (k : mstate -> option R) :
  head_is p s = false ->
  sre_match (Chr p) (MState pv s caps) k = None.
Proof. intros H. destruct s; simpl in *; [reflexivity | now rewrite H]. Qed.

Lemma match_plus {R} (p : ascii -> bool) (pv : option ascii) (c : ascii) (t : string)
    (caps : list (nat * string)) (k : mstate -> option R) :
  p c = true ->
  sre_match (Plus p) (MState pv (String c t) caps) k
  = rep_greedy p (Some c) t (fun pv' s => k (MState pv' s caps)).
Proof. intros H. simpl. now rewrite H. Qed.

(** A repetition made of the class alone, whose continuation refuses
    every text made of the class alone, fails. *)
Lemma rep_greedy_refused {R} (p : ascii -> bool) (s : string) (prev : option ascii)
    (k : option ascii -> string -> option R) :
  all_chars p s = true ->
  (forall pv t, all_chars p t = true -> k pv t = None) ->
  rep_greedy p prev s k = None.
Proof.
  intros Hs Hk. revert prev. induction s as [|c s IH]; intros prev; simpl.
  - now apply Hk.
  - simpl in Hs. apply andb_true_iff in Hs as [Hc Hs]. rewrite Hc.
    rewrite IH by assumption. apply Hk. simpl. now rewrite Hc, Hs.
Qed.

(** The optional group of the flag pattern, on a text with no argument. *)
Lemma flag_group_skipped (prev : option ascii) (post : string)
    (caps : list (nat * string)) :
  no_argument post ->
  sre_match (Opt (Group 1 (Cat ws1 (Plus not_space)))) (MState prev post caps)
    (fun st' => Some st')
  = Some (MState prev post caps).
Proof.
  intros Hpost. cbn [sre_match ms_rest ms_prev ms_caps]. unfold ws1. cbn [sre_match ms_rest].
  destruct post as [|c post]; [reflexivity|].
  destruct Hpost as [Hsp | [Hsp _]]; simpl in Hsp.
  - apply andb_true_iff in Hsp as [Hc Hsp]. rewrite Hc.
    rewrite rep_greedy_refused; [reflexivity | exact Hsp |].
    intros pv t Ht. cbn [sre_match ms_rest].
    destruct t as [|x t]; [reflexivity|]. simpl in Ht.
    apply andb_true_iff in Ht as [Hx _]. unfold not_space. now rewrite Hx.
  - now rewrite Hsp.
Qed.

(** The optional group of the flag pattern, on whitespace and a word. *)
Lemma flag_group_taken (prev : option ascii) (ws2 arg post : string)
    (caps : list (nat * string)) :
  ws2 <> "" -> all_chars is_space ws2 = true ->
  arg <> "" -> all_chars not_space arg = true ->
  head_is not_space post = false ->
  exists st',
    sre_match (Opt (Group 1 (Cat ws1 (Plus not_space))))
      (MState prev (ws2 +:+ arg +:+ post) caps) (fun st' => Some st')
    = Some st'
    /\ ms_rest st' = post.
Proof.
  intros Hne2 Hws2 Hnea Harg Hpost.
  destruct ws2 as [|w ws2]; [contradiction|]. destruct arg as [|a arg]; [contradiction|].
  simpl in Hws2, Harg.
  apply andb_true_iff in Hws2 as [Hw Hws2]. apply andb_true_iff in Harg as [Ha Harg].
  exists (MState (last_of (Some a) arg) post
            ((1%nat, consumed (String w ws2 +:+ String a arg +:+ post) post) :: caps)).
  split; [|reflexivity].
  cbn [sre_match ms_rest ms_prev ms_caps]. unfold ws1. cbn [sre_match ms_rest ms_caps].
  change (String w ws2 +:+ ?t) with (String w (ws2 +:+ t)). cbv iota. rewrite Hw.
  erewrite rep_greedy_longest; [reflexivity | exact Hws2 | | ].
  - simpl. unfold not_space in Ha. now apply negb_true_iff in Ha.
  - cbn [sre_match ms_rest ms_caps ms_prev].
    change (String a arg +:+ ?t) with (String a (arg +:+ t)). cbv iota. rewrite Ha.
    apply rep_greedy_longest; [exact Harg | exact Hpost | reflexivity].
Qed.

(** One match of the flag pattern: the whitespace before the flag, one
    or two dashes and the run of word characters after them, together
    with [taken], which the optional group reads. *)
Lemma flag_attempt (prev : option ascii) (ws dashes word rest : string)
    (st' : mstate) :
  ws <> "" -> all_chars is_space ws = true ->
  dashes = "-" \/ dashes = "--" ->
  word <> "" -> all_chars is_word word = true ->
  head_is is_word rest = false ->
  (forall pv caps,
      exists st'', sre_match (Opt (Group 1 (Cat ws1 (Plus not_space))))
                     (MState pv rest caps) (fun st' => Some st') = Some st''
                   /\ ms_rest st'' = ms_rest st') ->
  exists st'',
    attempt false re_flag prev (ws +:+ dashes +:+ word +:+ rest) = Some st''
    /\ ms_rest st'' = ms_rest st'.
Proof.
  intros Hnews Hws Hdash Hnew Hword Hrest Hgroup.
  destruct ws as [|w ws]; [contradiction|]. simpl in Hws.
  apply andb_true_iff in Hws as [Hw Hws].
  destruct word as [|o word]; [contradiction|]. simpl in Hword.
  apply andb_true_iff in Hword as [Ho Hword].
  destruct (Hgroup (last_of (Some o) word) []) as (st'' & Hst & Hrest'').
  exists st''. split; [|exact Hrest''].
  assert (Hword_run :
            forall pv,
              sre_match (Cat (Plus is_word)
                           (Opt (Group 1 (Cat ws1 (Plus not_space)))))
                (MState pv (String o word +:+ rest) []) (fun st' => Some st')
              = Some st'').
  { intros pv. rewrite match_cat.
    change (String o word +:+ ?t) with (String o (word +:+ t)).
    rewrite match_plus by exact Ho.
    apply rep_greedy_longest; [exact Hword | exact Hrest | exact Hst]. }
  unfold attempt, re_flag. cbn [andb]. rewrite match_cat. unfold ws1 at 1.
  change (String w ws +:+ ?t) with (String w (ws +:+ t)).
  rewrite match_plus by exact Hw.
  apply rep_greedy_longest; [exact Hws | destruct Hdash as [-> | ->]; reflexivity |].
  cbv beta. rewrite match_cat.
  destruct Hdash as [-> | ->].
  - change ("-" +:+ ?t) with (String "-" t).
    rewrite match_chr by reflexivity. rewrite match_cat, match_opt.
    change (String o word +:+ ?t) with (String o (word +:+ t)).
    rewrite match_chr_miss by (simpl; exact (word_not_dash o Ho)).
    change (String o (word +:+ rest)) with (String o word +:+ rest).
    apply (Hword_run (Some "-"%char)).
  - change ("--" +:+ ?t) with (String "-" (String "-" t)).
    rewrite match_chr by reflexivity. rewrite match_cat, match_opt.
    rewrite match_chr by reflexivity.
    now rewrite (Hword_run (Some "-"%char)).
Qed.

End Flags.

Section Anchor.

Lemma match_bol {R} (s : string) (caps : list (nat * string)) (k : mstate -> option R) :
  sre_match Bol (MState None s caps) k = k (MState None s caps).
Proof. reflexivity. Qed.

(** A literal word does not match a text that does not start with it. *)
Lemma match_lit_miss {R} (word s : string) (pv : option ascii)
    (caps : list (nat * string)) (k : mstate -> option R) :
  startswith word s = false ->
  sre_match (Lit word) (MState pv s caps) k = None.
Proof.
  revert s pv. induction word as [|a word IH]; intros s pv; [discriminate|].
  destruct s as [|b s]; [reflexivity|].
  cbn [startswith Lit]. rewrite match_cat. cbn [sre_match ms_rest ms_caps].
  unfold is_char. destruct (ascii_dec a b); [apply IH | reflexivity].
Qed.

(** An anchored pattern whose first attempt fails changes nothing. *)
Lemma sub_anchored_miss (r : regex) (repl : string) (s : string) :
  attempt false (Cat Bol r) None s = None ->
  re_sub (Cat Bol r) repl s = s.
Proof.
  intros Hatt. unfold re_sub.
  replace (2 * String.length s + 2)%nat with (S (2 * String.length s + 1)) by lia.
  cbn [sub_loop]. rewrite Hatt. destruct s as [|c s]; [reflexivity|].
  f_equal. apply sub_anchored_rest. simpl. lia.
Qed.

End Anchor.

Lemma packages_of_tokens (tokens : list string) :
  Forall (fun t => t <> "" /\ all_chars not_space t = true) tokens ->
  omap package_of_token tokens
  = filter (fun name => name <> "")
      (bare_name <$> filter (fun t => is_flag_token t = false) tokens).
Proof.
  induction 1 as [|t tokens [Hne Hns] _ IH]; [reflexivity|].
  cbn [omap list_omap]. rewrite package_of_token_spec by assumption.
  fold (omap package_of_token tokens). rewrite IH.
  destruct (is_flag_token t) eqn:Hflag.
  - rewrite filter_cons_False by congruence. reflexivity.
  - rewrite filter_cons_True by assumption. rewrite fmap_cons.
    destruct (bare_name t) eqn:Hname.
    + rewrite filter_cons_False by auto. reflexivity.
    + rewrite filter_cons_True by discriminate. reflexivity.
Qed.

Lemma bare_name_of_specifier (token : string) :
  head_is is_specifier token = true -> bare_name token = "".
Proof. destruct token as [|c t]; [discriminate|]. simpl. now intros ->. Qed.

Lemma prefix_kept (command manager : string) (pattern : regex) :
  (manager, pattern) ∈ prefix_patterns ->
  startswith manager command = false ->
  without_prefix command manager = command.
Proof.
  intros Hin Hstart. unfold without_prefix, prefix_patterns in *.
  repeat (apply elem_of_cons in Hin as [[= -> ->] | Hin]); [.. | inversion Hin];
    cbn [table_get String.eqb Ascii.eqb Bool.eqb];
    apply sub_anchored_miss; unfold attempt;
    rewrite match_cat, match_bol, match_cat; now apply match_lit_miss.
Qed.

(** C7. Where explicit-package extraction departs from its rule.  For
    every command, [parse_command_packages] removes the match of the
    manager's prefix pattern, turns each match of the flag pattern into a
    space, splits what is left on whitespace, discards the words that
    start with a dash, cuts each remaining word at its first
    [@ = < > ~ !], and drops the words of which nothing is left.  The cut
    is at the first such character, not at a trailing specifier: of a
    word that starts with one, such as the scoped name [@types/node],
    nothing is left, so the package is not extracted.  The prefix pattern
    matches at the start of the command only, while the detection of the
    manager finds the install command anywhere: in a recognized command
    that does not start with the manager's name nothing is stripped, and
    the words before the packages, manager and subcommand included, come
    out as package names. *)
Theorem parse_command_packages_slips :
  (forall command manager,
      parse_command_packages command manager
      = filter (fun name => name <> "")
          (bare_name <$>
             filter (fun token => is_flag_token token = false)
               (split (without_flags (without_prefix command manager)))))
  /\ (forall token, head_is is_specifier token = true -> bare_name token = "")
  /\ (forall command manager pattern,
        (manager, pattern) ∈ prefix_patterns ->
        startswith manager command = false ->
        without_prefix command manager = command)
  /\ (detect_manager "npm install @types/node" = Some "npm"
      /\ parse_command_packages "npm install @types/node" "npm" = [])
  /\ (detect_manager "sudo npm install foo" = Some "npm"
      /\ parse_command_packages "sudo npm install foo" "npm"
         = ["sudo"; "npm"; "install"; "foo"]).
Proof.
  split; [|split; [|split; [|split]]].
  - intros command manager.
    unfold parse_command_packages, without_flags, without_prefix.
    apply packages_of_tokens, split_tokens.
  - exact bare_name_of_specifier.
  - exact prefix_kept.
  - split; vm_compute; reflexivity.
  - split; vm_compute; reflexivity.
Qed.

(** ** Research Dispatcher: bounded concurrency *)

Section PoolFacts.
Import Pool.
Context (w : World).














End PoolFacts.

Section PoolRuns.
Import Pool.
Context (w : World).



End PoolRuns.


(** * Further properties of the stages *)

(** ** Version Extractor: the major is never negative *)

Section Major.

Lemma digit_value_nonneg (c : ascii) : is_digit c = true -> 0 <= digit_value c <= 9.
Proof.
  unfold is_digit, in_range, digit_value. intros H.
  apply andb_true_iff in H as [H1 H2].
  apply N.leb_le in H1. apply N.leb_le in H2. lia.
Qed.

Lemma int_acc_nonneg (s : string) (acc : Z) :
  all_chars is_digit s = true -> 0 <= acc -> 0 <= int_acc acc s.
Proof.
  revert acc. induction s as [|c s IH]; intros acc Hs Hacc; simpl; [assumption|].
  simpl in Hs. apply andb_true_iff in Hs as [Hc Hs].
  apply IH; [assumption|]. pose proof (digit_value_nonneg c Hc). lia.
Qed.

End Major.

(** X1. Whatever major [get_major_version] extracts is a natural
    number: a sign before the digits is skipped like any other prefix,
    so ["-1.2"] has major 1. *)
Theorem get_major_version_nonneg (version_str : string) (major : Z) :
  get_major_version version_str = inr (Some major) -> 0 <= major.
Proof.
  intros H.
  destruct (all_chars non_digit version_str) eqn:E.
  - now rewrite get_major_version_no_digit in H.
  - destruct (first_run_exists version_str E)
      as (pre & run & post & -> & Hpre & Hne & Hrun & Hpost).
    rewrite get_major_version_cut in H by assumption.
    unfold int_of_digits in H. destruct (_ <? _); [discriminate|].
    injection H as <-. apply int_acc_nonneg; [assumption | lia].
Qed.

Lemma get_major_version_nonneg_witness :
  get_major_version "-1.2" = inr (Some 1) /\ 0 <= 1.
Proof.
  split; [reflexivity|].
  apply (get_major_version_nonneg "-1.2" 1). reflexivity.
Defined.

(** ** Cache keys tell transitions apart *)

(** X2. Two diffs have the same cache key exactly when they agree on the
    package and on both majors: the exact version strings play no part,
    and no two different transitions share a key. *)
Theorem key_of_same_transition (d d' : diff) :
  key_of d = key_of d'
  <-> package d = package d'
      /\ installed_major d = installed_major d'
      /\ latest_major d = latest_major d'.
Proof.
  unfold key_of. split.
  - apply cache_key_inj.
  - intros (-> & -> & ->). reflexivity.
Qed.

(** ** Redundant-Entry Filter: what stays and what goes *)

Section FilterMore.

Lemma no_base_no_redundant (diffs : list diff) :
  Forall (fun d => is_types (package d) = true) diffs ->
  filter_redundant_types diffs = diffs.
Proof.
  intros Hall. unfold filter_redundant_types.
  assert (Hbase : base_packages diffs = ∅).
  { unfold base_packages.
    replace (filter (fun d => is_types (package d) = false) diffs) with (@nil diff);
      [reflexivity|].
    symmetry. induction Hall as [|d diffs Hd _ IH]; [reflexivity|].
    rewrite filter_cons_False by congruence. exact IH. }
  rewrite Hbase. clear Hall Hbase.
  induction diffs as [|d diffs IH]; [reflexivity|].
  rewrite filter_cons_True.
  - f_equal. exact IH.
  - unfold redundant. rewrite bool_decide_eq_false_2 by set_solver.
    apply andb_false_r.
Qed.

(** Replacing the prefix pattern in a name that holds no further [@]. *)
Lemma replace_go_no_at (s : string) :
  all_chars (is_not "@") s = true ->
  replace_go "@types/" "" 0 s = s.
Proof.
  induction s as [|c s IH]; [reflexivity|].
  cbn [all_chars replace_go]. intros H. apply andb_true_iff in H as [Hc Hs].
  change (startswith "@types/" (String c s))
    with (if ascii_dec "@" c then startswith "types/" s else false).
  unfold is_not, is_char in Hc. destruct (ascii_dec "@" c) as [|Hne]; [discriminate|].
  now rewrite (IH Hs).
Qed.

Lemma replace_types_prefix (base : string) :
  all_chars (is_not "@") base = true ->
  replace "@types/" "" ("@types/" +:+ base) = base.
Proof.
  intros H. change (replace "@types/" "" ("@types/" +:+ base))
    with (replace_go "@types/" "" 0 base).
  now apply replace_go_no_at.
Qed.

End FilterMore.

(** X3. The filter never removes a diff of a base package, and it never
    empties a list: when every diff is a type-declaration shadow there
    is no base to be redundant with, and all of them stay. *)
Theorem filter_redundant_types_keeps (diffs : list diff) :
  (forall d, d ∈ diffs -> is_types (package d) = false ->
             d ∈ filter_redundant_types diffs)
  /\ (filter_redundant_types diffs = [] -> diffs = []).
Proof.
  split.
  - intros d Hd Hbase. unfold filter_redundant_types.
    apply list_elem_of_filter. split; [|assumption].
    now apply not_types_not_redundant.
  - intros Hempty.
    destruct (decide (Forall (fun d => is_types (package d) = true) diffs))
      as [Hall | Hsome].
    + now rewrite no_base_no_redundant in Hempty.
    + apply not_Forall_Exists in Hsome; [|intros d; apply _].
      apply Exists_exists in Hsome as (d & Hd & Hnot).
      assert (Hin : d ∈ filter_redundant_types diffs).
      { unfold filter_redundant_types. apply list_elem_of_filter.
        split; [|assumption]. apply not_types_not_redundant.
        now apply not_true_is_false. }
      rewrite Hempty in Hin. inversion Hin.
Qed.

(** X4. A shadow [@types/X] is dropped as soon as a diff of the package
    [X] is in the list, whatever the shadow's own versions are. *)
Theorem filter_redundant_types_drops_shadow (diffs : list diff) (shadow base : diff) :
  shadow ∈ diffs ->
  base ∈ diffs ->
  all_chars (is_not "@") (package base) = true ->
  package shadow = "@types/" +:+ package base ->
  shadow ∉ filter_redundant_types diffs.
Proof.
  intros Hs Hb Hplain Hname. unfold filter_redundant_types.
  rewrite list_elem_of_filter. intros [Hkeep _].
  unfold redundant in Hkeep. rewrite Hname in Hkeep.
  rewrite replace_types_prefix in Hkeep by assumption.
  assert (Htypes : is_types ("@types/" +:+ package base) = true) by reflexivity.
  rewrite Htypes in Hkeep. simpl in Hkeep.
  apply bool_decide_eq_false in Hkeep. apply Hkeep.
  unfold base_packages. apply elem_of_list_to_set.
  apply list_elem_of_fmap_2. apply list_elem_of_filter. split; [|assumption].
  destruct (package base) as [|c t]; [reflexivity|].
  simpl in Hplain. apply andb_true_iff in Hplain as [Hc _].
  unfold is_not, is_char in Hc. unfold is_types.
  change (startswith "@types/" (String c t))
    with (if ascii_dec "@" c then startswith "types/" t else false).
  destruct (ascii_dec "@" c); [discriminate | reflexivity].
Qed.

Lemma filter_redundant_types_drops_witness :
  Diff "@types/lodash" "^3.0.0" 3 "4.14.0" 4
  ∉ filter_redundant_types [Diff "@types/lodash" "^3.0.0" 3 "4.14.0" 4; Sample.lodash].
Proof.
  apply (filter_redundant_types_drops_shadow _ _ Sample.lodash).
  - left.
  - right. left.
  - reflexivity.
  - reflexivity.
Defined.

(** ** Insertion-ordered dicts *)

Section ODictFacts.
Context {V : Type}.

Lemma odict_get_set_eq (k : string) (v : V) (d : list (string * V)) :
  ODict.get k (ODict.set k v d) = Some v.
Proof.
  induction d as [|[k' v'] d IH]; simpl.
  - now rewrite String.eqb_refl.
  - destruct (String.eqb k' k) eqn:E; simpl; rewrite E; [reflexivity | exact IH].
Qed.

Lemma odict_get_set_ne (k k0 : string) (v : V) (d : list (string * V)) :
  k <> k0 -> ODict.get k0 (ODict.set k v d) = ODict.get k0 d.
Proof.
  intros Hne. induction d as [|[k' v'] d IH]; simpl.
  - apply String.eqb_neq in Hne. now rewrite Hne.
  - destruct (String.eqb k' k) eqn:E; simpl.
    + apply String.eqb_eq in E. subst k'.
      apply String.eqb_neq in Hne. now rewrite Hne.
    + destruct (String.eqb k' k0); [reflexivity | exact IH].
Qed.

Lemma odict_get_elem (k : string) (v : V) (d : list (string * V)) :
  ODict.get k d = Some v -> (k, v) ∈ d.
Proof.
  induction d as [|[k' v'] d IH]; simpl; [discriminate|].
  destruct (String.eqb_spec k' k) as [-> |].
  - intros [= ->]. left.
  - intros H. right. now apply IH.
Qed.

Lemma odict_elem_get (k : string) (v : V) (d : list (string * V)) :
  NoDup (fst <$> d) -> (k, v) ∈ d -> ODict.get k d = Some v.
Proof.
  induction d as [|[k' v'] d IH]; intros Hnd Hin; [inversion Hin|].
  rewrite fmap_cons in Hnd. apply NoDup_cons in Hnd as [Hfresh Hnd].
  simpl. apply elem_of_cons in Hin as [[= <- <-] | Hin].
  - now rewrite String.eqb_refl.
  - destruct (String.eqb_spec k' k) as [-> |]; [|now apply IH].
    exfalso. apply Hfresh. simpl.
    change k with (fst (k, v)). now apply list_elem_of_fmap_2.
Qed.

Lemma odict_get_none (k : string) (d : list (string * V)) :
  ODict.get k d = None <-> k ∉ fst <$> d.
Proof.
  induction d as [|[k' v'] d IH]; csimpl.
  - split; [intros _ H; inversion H | reflexivity].
  - destruct (String.eqb_spec k' k) as [-> |].
    + split; [discriminate | intros H; destruct H; left].
    + rewrite IH. rewrite not_elem_of_cons. split; [auto | tauto].
Qed.

(** Every entry of a dict after an assignment was there before or is
    the one assigned. *)
Lemma odict_set_elem (k k0 : string) (v v0 : V) (d : list (string * V)) :
  (k0, v0) ∈ ODict.set k v d -> (k0, v0) = (k, v) \/ (k0, v0) ∈ d.
Proof.
  induction d as [|[k' v'] d IH]; simpl.
  - intros H%list_elem_of_singleton. now left.
  - destruct (String.eqb_spec k' k) as [-> |].
    + intros [H | H]%elem_of_cons; [now left | right; now right].
    + intros [H | H]%elem_of_cons.
      * right. rewrite H. left.
      * destruct (IH H) as [? | ?]; [now left | right; now right].
Qed.

Lemma odict_of_pairs_nodup (l : list (string * V)) :
  NoDup (fst <$> ODict.of_pairs l).
Proof.
  unfold ODict.of_pairs. apply fold_set_nodup; [|constructor].
  intros d kv Hd. now apply odict_set_nodup.
Qed.

End ODictFacts.

(** ** Manifest Reader: the structured manifest *)

Section PackageJson.

Lemma add_deps_elem (items : list (string * json)) (packages : odict)
    (name version : string) :
  (name, version) ∈ fst (add_deps items packages) ->
  (name, version) ∈ packages
  \/ ((name, JStr version) ∈ items /\ skipped_reference version = false).
Proof.
  revert packages. induction items as [|[n v] items IH]; intros packages; simpl.
  - now left.
  - destruct v; try (now left).
    intros H. apply IH in H as [H | [H Hs]].
    + destruct (skipped_reference s) eqn:E; [now left|].
      apply odict_set_elem in H as [[= -> ->] | H]; [|now left].
      right. split; [left | exact E].
    + right. split; [now right | exact Hs].
Qed.

Lemma add_group_elem (data : json) (dep_type : string) (packages : odict)
    (name version : string) :
  (name, version) ∈ fst (add_group data dep_type packages) ->
  (name, version) ∈ packages \/ skipped_reference version = false.
Proof.
  unfold add_group.
  destruct (py_get data dep_type (JObj [])) as [e | []]; try (now left).
  intros H. apply add_deps_elem in H as [H | [_ H]]; [now left | now right].
Qed.

(** The loop over the entries of one group, when all versions are
    strings: what a name maps to afterwards. *)
Lemma add_deps_get (items : list (string * json)) (packages : odict) (name : string) :
  NoDup (fst <$> items) ->
  forallb (fun kv => is_string (snd kv)) items = true ->
  snd (add_deps items packages) = true
  /\ ODict.get name (fst (add_deps items packages))
     = match ODict.get name items with
       | Some (JStr version) =>
           if skipped_reference version then ODict.get name packages
           else Some version
       | _ => ODict.get name packages
       end.
Proof.
  revert packages. induction items as [|[n v] items IH]; intros packages Hnd Hall.
  - split; reflexivity.
  - rewrite fmap_cons in Hnd. apply NoDup_cons in Hnd as [Hfresh Hnd].
    simpl in Hall. apply andb_true_iff in Hall as [Hv Hall].
    destruct v; try discriminate. cbn [add_deps ODict.get].
    destruct (IH (if skipped_reference s then packages else ODict.set n s packages)
                Hnd Hall) as [Hok Hget].
    split; [exact Hok|]. rewrite Hget.
    destruct (String.eqb_spec n name) as [-> | Hne].
    + assert (Hnone : ODict.get name items = None) by now apply odict_get_none.
      rewrite Hnone. destruct (skipped_reference s); [reflexivity|].
      apply odict_get_set_eq.
    + destruct (skipped_reference s).
      * reflexivity.
      * rewrite odict_get_set_ne by assumption. reflexivity.
Qed.

(** The loop stops at the first version that is not a string. *)
Lemma add_deps_stops (pre post : list (string * json)) (name : string) (v : json)
    (packages : odict) :
  forallb (fun kv => is_string (snd kv)) pre = true ->
  is_string v = false ->
  add_deps (pre ++ (name, v) :: post) packages = (fst (add_deps pre packages), false).
Proof.
  revert packages. induction pre as [|[n x] pre IH]; intros packages Hpre Hv; simpl.
  - destruct v; try reflexivity. discriminate.
  - simpl in Hpre. apply andb_true_iff in Hpre as [Hx Hpre].
    destruct x; try discriminate. now apply IH.
Qed.

End PackageJson.

(** X5. No version the structured manifest gives is a workspace, file,
    git or github reference: such entries never reach the registry. *)
Theorem parse_package_json_published (w : World) (cwd name version : string)
    (packages : odict) :
  parse_package_json w cwd = inr packages ->
  (name, version) ∈ packages ->
  skipped_reference version = false.
Proof.
  unfold parse_package_json.
  destruct (w_package_json w cwd) as [| |data];
    [discriminate | intros [= <-] H; inversion H |].
  destruct (add_group data "dependencies" []) as [found ok] eqn:E1.
  assert (H1 : forall n v, (n, v) ∈ found -> skipped_reference v = false).
  { intros n v Hin. change found with (fst (found, ok)) in Hin.
    rewrite <- E1 in Hin. apply add_group_elem in Hin as [Hin | Hs];
      [inversion Hin | exact Hs]. }
  intros [= <-]. destruct ok; [|apply H1].
  intros Hin. apply add_group_elem in Hin as [Hin | Hs]; [now apply (H1 name) | exact Hs].
Qed.

Lemma parse_package_json_published_witness :
  exists packages,
    parse_package_json (Sample.world NotJson None) "/srv/app" = inr packages
    /\ ("react", "^17.0.2") ∈ packages
    /\ skipped_reference "^17.0.2" = false
    /\ ODict.get "local-lib" packages = None.
Proof.
  eexists. split; [reflexivity|].
  assert (H : ("react", "^17.0.2")
              ∈ [("react", "^17.0.2"); ("react-dom", "^17.0.2");
                 ("lodash", "4.17.21"); ("@types/react", "^16.9.0");
                 ("@types/node", "^18.0.0")]) by left.
  split; [exact H|]. split; [|reflexivity].
  exact (parse_package_json_published (Sample.world NotJson None) "/srv/app"
           "react" "^17.0.2" _ eq_refl H).
Defined.

(** X6. For a manifest whose two dependency groups are objects with
    string versions, the reader returns, and a name maps to its
    development version when that one is published, and to its runtime
    version otherwise: the later group wins. *)
Theorem parse_package_json_lookup (w : World) (cwd name : string)
    (data : list (string * json)) (deps devs : list (string * json)) :
  w_package_json w cwd = File (JObj data) ->
  member data "dependencies" = JObj deps ->
  member data "devDependencies" = JObj devs ->
  all_strings deps = true ->
  all_strings devs = true ->
  exists packages,
    parse_package_json w cwd = inr packages
    /\ ODict.get name packages
       = match published devs name with
         | Some version => Some version
         | None => published deps name
         end.
Proof.
  intros Hdata Hdeps Hdevs Hs1 Hs2. unfold parse_package_json. rewrite Hdata.
  unfold add_group, py_get. unfold member in Hdeps, Hdevs.
  rewrite Hdeps.
  destruct (add_deps_get (ODict.of_pairs deps) [] name
              (odict_of_pairs_nodup deps) Hs1) as [Hok1 Hget1].
  destruct (add_deps (ODict.of_pairs deps) []) as [found ok]. simpl in Hok1, Hget1.
  subst ok. rewrite Hdevs. eexists. split; [reflexivity|].
  destruct (add_deps_get (ODict.of_pairs devs) found name
              (odict_of_pairs_nodup devs) Hs2) as [_ Hget2].
  rewrite Hget2, Hget1. unfold published.
  destruct (ODict.get name (ODict.of_pairs devs)) as [[]|];
    destruct (ODict.get name (ODict.of_pairs deps)) as [[]|];
    try reflexivity;
    repeat match goal with |- context [skipped_reference ?s] =>
             destruct (skipped_reference s) end; reflexivity.
Qed.

Lemma parse_package_json_lookup_witness :
  exists packages,
    parse_package_json (Sample.world NotJson None) "/srv/app" = inr packages
    /\ ODict.get "react" packages = Some "^17.0.2".
Proof.
  exact (parse_package_json_lookup (Sample.world NotJson None) "/srv/app" "react"
           [("dependencies",
             JObj [("react", JStr "^17.0.2"); ("react-dom", JStr "^17.0.2");
                   ("lodash", JStr "4.17.21"); ("local-lib", JStr "file:../lib")]);
            ("devDependencies",
             JObj [("@types/react", JStr "^16.9.0"); ("@types/node", JStr "^18.0.0")])]
           [("react", JStr "^17.0.2"); ("react-dom", JStr "^17.0.2");
            ("lodash", JStr "4.17.21"); ("local-lib", JStr "file:../lib")]
           [("@types/react", JStr "^16.9.0"); ("@types/node", JStr "^18.0.0")]
           eq_refl eq_refl eq_refl eq_refl eq_refl).
Defined.

(** X7. A runtime dependency whose version is not a string ends the
    reading of the manifest: the reader still returns, of the entries
    before it the published ones are kept, the ones after it and every
    development dependency are lost. *)
Theorem parse_package_json_stops (w : World) (cwd : string)
    (data deps pre post : list (string * json)) (bad : string) (v : json) :
  w_package_json w cwd = File (JObj data) ->
  member data "dependencies" = JObj deps ->
  ODict.of_pairs deps = pre ++ (bad, v) :: post ->
  forallb (fun kv => is_string (snd kv)) pre = true ->
  is_string v = false ->
  exists packages,
    parse_package_json w cwd = inr packages
    /\ forall name,
         ODict.get name packages
         = match ODict.get name pre with
           | Some (JStr version) =>
               if skipped_reference version then None else Some version
           | _ => None
           end.
Proof.
  intros Hdata Hdeps Hcut Hpre Hv. unfold parse_package_json. rewrite Hdata.
  unfold add_group at 1. unfold py_get. unfold member in Hdeps. rewrite Hdeps.
  rewrite Hcut. rewrite add_deps_stops by assumption.
  eexists. split; [reflexivity|]. intros name.
  assert (Hnd : NoDup (fst <$> pre)).
  { pose proof (odict_of_pairs_nodup deps) as H. rewrite Hcut, fmap_app in H.
    now apply NoDup_app in H. }
  destruct (add_deps_get pre [] name Hnd Hpre) as [_ Hget]. rewrite Hget.
  destruct (ODict.get name pre) as [[]|]; try reflexivity.
Qed.

Lemma parse_package_json_stops_witness :
  exists packages,
    parse_package_json broken_manifest_world "/srv/app" = inr packages
    /\ forall name,
         ODict.get name packages
         = match ODict.get name [("a", JStr "1.0.0")] with
           | Some (JStr version) =>
               if skipped_reference version then None else Some version
           | _ => None
           end.
Proof.
  exact (parse_package_json_stops broken_manifest_world "/srv/app"
           [("dependencies",
             JObj [("a", JStr "1.0.0"); ("b", JNum 2); ("c", JStr "3.0.0")]);
            ("devDependencies", JObj [("d", JStr "1.0.0")])]
           [("a", JStr "1.0.0"); ("b", JNum 2); ("c", JStr "3.0.0")]
           [("a", JStr "1.0.0")] [("c", JStr "3.0.0")] "b" (JNum 2)
           eq_refl eq_refl eq_refl eq_refl eq_refl).
Defined.

(** ** Manifest Reader: the line-oriented manifest *)

Section Requirement.

(** What a successful greedy repetition read. *)
Lemma rep_greedy_inv {R} (p : ascii -> bool) (s : string) (prev : option ascii)
    (k : option ascii -> string -> option R) (x : R) :
  rep_greedy p prev s k = Some x ->
  exists run t, s = run +:+ t /\ all_chars p run = true
                /\ k (last_of prev run) t = Some x.
Proof.
  revert prev. induction s as [|c s IH]; intros prev; simpl.
  - intros H. exists "", "". auto.
  - destruct (p c) eqn:Hc.
    + destruct (rep_greedy p (Some c) s k) eqn:E.
      * intros [= ->]. destruct (IH _ E) as (run & t & -> & Hrun & Hk).
        exists (String c run), t. simpl. rewrite Hc, Hrun. auto.
      * intros H. exists "", (String c s). auto.
    + intros H. exists "", (String c s). auto.
Qed.

Lemma match_star_inv {R} (p : ascii -> bool) (pv : option ascii) (s : string)
    (caps : list (nat * string)) (k : mstate -> option R) (x : R) :
  sre_match (Star p) (MState pv s caps) k = Some x ->
  exists run t, s = run +:+ t /\ all_chars p run = true
                /\ k (MState (last_of pv run) t caps) = Some x.
Proof. cbn [sre_match ms_rest ms_prev ms_caps]. apply rep_greedy_inv. Qed.

Lemma match_group_plus_inv {R} (n : nat) (p : ascii -> bool) (pv : option ascii)
    (s : string) (caps : list (nat * string)) (k : mstate -> option R) (x : R) :
  sre_match (Group n (Plus p)) (MState pv s caps) k = Some x ->
  exists run t, s = run +:+ t /\ run <> "" /\ all_chars p run = true
                /\ k (MState (last_of pv run) t ((n, run) :: caps)) = Some x.
Proof.
  cbn [sre_match ms_rest ms_caps ms_prev].
  destruct s as [|c s]; [discriminate|]. destruct (p c) eqn:Hc; [|discriminate].
  intros H. apply rep_greedy_inv in H as (run & t & -> & Hrun & Hk).
  exists (String c run), t. cbn [ms_rest ms_prev ms_caps] in Hk.
  change (String c (run +:+ t)) with (String c run +:+ t) in Hk.
  rewrite consumed_app in Hk.
  repeat split; [discriminate | simpl; now rewrite Hc, Hrun | exact Hk].
Qed.

(** Every match of the requirement pattern reads a name, an operator
    and a version, with optional whitespace between them. *)
Lemma requirement_match_inv (line : string) (m : match_obj) :
  re_match re_requirement line = Some m ->
  exists name ws op ws' version rest,
    line = name +:+ ws +:+ op +:+ ws' +:+ version +:+ rest
    /\ name <> "" /\ all_chars is_name_char name = true
    /\ all_chars is_space ws = true
    /\ op <> "" /\ all_chars is_operator_char op = true
    /\ all_chars is_space ws' = true
    /\ version <> "" /\ all_chars is_version_char version = true
    /\ group m 1 = Some name /\ group m 3 = Some version.
Proof.
  unfold re_match, attempt, re_requirement. cbn [andb].
  destruct (sre_match _ _ _) as [st'|] eqn:E; [|discriminate].
  intros [= <-]. rewrite match_cat in E.
  apply match_group_plus_inv in E as (name & t1 & -> & Hn & Hname & E).
  rewrite match_cat in E. unfold ws0 in E.
  apply match_star_inv in E as (ws & t2 & -> & Hws & E).
  rewrite match_cat in E.
  apply match_group_plus_inv in E as (op & t3 & -> & Ho & Hop & E).
  rewrite match_cat in E.
  apply match_star_inv in E as (ws' & t4 & -> & Hws' & E).
  apply match_group_plus_inv in E as (version & rest & -> & Hv & Hversion & E).
  injection E as <-.
  exists name, ws, op, ws', version, rest.
  repeat split; try assumption; reflexivity.
Qed.

Lemma name_not_space (c : ascii) : is_space c = true -> is_name_char c = false.
Proof.
  destruct c as [[] [] [] [] [] [] [] []]; vm_compute; intros H;
    first [reflexivity | discriminate H].
Qed.

Lemma operator_not_name (c : ascii) : is_operator_char c = true -> is_name_char c = false.
Proof.
  destruct c as [[] [] [] [] [] [] [] []]; vm_compute; intros H;
    first [reflexivity | discriminate H].
Qed.

Lemma operator_not_space (c : ascii) : is_operator_char c = true -> is_space c = false.
Proof.
  destruct c as [[] [] [] [] [] [] [] []]; vm_compute; intros H;
    first [reflexivity | discriminate H].
Qed.

Lemma version_not_space (c : ascii) : is_version_char c = true -> is_space c = false.
Proof.
  destruct c as [[] [] [] [] [] [] [] []]; vm_compute; intros H;
    first [reflexivity | discriminate H].
Qed.

Lemma version_not_operator (c : ascii) :
  is_version_char c = true -> is_operator_char c = false.
Proof.
  destruct c as [[] [] [] [] [] [] [] []]; vm_compute; intros H;
    first [reflexivity | discriminate H].
Qed.

Lemma space_not_operator (c : ascii) : is_space c = true -> is_operator_char c = false.
Proof.
  destruct c as [[] [] [] [] [] [] [] []]; vm_compute; intros H;
    first [reflexivity | discriminate H].
Qed.

(** The head of a text made of one or two runs. *)
Lemma head_is_app_false (p q : ascii -> bool) (a b : string) :
  (forall c, q c = true -> p c = false) ->
  all_chars q a = true -> head_is p b = false -> head_is p (a +:+ b) = false.
Proof.
  intros Hqp Ha Hb. destruct a as [|c a]; [exact Hb|]. simpl in *.
  apply andb_true_iff in Ha as [Hc _]. now apply Hqp.
Qed.

Lemma head_is_run (p q : ascii -> bool) (a b : string) :
  (forall c, q c = true -> p c = false) ->
  a <> "" -> all_chars q a = true -> head_is p (a +:+ b) = false.
Proof.
  intros Hqp Hne Ha. destruct a as [|c a]; [contradiction|]. simpl in *.
  apply andb_true_iff in Ha as [Hc _]. now apply Hqp.
Qed.

Lemma match_group_plus {R} (n : nat) (p : ascii -> bool) (pv : option ascii)
    (run t : string) (caps : list (nat * string)) (k : mstate -> option R) (x : R) :
  run <> "" -> all_chars p run = true -> head_is p t = false ->
  k (MState (last_of pv run) t ((n, run) :: caps)) = Some x ->
  sre_match (Group n (Plus p)) (MState pv (run +:+ t) caps) k = Some x.
Proof.
  intros Hne Hrun Ht Hk. destruct run as [|c run]; [contradiction|].
  simpl in Hrun. apply andb_true_iff in Hrun as [Hc Hrun].
  cbn [sre_match ms_rest ms_caps ms_prev].
  change (String c run +:+ t) with (String c (run +:+ t)). cbv iota. rewrite Hc.
  apply rep_greedy_longest; [exact Hrun | exact Ht |].
  cbn [ms_rest ms_prev ms_caps].
  change (String c (run +:+ t)) with (String c run +:+ t).
  rewrite consumed_app. exact Hk.
Qed.

Lemma match_star {R} (p : ascii -> bool) (pv : option ascii) (run t : string)
    (caps : list (nat * string)) (k : mstate -> option R) (x : R) :
  all_chars p run = true -> head_is p t = false ->
  k (MState (last_of pv run) t caps) = Some x ->
  sre_match (Star p) (MState pv (run +:+ t) caps) k = Some x.
Proof.
  intros Hrun Ht Hk. cbn [sre_match ms_rest ms_caps ms_prev].
  now apply rep_greedy_longest.
Qed.

(** The match on a line of the shape [name op version]. *)
Lemma requirement_match (name ws op ws' version rest : string) :
  name <> "" -> all_chars is_name_char name = true ->
  all_chars is_space ws = true ->
  op <> "" -> all_chars is_operator_char op = true ->
  all_chars is_space ws' = true ->
  version <> "" -> all_chars is_version_char version = true ->
  head_is is_version_char rest = false ->
  exists m,
    re_match re_requirement (name +:+ ws +:+ op +:+ ws' +:+ version +:+ rest) = Some m
    /\ group m 1 = Some name /\ group m 3 = Some version.
Proof.
  intros Hn Hname Hws Ho Hop Hws' Hv Hversion Hrest.
  exists (mk_match 0 (name +:+ ws +:+ op +:+ ws' +:+ version +:+ rest)
            (MState
               (last_of (last_of (last_of (last_of (last_of None name) ws) op) ws')
                  version)
               rest [(3%nat, version); (2%nat, op); (1%nat, name)])).
  split; [|split; reflexivity].
  assert (E : attempt false re_requirement None
                (name +:+ ws +:+ op +:+ ws' +:+ version +:+ rest)
              = Some (MState
                        (last_of
                           (last_of (last_of (last_of (last_of None name) ws) op) ws')
                           version)
                        rest [(3%nat, version); (2%nat, op); (1%nat, name)])).
  { unfold attempt, re_requirement. cbn [andb]. rewrite match_cat.
    apply match_group_plus; [exact Hn | exact Hname | |].
    { apply (head_is_app_false _ is_space); [apply name_not_space | exact Hws |].
      apply (head_is_run _ is_operator_char);
        [apply operator_not_name | exact Ho | exact Hop]. }
    rewrite match_cat. unfold ws0 at 1. apply match_star; [exact Hws | |].
    { apply (head_is_run _ is_operator_char);
        [apply operator_not_space | exact Ho | exact Hop]. }
    rewrite match_cat. apply match_group_plus; [exact Ho | exact Hop | |].
    { apply (head_is_app_false _ is_space); [apply space_not_operator | exact Hws' |].
      apply (head_is_run _ is_version_char);
        [apply version_not_operator | exact Hv | exact Hversion]. }
    rewrite match_cat. unfold ws0 at 1. apply match_star; [exact Hws' | |].
    { apply (head_is_run _ is_version_char);
        [apply version_not_space | exact Hv | exact Hversion]. }
    apply match_group_plus; [exact Hv | exact Hversion | exact Hrest |].
    reflexivity. }
  unfold re_match. rewrite E. reflexivity.
Qed.

End Requirement.

Section RequirementLines.

Lemma startswith_char (x c : ascii) (t : string) :
  startswith (String x "") (String c t) = is_char x c.
Proof. unfold is_char. simpl. now destruct (ascii_dec x c). Qed.

Lemma hash_not_name (c : ascii) : is_name_char c = true -> is_char "#" c = false.
Proof.
  unfold is_char. destruct (ascii_dec "#" c) as [<- |]; [|reflexivity].
  vm_compute. discriminate.
Qed.

(** What one line adds: nothing, or one pair read off the line. *)
Lemma add_requirement_cases (packages : odict) (line : string) :
  add_requirement packages line = packages
  \/ exists name ws op ws' version rest,
       strip line = name +:+ ws +:+ op +:+ ws' +:+ version +:+ rest
       /\ startswith "-" (strip line) = false
       /\ name <> "" /\ all_chars is_name_char name = true
       /\ version <> "" /\ all_chars is_version_char version = true
       /\ add_requirement packages line = ODict.set name version packages.
Proof.
  unfold add_requirement.
  destruct (strip line) as [|c t] eqn:Hline; [now left|].
  destruct (startswith "#" (String c t)); [now left|].
  destruct (startswith "-" (String c t)) eqn:Hdash; [now left|]. simpl orb.
  destruct (re_match re_requirement (String c t)) as [m|] eqn:Hm; [|now left].
  apply requirement_match_inv in Hm
    as (name & ws & op & ws' & version & rest & Hcut & Hn & Hname & _ & _ & _ & _
        & Hv & Hversion & -> & ->).
  right. exists name, ws, op, ws', version, rest. repeat split; assumption.
Qed.

End RequirementLines.

(** X8. Every pair read from a requirements file is well formed: the
    name is a non-empty run of letters, digits, underscores and dashes
    that does not start with a dash, and the version a non-empty run of
    digits and dots. *)
Theorem read_requirements_wellformed (lines : option (list string))
    (name version : string) :
  (name, version) ∈ read_requirements lines ->
  name <> "" /\ all_chars is_name_char name = true
  /\ startswith "-" name = false
  /\ version <> "" /\ all_chars is_version_char version = true.
Proof.
  destruct lines as [ls|]; simpl; [|intros H; inversion H].
  assert (Hinv : forall (ls : list string) (d : odict),
             (forall n v, (n, v) ∈ d ->
                n <> "" /\ all_chars is_name_char n = true
                /\ startswith "-" n = false
                /\ v <> "" /\ all_chars is_version_char v = true) ->
             forall n v, (n, v) ∈ fold_left add_requirement ls d ->
                n <> "" /\ all_chars is_name_char n = true
                /\ startswith "-" n = false
                /\ v <> "" /\ all_chars is_version_char v = true).
  { clear. induction ls as [|line ls IH]; intros d Hd n v; simpl; [apply Hd|].
    apply IH. intros n' v' Hin.
    destruct (add_requirement_cases d line)
      as [Heq | (nm & ws & op & ws' & ver & rest & Hcut & Hdash & Hn & Hname & Hv
                & Hver & Heq)]; rewrite Heq in Hin; [now apply Hd|].
    apply odict_set_elem in Hin as [[= -> ->] | Hin];
      [|now apply Hd].
    repeat split; try assumption.
    rewrite Hcut in Hdash. destruct nm as [|c nm]; [contradiction|].
    change (String c nm +:+ ?t) with (String c (nm +:+ t)) in Hdash.
    rewrite startswith_char. now rewrite startswith_char in Hdash. }
  apply Hinv. intros n v H. inversion H.
Qed.

Lemma read_requirements_wellformed_witness :
  ("flask", "1.1.0")
  ∈ read_requirements (Some ["requests==2.28.0"; "flask==1.1.0"; "# pinned"; ""])
  /\ all_chars is_version_char "1.1.0" = true.
Proof.
  assert (H : ("flask", "1.1.0")
              ∈ read_requirements
                  (Some ["requests==2.28.0"; "flask==1.1.0"; "# pinned"; ""])).
  { apply (bool_decide_unpack _). vm_compute. exact I. }
  split; [exact H|].
  exact (proj2 (proj2 (proj2 (proj2
           (read_requirements_wellformed _ _ _ H))))).
Defined.

(** X9. A line that, once stripped, is a name, an operator and a
    version, with optional whitespace around the operator, records the
    name with that version; whatever follows the first version token,
    such as the second half of a compound constraint, is ignored. *)
Theorem add_requirement_pinned (packages : odict)
    (line name ws op ws' version rest : string) :
  strip line = name +:+ ws +:+ op +:+ ws' +:+ version +:+ rest ->
  name <> "" -> all_chars is_name_char name = true ->
  startswith "-" name = false ->
  all_chars is_space ws = true ->
  op <> "" -> all_chars is_operator_char op = true ->
  all_chars is_space ws' = true ->
  version <> "" -> all_chars is_version_char version = true ->
  head_is is_version_char rest = false ->
  add_requirement packages line = ODict.set name version packages.
Proof.
  intros Hline Hn Hname Hdash Hws Ho Hop Hws' Hv Hversion Hrest.
  destruct (requirement_match name ws op ws' version rest)
    as (m & Hm & Hg1 & Hg3); try assumption.
  unfold add_requirement. rewrite Hline.
  destruct name as [|c name]; [contradiction|].
  change (String c name +:+ ?t) with (String c (name +:+ t)) in *.
  rewrite !startswith_char. rewrite startswith_char in Hdash. rewrite Hdash.
  simpl in Hname. apply andb_true_iff in Hname as [Hc _].
  rewrite (hash_not_name c Hc). simpl orb. cbv iota.
  rewrite Hm, Hg1, Hg3. reflexivity.
Qed.

Lemma add_requirement_pinned_witness :
  add_requirement [("flask", "0.9")] "  flask >= 1.0,<2.0 " = [("flask", "1.0")].
Proof.
  apply (add_requirement_pinned [("flask", "0.9")] "  flask >= 1.0,<2.0 "
           "flask" " " ">=" " " "1.0" ",<2.0");
    try reflexivity; discriminate.
Defined.

(** ** The directory prefix of a command *)

Section Prefix.

Lemma match_plus_run {R} (p : ascii -> bool) (pv : option ascii) (run t : string)
    (caps : list (nat * string)) (k : mstate -> option R) (x : R) :
  run <> "" -> all_chars p run = true -> head_is p t = false ->
  k (MState (last_of pv run) t caps) = Some x ->
  sre_match (Plus p) (MState pv (run +:+ t) caps) k = Some x.
Proof.
  intros Hne Hrun Ht Hk. destruct run as [|c run]; [contradiction|].
  simpl in Hrun. apply andb_true_iff in Hrun as [Hc Hrun].
  change (String c run +:+ t) with (String c (run +:+ t)).
  rewrite match_plus by exact Hc.
  now apply rep_greedy_longest.
Qed.

Lemma path_not_space (c : ascii) : not_space_amp c = true -> is_space c = false.
Proof.
  unfold not_space_amp. destruct (is_space c); [discriminate | reflexivity].
Qed.

Lemma space_not_path (c : ascii) : is_space c = true -> not_space_amp c = false.
Proof. unfold not_space_amp. now intros ->. Qed.

End Prefix.

(** X10. A command that starts with [cd], whitespace, a path without
    whitespace or ampersand, optional whitespace and [&&] is run in that
    path: the effective directory is the normalised path, joined to the
    working directory when it is relative, and the rest of the command,
    without the whitespace after [&&], is what is parsed further. *)
Theorem resolve_cd_prefix (w : World) (ws path ws' ws'' rest : string) :
  ws <> "" -> all_chars is_space ws = true ->
  path <> "" -> all_chars not_space_amp path = true ->
  all_chars is_space ws' = true ->
  all_chars is_space ws'' = true ->
  head_is is_space rest = false ->
  resolve_cd w ("cd" +:+ ws +:+ path +:+ ws' +:+ "&&" +:+ ws'' +:+ rest)
  = (w_normpath w
       (if Path.isabs path then path else Path.join (w_getcwd w) path),
     rest).
Proof.
  intros Hw Hws Hp Hpath Hws' Hws'' Hrest.
  assert (E : attempt false re_cd None
                ("cd" +:+ ws +:+ path +:+ ws' +:+ "&&" +:+ ws'' +:+ rest)
              = Some (MState
                        (last_of
                           (last_of
                              (last_of (last_of (last_of (last_of None "cd") ws) path) ws')
                              "&&")
                           ws'')
                        rest [(1%nat, path)])).
  { unfold attempt, re_cd. cbn [andb]. rewrite match_cat, match_bol.
    rewrite match_cat, run_lit. rewrite match_cat. unfold ws1.
    apply match_plus_run; [exact Hw | exact Hws | |].
    { apply (head_is_run _ not_space_amp);
        [apply path_not_space | exact Hp | exact Hpath]. }
    rewrite match_cat. apply match_group_plus; [exact Hp | exact Hpath | |].
    { apply (head_is_app_false _ is_space); [apply space_not_path | exact Hws' |].
      reflexivity. }
    rewrite match_cat. unfold ws0 at 1. apply match_star; [exact Hws' | reflexivity |].
    rewrite match_cat, run_lit. unfold ws0.
    apply match_star; [exact Hws'' | exact Hrest |]. reflexivity. }
  unfold resolve_cd, re_match. rewrite E. reflexivity.
Qed.

Lemma resolve_cd_prefix_witness :
  resolve_cd (Sample.world (Sample.event "cd api && pip install") None)
    "cd api && pip install"
  = ("/srv/app/api", "pip install").
Proof.
  apply (resolve_cd_prefix (Sample.world (Sample.event "cd api && pip install") None)
           " " "api" " " " " "pip install");
    try reflexivity; discriminate.
Defined.

(** X11. A command that does not start with the letters [cd] is left as
    it is and runs in the working directory of the process; so is a
    command with anything, even a blank, before its [cd]. *)
Theorem resolve_cd_without_prefix (w : World) (command : string) :
  startswith "cd" command = false ->
  resolve_cd w command = (w_getcwd w, command).
Proof.
  intros H. unfold resolve_cd, re_match, attempt, re_cd. cbn [andb].
  rewrite match_cat, match_bol, match_cat.
  now rewrite match_lit_miss.
Qed.

Lemma resolve_cd_without_prefix_witness :
  resolve_cd (Sample.world NotJson None) " cd api && pip install"
  = ("/srv/app", " cd api && pip install").
Proof.
  apply (resolve_cd_without_prefix (Sample.world NotJson None)
           " cd api && pip install").
  reflexivity.
Defined.

(** ** The packages to check *)

Section Selection.


End Selection.


(** ** The line-oriented manifest named on the command line *)

Section DashR.

Lemma dash_r_skip (pre s : string) (pv : option ascii) (i : nat) :
  all_chars (is_not "-") pre = true ->
  search_from re_dash_r pv (pre +:+ s) i
  = search_from re_dash_r (last_of pv pre) s (i + String.length pre).
Proof.
  revert pv i. induction pre as [|c pre IH]; intros pv i Hpre.
  - simpl. now rewrite Nat.add_0_r.
  - simpl in Hpre. apply andb_true_iff in Hpre as [Hc Hpre].
    change (String c pre +:+ s) with (String c (pre +:+ s)).
    cbn [search_from].
    assert (E : attempt false re_dash_r pv (String c (pre +:+ s)) = None).
    { unfold attempt, re_dash_r. rewrite match_cat. apply match_lit_miss.
      cbn [startswith]. unfold is_not, is_char in Hc.
      destruct (ascii_dec "-" c); [discriminate | reflexivity]. }
    rewrite E. rewrite IH by exact Hpre. cbn [last_of String.length].
    f_equal. lia.
Qed.

Lemma space_is_not_not_space (c : ascii) : not_space c = true -> is_space c = false.
Proof. unfold not_space. destruct (is_space c); [discriminate | reflexivity]. Qed.

(** The file a [-r] flag names, resolved against the directory. *)
Lemma pip_requirements_file_flag (cwd pre ws file rest : string) :
  all_chars (is_not "-") pre = true ->
  ws <> "" -> all_chars is_space ws = true ->
  file <> "" -> all_chars not_space file = true ->
  head_is not_space rest = false ->
  pip_requirements_file cwd (pre +:+ "-r" +:+ ws +:+ file +:+ rest) "pip"
  = Some (if Path.isabs file then file else Path.join cwd file).
Proof.
  intros Hpre Hw Hws Hf Hfile Hrest.
  unfold pip_requirements_file, re_search. cbn [String.eqb Ascii.eqb Bool.eqb].
  rewrite dash_r_skip by exact Hpre.
  assert (E : forall pv,
             attempt false re_dash_r pv ("-r" +:+ ws +:+ file +:+ rest)
             = Some (MState (last_of (last_of (last_of pv "-r") ws) file) rest
                       [(1%nat, file)])).
  { intros pv. unfold attempt, re_dash_r. cbn [andb]. rewrite match_cat, run_lit.
    rewrite match_cat. unfold ws1.
    apply match_plus_run; [exact Hw | exact Hws | |].
    { apply (head_is_run _ not_space);
        [apply space_is_not_not_space | exact Hf | exact Hfile]. }
    apply match_group_plus; [exact Hf | exact Hfile | exact Hrest |]. reflexivity. }
  destruct ("-r" +:+ ws +:+ file +:+ rest) as [|c t] eqn:Hs; [discriminate|].
  cbn [search_from]. rewrite E. reflexivity.
Qed.

End DashR.

(** X13. When a pip command names a requirements file with [-r], the
    packages checked are the ones pinned in that file, resolved against
    the effective directory when the name is relative; packages also
    named on the command line and what the requirements.txt beside the
    named file pins play no part.  That requirements.txt is still probed
    first, and the run raises when [Path.exists] raises on it. *)
Theorem pip_flag_reads_named_file (w : World) (cwd pre ws file rest : string) :
  all_chars (is_not "-") pre = true ->
  ws <> "" -> all_chars is_space ws = true ->
  file <> "" -> all_chars not_space file = true ->
  head_is not_space rest = false ->
  packages_to_check w cwd (pre +:+ "-r" +:+ ws +:+ file +:+ rest) "pip"
  = match
      w_requirements_txt w
        (Path.dirname (if Path.isabs file then file else Path.join cwd file))
    with
    | ProbeFails => inl OSError
    | _ =>
        inr (read_requirements
               (w_file_lines w (if Path.isabs file then file else Path.join cwd file)))
    end.
Proof.
  intros Hpre Hw Hws Hf Hfile Hrest. unfold packages_to_check.
  rewrite (pip_requirements_file_flag cwd pre ws file rest) by assumption.
  change (String.eqb (registry_of "pip") "npm") with false. cbv iota.
  unfold parse_requirements_txt. now destruct (w_requirements_txt w _).
Qed.

Lemma pip_flag_reads_named_file_witness :
  packages_to_check (Sample.world NotJson None) "/srv/api"
    "pip install -r reqs/dev.txt flask" "pip"
  = inr [].
Proof.
  apply (pip_flag_reads_named_file (Sample.world NotJson None) "/srv/api"
           "pip install " " " "reqs/dev.txt" " flask");
    try reflexivity; discriminate.
Defined.

Section DirectoryManifest.





End DirectoryManifest.



(** ** What a run prints *)

Section Output.

Lemma filter_all {A} (P : A -> Prop) `{!forall x, Decision (P x)} (l : list A) :
  (forall x, x ∈ l -> P x) -> filter P l = l.
Proof.
  induction l as [|x l IH]; intros Hl; [reflexivity|].
  rewrite filter_cons_True by (apply Hl; left).
  f_equal. apply IH. intros y Hy. apply Hl. now right.
Qed.

Lemma filter_none {A} (P : A -> Prop) `{!forall x, Decision (P x)} (l : list A) :
  (forall x, x ∈ l -> ~ P x) -> filter P l = [].
Proof.
  induction l as [|x l IH]; intros Hl; [reflexivity|].
  rewrite filter_cons_False by (apply Hl; left).
  apply IH. intros y Hy. apply Hl. now right.
Qed.

Lemma hit_inv (cache : gmap string string) (diffs : list diff) (r : result) :
  r ∈ cache_hits cache diffs ->
  r_diff r ∈ diffs /\ cache !! key_of (r_diff r) = Some (research r).
Proof.
  unfold cache_hits. rewrite split_cached_spec. simpl.
  intros (d & Hd & Hr)%list_elem_of_omap.
  destruct (cache !! key_of d) as [t|] eqn:E; [|discriminate].
  injection Hr as <-. simpl. auto.
Qed.

(** The two lists of the partition hold the diffs, every one once. *)
Lemma split_cached_perm (cache : gmap string string) (diffs : list diff) :
  (r_diff <$> cache_hits cache diffs) ++ cache_misses cache diffs ≡ₚ diffs.
Proof.
  unfold cache_hits, cache_misses. rewrite split_cached_spec. simpl.
  induction diffs as [|d diffs IH]; [reflexivity|]. csimpl.
  destruct (cache !! key_of d) as [t|] eqn:E; csimpl.
  - rewrite filter_cons_False by congruence. now constructor.
  - rewrite filter_cons_True by assumption.
    rewrite <- Permutation_middle. now constructor.
Qed.

Lemma fresh_results_length (w : World) (diffs : list diff) :
  length (fresh_results w diffs) = length (to_research w diffs).
Proof.
  rewrite (Permutation_length (fresh_results_perm w diffs)). apply length_fmap.
Qed.

Lemma reported_length (w : World) (diffs : list diff) :
  length (filter_redundant_types diffs)
  = (length (cache_hits (load_cache (w_cache_file w)) (filter_redundant_types diffs))
     + length (to_research w diffs))%nat.
Proof.
  rewrite <- (Permutation_length
                (split_cached_perm (load_cache (w_cache_file w))
                   (filter_redundant_types diffs))).
  rewrite length_app, length_fmap. reflexivity.
Qed.

(** The count of cached results in the summary is exact: no result of the
    agent equals a result taken from the cache. *)
Lemma count_cached_exact (w : World) (diffs : list diff) :
  count_cached
    (cache_hits (load_cache (w_cache_file w)) (filter_redundant_types diffs)
       ++ fresh_results w diffs)
    (cache_hits (load_cache (w_cache_file w)) (filter_redundant_types diffs))
  = length (cache_hits (load_cache (w_cache_file w)) (filter_redundant_types diffs)).
Proof.
  unfold count_cached. rewrite filter_app, length_app.
  rewrite filter_all by auto. rewrite filter_none; [simpl; lia|].
  intros r Hr Hhit. apply fresh_result_inv in Hr as (d & -> & Hd).
  apply to_research_spec in Hd as [_ Hd].
  apply hit_inv in Hhit as [_ Hhit]. simpl in Hhit. congruence.
Qed.

Lemma compose_hits_fresh (w : World) (checked : nat) (diffs : list diff) :
  compose checked
    (cache_hits (load_cache (w_cache_file w)) (filter_redundant_types diffs)
       ++ fresh_results w diffs)
    (cache_hits (load_cache (w_cache_file w)) (filter_redundant_types diffs))
  = HookOutput
      (if (0 <? length (to_research w diffs))%nat
       then Researched checked (length (filter_redundant_types diffs))
              (length (to_research w diffs))
              (length (filter_redundant_types diffs) - length (to_research w diffs))
       else AllCached checked (length (filter_redundant_types diffs)))
      (cache_hits (load_cache (w_cache_file w)) (filter_redundant_types diffs)
         ++ fresh_results w diffs).
Proof.
  unfold compose. rewrite count_cached_exact.
  rewrite length_app, fresh_results_length, (reported_length w diffs).
  set (h := length (cache_hits _ _)). set (n := length (to_research w diffs)).
  replace (h + n - h)%nat with n by lia.
  replace (h + n - n)%nat with h by lia.
  reflexivity.
Qed.

(** A run that found diffs ends with status 2 and prints the cached
    results followed by the results of the agent. *)
Lemma main_with_diffs (w : World) (checked : nat) (diffs : list diff) :
  find_work w = inr (checked, diffs) ->
  diffs <> [] ->
  r_status (main w) = Exited 2
  /\ r_stdout (main w)
     = Some (compose checked
               (cache_hits (load_cache (w_cache_file w)) (filter_redundant_types diffs)
                  ++ fresh_results w diffs)
               (cache_hits (load_cache (w_cache_file w)) (filter_redundant_types diffs))).
Proof.
  intros Hw Hne. destruct (decide (to_research w diffs = [])) as [Hnone | Hsome].
  - unfold main. rewrite Hw. rewrite report_all_cached by assumption.
    unfold fresh_results. rewrite Hnone. simpl. now rewrite app_nil_r.
  - rewrite (main_researched w checked diffs Hw Hsome). auto.
Qed.

Lemma worker_diffs (w : World) (diffs : list diff) :
  r_diff <$> (research_worker w <$> diffs) = diffs.
Proof. induction diffs as [|d diffs IH]; csimpl; [reflexivity | now rewrite IH]. Qed.

Lemma find_work_stops (w : World) (s : status) :
  find_work w = inl s -> s <> Exited 2.
Proof.
  unfold find_work. destruct (read_event (w_stdin w)); try (intros [= <-]; discriminate).
  destruct (resolve_cd w command) as [cwd command'].
  destruct (detect_manager command') as [manager|]; [|intros [= <-]; discriminate].
  destruct (packages_to_check w cwd command' manager) as [e|[|pv packages]];
    try (intros [= <-]; discriminate).
  destruct (find_diffs w (registry_of manager) (pv :: packages));
    [intros [= <-]|]; discriminate.
Qed.

(** What the loop over the completed calls leaves in the cache came from
    the cache it started with or from a result that is not a marker. *)
Lemma remember_all_inv (rs : list result) (cache : gmap string string) (k t : string) :
  fold_left remember rs cache !! k = Some t ->
  cache !! k = Some t
  \/ exists r, r ∈ rs /\ genuine r /\ result_key r = k /\ research r = t.
Proof.
  revert cache. induction rs as [|r rs IH]; intros cache; simpl; [now left|].
  intros H. apply IH in H as [H | (r' & Hr' & Hrest)].
  - unfold remember in H. destruct (startswith "(" (research r)) eqn:E; [now left|].
    destruct (decide (key_of (r_diff r) = k)) as [Hk | Hk].
    + rewrite Hk in H. rewrite lookup_insert_eq in H. injection H as <-.
      right. exists r. repeat split; [left | exact E | exact Hk].
    + rewrite lookup_insert_ne in H by exact Hk. now left.
  - right. exists r'. split; [now right | exact Hrest].
Qed.

Lemma find_work_counts (w : World) (checked : nat) (diffs : list diff) :
  find_work w = inr (checked, diffs) ->
  (length (filter_redundant_types diffs) <= checked)%nat.
Proof.
  intros (command & cwd & command' & manager & packages & _ & _ & _ & _ & _ & -> & Hd)
    %find_work_inv.
  unfold filter_redundant_types. etransitivity; [apply length_filter|].
  pose proof (sublist_length _ _ (find_diffs_packages _ _ _ _ Hd)) as H.
  now rewrite !length_fmap in H.
Qed.

End Output.

(** X15. A run prints its document exactly when it ends with status 2,
    and that is exactly when it found at least one major-version diff;
    every other run prints nothing and neither reads nor writes the
    cache file. *)
Theorem main_prints_iff_status_two (w : World) :
  (r_status (main w) = Exited 2
   <-> exists checked diffs, find_work w = inr (checked, diffs) /\ diffs <> [])
  /\ (r_status (main w) = Exited 2 <-> r_stdout (main w) <> None)
  /\ (r_status (main w) <> Exited 2 -> main w = quiet w (r_status (main w))).
Proof.
  destruct (find_work w) as [s | [checked diffs]] eqn:Hw.
  - assert (Hm : main w = quiet w s) by (unfold main; now rewrite Hw).
    pose proof (find_work_stops w s Hw) as Hs. rewrite Hm. simpl.
    split; [|split].
    + split; [contradiction | intros (c & ds & [=] & _)].
    + split; [contradiction | intros H; now destruct H].
    + reflexivity.
  - destruct diffs as [|d diffs].
    + assert (Hm : main w = quiet w (Exited 0)) by (unfold main; now rewrite Hw).
      rewrite Hm. simpl. split; [|split].
      * split; [discriminate | intros (c & ds & [= _ <-] & Hne); contradiction].
      * split; [discriminate | intros H; now destruct H].
      * reflexivity.
    + destruct (main_with_diffs w checked (d :: diffs) Hw) as [Hs Ho]; [discriminate|].
      rewrite Hs, Ho. split; [|split].
      * split; [|reflexivity]. intros _. exists checked, (d :: diffs).
        split; [reflexivity | discriminate].
      * split; [discriminate | reflexivity].
      * contradiction.
Qed.

(** X16. When a run found diffs, the document it prints has one result
    for every diff that survives the redundancy filter and no other;
    the cached results come first, in the order of the diffs; and each
    result carries the text the cache holds under the diff's key when
    there is one, and the answer of the agent otherwise. *)
Theorem main_reports_each_diff_once (w : World) (checked : nat) (diffs : list diff) :
  find_work w = inr (checked, diffs) ->
  diffs <> [] ->
  exists out fresh,
    r_stdout (main w) = Some out
    /\ additionalContext out
       = cache_hits (load_cache (w_cache_file w)) (filter_redundant_types diffs)
           ++ fresh
    /\ fresh ≡ₚ research_worker w <$> to_research w diffs
    /\ r_diff <$> additionalContext out ≡ₚ filter_redundant_types diffs
    /\ forall r, r ∈ additionalContext out ->
         research r
         = match load_cache (w_cache_file w) !! key_of (r_diff r) with
           | Some text => text
           | None => research (research_worker w (r_diff r))
           end.
Proof.
  intros Hw Hne. destruct (main_with_diffs w checked diffs Hw Hne) as [_ Ho].
  eexists. exists (fresh_results w diffs).
  split; [exact Ho|]. rewrite compose_hits_fresh. simpl.
  split; [reflexivity|]. split; [apply fresh_results_perm|]. split.
  - rewrite fmap_app. rewrite fresh_results_perm. rewrite worker_diffs.
    apply split_cached_perm.
  - intros r [Hr | Hr]%elem_of_app.
    + apply hit_inv in Hr as [_ Hr]. now rewrite Hr.
    + apply fresh_result_inv in Hr as (d & -> & Hd).
      apply to_research_spec in Hd as [_ Hd]. simpl. now rewrite Hd.
Qed.

Lemma main_reports_each_diff_once_witness :
  exists out fresh,
    r_stdout (main (Sample.world (Sample.event "npm install lodash") None)) = Some out
    /\ additionalContext out = [] ++ fresh
    /\ fresh ≡ₚ [Result Sample.lodash "(Research timed out for lodash)"].
Proof.
  destruct (main_reports_each_diff_once
              (Sample.world (Sample.event "npm install lodash") None)
              1 [Sample.lodash] ltac:(vm_compute; reflexivity) ltac:(discriminate))
    as (out & fresh & Ho & Hc & Hf & _).
  exists out, fresh. split; [exact Ho|]. split; [exact Hc | exact Hf].
Defined.

(** X17. The summary line counts what happened: the number of results
    is the number of diffs that survive the filter, never more than the
    number of packages checked; "researched" is the number of diffs sent
    to the agent, "cached" the number answered from the cache; and the
    run is called all cached exactly when nothing was sent to the
    agent. *)
Theorem main_summary_counts (w : World) (checked : nat) (diffs : list diff) :
  find_work w = inr (checked, diffs) ->
  diffs <> [] ->
  exists out,
    r_stdout (main w) = Some out
    /\ systemMessage out
       = match to_research w diffs with
         | [] => AllCached checked (length (filter_redundant_types diffs))
         | sent =>
             Researched checked (length (filter_redundant_types diffs))
               (length sent)
               (length (cache_hits (load_cache (w_cache_file w))
                          (filter_redundant_types diffs)))
         end
    /\ (length (filter_redundant_types diffs) <= checked)%nat.
Proof.
  intros Hw Hne. destruct (main_with_diffs w checked diffs Hw Hne) as [_ Ho].
  eexists. split; [exact Ho|]. split; [|now apply (find_work_counts w)].
  rewrite compose_hits_fresh. simpl.
  rewrite (reported_length w diffs).
  destruct (to_research w diffs) as [|d sent]; simpl; [reflexivity|].
  f_equal. lia.
Qed.

Lemma main_summary_counts_witness :
  exists out,
    r_stdout (main (Sample.world (Sample.event "npm install") None)) = Some out
    /\ systemMessage out = Researched 5 3 3 0.
Proof.
  destruct (main_summary_counts (Sample.world (Sample.event "npm install") None) 5
              [Sample.react; Sample.lodash;
               Diff "@types/react" "^16.9.0" 16 "18.0.1" 18;
               Diff "@types/node" "^18.0.0" 18 "20.1.0" 20]
              ltac:(vm_compute; reflexivity) ltac:(discriminate))
    as (out & Ho & Hs & _).
  exists out. split; [exact Ho | exact Hs].
Defined.

(** X18. The order in which the research calls complete changes nothing
    but the order of the agent's results in the document: the exit
    status, the summary line, the calls made, the cache saved and the
    cache file are the same, and the document holds the same results. *)
Theorem completion_order_irrelevant (w : World) (schedule : list nat) :
  r_status (main (with_schedule w schedule)) = r_status (main w)
  /\ r_trace (main (with_schedule w schedule)) = r_trace (main w)
  /\ r_cache_file (main (with_schedule w schedule)) = r_cache_file (main w)
  /\ match r_stdout (main (with_schedule w schedule)), r_stdout (main w) with
     | Some out', Some out =>
         systemMessage out' = systemMessage out
         /\ additionalContext out' ≡ₚ additionalContext out
     | None, None => True
     | _, _ => False
     end.
Proof.
  set (w' := with_schedule w schedule).
  assert (Hfw : find_work w' = find_work w) by reflexivity.
  destruct (find_work w) as [s | [checked diffs]] eqn:Hw.
  - unfold main. rewrite Hfw, Hw. simpl. auto.
  - destruct (decide (to_research w diffs = [])) as [Hnone | Hsome].
    + unfold main. rewrite Hfw, Hw. destruct diffs as [|d diffs]; [simpl; auto|].
      rewrite (report_all_cached w) by (discriminate || assumption).
      rewrite (report_all_cached w') by (discriminate || assumption).
      simpl. auto.
    + pose proof (find_work_nodup w checked diffs Hw) as Hnd.
      assert (Hperm : fresh_results w' diffs ≡ₚ fresh_results w diffs).
      { rewrite !fresh_results_perm. reflexivity. }
      assert (Hcache : cache_after w' diffs = cache_after w diffs).
      { unfold cache_after. apply remember_all_perm; [|exact Hperm].
        now apply fresh_results_keys. }
      rewrite (main_researched w checked diffs Hw Hsome).
      rewrite (main_researched w' checked diffs Hfw Hsome).
      rewrite (compose_hits_fresh w), (compose_hits_fresh w'), Hcache.
      cbn [r_status r_trace r_cache_file r_stdout systemMessage additionalContext].
      repeat (split; [reflexivity|]). now apply Permutation_app_head.
Qed.

(** X20. A run never puts anything into the cache file but the answers
    of the agent it asked: an entry of the file after the run was in the
    file before, or is the text, not starting with a parenthesis, that
    the agent returned for a diff the run sent to it, under that diff's
    key. *)
Theorem cache_file_grows_only_by_research (w : World) (k t : string) :
  load_cache (r_cache_file (main w)) !! k = Some t ->
  load_cache (w_cache_file w) !! k = Some t
  \/ exists checked diffs d,
       find_work w = inr (checked, diffs)
       /\ d ∈ to_research w diffs
       /\ k = key_of d
       /\ t = research (research_worker w d)
       /\ startswith "(" t = false.
Proof.
  destruct (main_shapes w) as [(_ & -> & _) | [(c & ds & _ & _ & _ & _ & ->) |
                                               (c & ds & Hw & _ & _ & ->)]];
    try (now left).
  unfold save_cache. destruct (w_cache_writable w); [|now left].
  unfold cache_after. intros [H | (r & Hr & Hg & Hk & Ht)]%remember_all_inv;
    [now left|].
  right. apply fresh_result_inv in Hr as (d & -> & Hd).
  exists c, ds, d. unfold genuine in Hg. subst t.
  repeat split; [exact Hw | exact Hd | now rewrite <- Hk | exact Hg].
Qed.

Lemma cache_file_grows_only_by_research_witness :
  load_cache (r_cache_file (main (Sample.world (Sample.event "npm install") None)))
  !! "@types/node:18->20" = Some ""
  /\ (load_cache (w_cache_file (Sample.world (Sample.event "npm install") None))
      !! "@types/node:18->20" = Some ""
      \/ exists checked diffs d,
           find_work (Sample.world (Sample.event "npm install") None)
           = inr (checked, diffs)
           /\ d ∈ to_research (Sample.world (Sample.event "npm install") None) diffs
           /\ "@types/node:18->20" = key_of d
           /\ "" = research
                     (research_worker
                        (Sample.world (Sample.event "npm install") None) d)
           /\ startswith "(" "" = false).
Proof.
  assert (H : load_cache
                (r_cache_file (main (Sample.world (Sample.event "npm install") None)))
              !! "@types/node:18->20" = Some "") by (vm_compute; reflexivity).
  split; [exact H|].
  exact (cache_file_grows_only_by_research _ _ _ H).
Defined.

(** ** The event *)





(** ** Detection of the package manager *)

Section Detection.

Lemma match_wordb {R} (pv : option ascii) (s : string) (caps : list (nat * string))
    (k : mstate -> option R) :
  sre_match WordB (MState pv s caps) k
  = if at_boundary pv s then k (MState pv s caps) else None.
Proof. reflexivity. Qed.

Lemma match_lit_inv {R} (word s : string) (pv : option ascii)
    (caps : list (nat * string)) (k : mstate -> option R) (x : R) :
  sre_match (Lit word) (MState pv s caps) k = Some x ->
  exists t, s = word +:+ t /\ k (MState (last_of pv word) t caps) = Some x.
Proof.
  revert s pv. induction word as [|a word IH]; intros s pv H.
  - exists s. auto.
  - cbn [Lit] in H. rewrite match_cat in H. destruct s as [|b s]; [discriminate|].
    cbn [sre_match ms_rest ms_caps] in H. unfold is_char in H.
    destruct (ascii_dec a b) as [<- |]; [|discriminate].
    apply IH in H as (t & -> & Hk). exists t. auto.
Qed.

Lemma match_plus_inv {R} (p : ascii -> bool) (pv : option ascii) (s : string)
    (caps : list (nat * string)) (k : mstate -> option R) (x : R) :
  sre_match (Plus p) (MState pv s caps) k = Some x ->
  exists run t, s = run +:+ t /\ run <> "" /\ all_chars p run = true
                /\ k (MState (last_of pv run) t caps) = Some x.
Proof.
  cbn [sre_match ms_rest ms_caps ms_prev].
  destruct s as [|c s]; [discriminate|]. destruct (p c) eqn:Hc; [|discriminate].
  intros H. apply rep_greedy_inv in H as (run & t & -> & Hrun & Hk).
  exists (String c run), t.
  repeat split; [discriminate | simpl; now rewrite Hc, Hrun | exact Hk].
Qed.

Lemma reads_lit (word : string) : reads_one_of (Lit word) [word].
Proof.
  intros R pv s caps k x H. apply match_lit_inv in H as (t & -> & Hk).
  exists word, t, caps. split; [left | auto].
Qed.

Lemma reads_alt (a b : regex) (subs subs' : list string) :
  reads_one_of a subs -> reads_one_of b subs' -> reads_one_of (Alt a b) (subs ++ subs').
Proof.
  intros Ha Hb R pv s caps k x H. cbn [sre_match] in H.
  destruct (sre_match a (MState pv s caps) k) as [y|] eqn:E.
  - injection H as ->. apply Ha in E as (sub & t & caps' & Hsub & Hs & Hk).
    exists sub, t, caps'. split; [apply elem_of_app; now left | auto].
  - apply Hb in H as (sub & t & caps' & Hsub & Hs & Hk).
    exists sub, t, caps'. split; [apply elem_of_app; now right | auto].
Qed.

Lemma reads_group (n : nat) (a : regex) (subs : list string) :
  reads_one_of a subs -> reads_one_of (Group n a) subs.
Proof.
  intros Ha R pv s caps k x H. cbn [sre_match] in H.
  apply Ha in H as (sub & t & caps' & Hsub & Hs & Hk).
  cbn [ms_prev ms_rest ms_caps] in Hk. eauto 6.
Qed.

(** One attempt of a manager's pattern, read backwards. *)
Lemma manager_attempt_inv (m : string) (a : regex) (subs : list string)
    (pv : option ascii) (s : string) (st' : mstate) :
  reads_one_of a subs ->
  attempt false (Cat WordB (Cat (Lit m) (Cat ws1 (Cat a WordB)))) pv s = Some st' ->
  exists ws sub post,
    s = m +:+ ws +:+ sub +:+ post
    /\ sub ∈ subs
    /\ ws <> "" /\ all_chars is_space ws = true
    /\ at_boundary pv s = true
    /\ at_boundary (last_of (last_of (last_of pv m) ws) sub) post = true.
Proof.
  intros Ha. unfold attempt. cbn [andb]. rewrite match_cat, match_wordb.
  destruct (at_boundary pv s) eqn:Hb; [|discriminate].
  rewrite match_cat. intros H. apply match_lit_inv in H as (t1 & -> & H).
  rewrite match_cat in H. unfold ws1 in H.
  apply match_plus_inv in H as (ws & t2 & -> & Hw & Hws & H).
  rewrite match_cat in H.
  apply Ha in H as (sub & post & caps' & Hsub & -> & H).
  rewrite match_wordb in H.
  destruct (at_boundary _ post) eqn:Hb'; [|discriminate].
  exists ws, sub, post. auto 10.
Qed.

Lemma search_from_inv (r : regex) (s : string) (pv : option ascii) (i : nat)
    (m : match_obj) :
  search_from r pv s i = Some m ->
  exists pre t st',
    s = pre +:+ t /\ attempt false r (last_of pv pre) t = Some st'.
Proof.
  revert pv i. induction s as [|c s IH]; intros pv i; cbn [search_from].
  - destruct (attempt false r pv "") as [st'|] eqn:E; [|discriminate].
    intros _. exists "", "", st'. auto.
  - destruct (attempt false r pv (String c s)) as [st'|] eqn:E.
    + intros _. exists "", (String c s), st'. auto.
    + intros H. apply IH in H as (pre & t & st' & -> & H).
      exists (String c pre), t, st'. auto.
Qed.

Lemma search_from_complete (r : regex) (pre t : string) (pv : option ascii) (i : nat)
    (st' : mstate) :
  attempt false r (last_of pv pre) t = Some st' ->
  exists m, search_from r pv (pre +:+ t) i = Some m.
Proof.
  revert pv i. induction pre as [|c pre IH]; intros pv i H.
  - change ("" +:+ t) with t. simpl in H. destruct t; cbn [search_from]; rewrite H; eauto.
  - change (String c pre +:+ t) with (String c (pre +:+ t)). cbn [search_from].
    destruct (attempt false r pv (String c (pre +:+ t))); [eauto|].
    now apply IH.
Qed.

Lemma first_manager_found (table : list (string * regex)) (command manager : string)
    (pattern : regex) (m : match_obj) :
  (manager, pattern) ∈ table ->
  re_search pattern command = Some m ->
  exists manager', first_manager table command = Some manager'.
Proof.
  induction table as [|[m' p'] table IH]; intros Hin Hm; [inversion Hin|].
  cbn [first_manager]. destruct (re_search p' command) as [m0|] eqn:E; [eauto|].
  apply elem_of_cons in Hin as [[= <- <-] | Hin]; [congruence | now apply IH].
Qed.

Lemma not_word_letter (c x : ascii) :
  is_word c = false -> is_word x = true -> is_char x c = false.
Proof.
  intros Hc Hx. unfold is_char. destruct (ascii_dec x c) as [-> |]; congruence.
Qed.

(** The subcommands of npm, before a word boundary. *)
Lemma takes_npm_word (sub tail : string) :
  sub = "install" \/ sub = "i" \/ sub = "add" ->
  head_is is_word tail = false ->
  takes (Alt (Lit "install") (Alt (Lit "i") (Lit "add"))) sub tail.
Proof.
  intros Hsub Hend R pv caps k Hk. exists caps.
  destruct Hsub as [-> | [-> | ->]].
  - cbn [sre_match]. rewrite (run_lit "install").
    destruct (k _) eqn:E; [reflexivity | now apply Hk in E].
  - cbn [sre_match].
    replace (sre_match (Lit "install") _ _) with (@None R).
    + rewrite (run_lit "i"). destruct (k _) eqn:E; [reflexivity | now apply Hk in E].
    + destruct tail as [|c tail]; [reflexivity|]. simpl in Hend.
      simpl. now rewrite (not_word_letter c "n" Hend eq_refl).
  - cbn [sre_match]. simpl (sre_match (Lit "install") _ _).
    simpl (sre_match (Lit "i") _ _). apply (run_lit "add").
Qed.

(** One attempt of a manager's pattern, read forwards. *)
Lemma manager_attempt (m ws sub post : string) (a : regex) (pv : option ascii) :
  ws <> "" -> all_chars is_space ws = true ->
  head_is is_space (sub +:+ post) = false ->
  takes a sub post ->
  at_boundary pv (m +:+ ws +:+ sub +:+ post) = true ->
  at_boundary (last_of (last_of (last_of pv m) ws) sub) post = true ->
  exists st',
    attempt false (Cat WordB (Cat (Lit m) (Cat ws1 (Cat a WordB)))) pv
      (m +:+ ws +:+ sub +:+ post) = Some st'.
Proof.
  intros Hw Hws Hhead Ha Hb Hb'.
  destruct (Ha _ (last_of (last_of pv m) ws) []
              (fun st => sre_match WordB st (fun st' => Some st')))
    as [caps' Hrun].
  { intros caps'. rewrite match_wordb, Hb'. discriminate. }
  rewrite match_wordb, Hb' in Hrun.
  eexists. unfold attempt. cbn [andb]. rewrite match_cat, match_wordb, Hb.
  rewrite match_cat, run_lit. rewrite match_cat. unfold ws1.
  apply match_plus_run; [exact Hw | exact Hws | exact Hhead |].
  rewrite match_cat. exact Hrun.
Qed.

Lemma boundary_before (prev : option ascii) (rest : string) :
  head_is is_word rest = true ->
  at_boundary prev rest = true <-> word_char_before prev = false.
Proof.
  unfold at_boundary. intros ->. now destruct (word_char_before prev).
Qed.

Lemma boundary_after (prev : option ascii) (rest : string) :
  word_char_before prev = true ->
  at_boundary prev rest = true <-> head_is is_word rest = false.
Proof.
  unfold at_boundary. intros ->. now destruct (head_is is_word rest).
Qed.

(** A found match of a manager's pattern, read backwards. *)
Lemma search_reads (command m : string) (a : regex) (subs : list string) :
  reads_one_of a subs ->
  head_is is_word m = true ->
  (forall sub pv', sub ∈ subs ->
     (m, sub) ∈ subcommands /\ word_char_before (last_of pv' sub) = true) ->
  re_search (Cat WordB (Cat (Lit m) (Cat ws1 (Cat a WordB)))) command <> None ->
  install_command command m.
Proof.
  intros Ha Hm Hsubs Hfound. unfold re_search in Hfound.
  destruct (search_from _ None command 0) as [mo|] eqn:E; [|contradiction].
  apply search_from_inv in E as (pre & t & st' & -> & E).
  apply (manager_attempt_inv m a subs) in E
    as (ws & sub & post & -> & Hsub & Hw & Hws & Hb & Hb'); [|exact Ha].
  destruct (Hsubs sub (last_of (last_of (last_of None pre) m) ws) Hsub)
    as [Hin Hlast].
  exists pre, ws, sub, post. repeat split; try assumption.
  - apply boundary_before in Hb; [exact Hb|].
    destruct m as [|c m]; [discriminate | exact Hm].
  - now apply boundary_after in Hb'.
Qed.

(** The words of an install command are found by the manager's pattern. *)
Lemma search_finds (pre manager ws sub post : string) (a : regex) :
  ws <> "" -> all_chars is_space ws = true ->
  word_char_before (last_of None pre) = false ->
  head_is is_word post = false ->
  takes a sub post ->
  head_is is_word manager = true ->
  head_is is_space (sub +:+ post) = false ->
  (forall pv', word_char_before (last_of pv' sub) = true) ->
  re_search (Cat WordB (Cat (Lit manager) (Cat ws1 (Cat a WordB))))
    (pre +:+ manager +:+ ws +:+ sub +:+ post) <> None.
Proof.
  intros Hw Hws Hb Hb' Ha Hm Hhead Hlast.
  destruct (manager_attempt manager ws sub post a (last_of None pre))
    as [st' Hst]; try assumption.
  - apply boundary_before; [|exact Hb].
    destruct manager as [|c manager]; [discriminate | exact Hm].
  - apply boundary_after; [apply Hlast | exact Hb'].
  - unfold re_search.
    destruct (search_from_complete _ pre _ None 0%nat st' Hst) as [m ->].
    discriminate.
Qed.

End Detection.

Section Table.

(** The pattern of a manager finds a match exactly in the install
    commands of the manager. *)
Lemma search_install_command (command manager : string) (pattern : regex) :
  (manager, pattern) ∈ PACKAGE_MANAGERS ->
  re_search pattern command <> None <-> install_command command manager.
Proof.
  intros Hin. split.
  - unfold PACKAGE_MANAGERS in Hin.
    repeat (apply elem_of_cons in Hin as [[= -> ->] | Hin]); [.. | inversion Hin].
    + apply (search_reads command "npm" (alt3 "install" "i" "add")
               ["install"; "i"; "add"]).
      * apply reads_group.
        apply (reads_alt _ _ ["install"] ["i"; "add"]); [apply reads_lit|].
        apply (reads_alt _ _ ["i"] ["add"]); apply reads_lit.
      * reflexivity.
      * intros sub pv' Hsub. listed_subcommand Hsub.
    + apply (search_reads command "yarn" (Lit "add") ["add"]).
      * apply reads_lit.
      * reflexivity.
      * intros sub pv' Hsub. listed_subcommand Hsub.
    + apply (search_reads command "pnpm" (alt2 "add" "install") ["add"; "install"]).
      * apply reads_group. apply (reads_alt _ _ ["add"] ["install"]); apply reads_lit.
      * reflexivity.
      * intros sub pv' Hsub. listed_subcommand Hsub.
    + apply (search_reads command "bun" (alt2 "add" "install") ["add"; "install"]).
      * apply reads_group. apply (reads_alt _ _ ["add"] ["install"]); apply reads_lit.
      * reflexivity.
      * intros sub pv' Hsub. listed_subcommand Hsub.
    + apply (search_reads command "pip" (Lit "install") ["install"]).
      * apply reads_lit.
      * reflexivity.
      * intros sub pv' Hsub. listed_subcommand Hsub.
  - intros (pre & ws & sub & post & -> & Hsub & Hw & Hws & Hb & Hb').
    unfold subcommands in Hsub. unfold PACKAGE_MANAGERS in Hin.
    entry_of Hsub; entry_of Hin.
    + apply (search_finds pre "npm" ws "install" post (alt3 "install" "i" "add"));
        try assumption; try reflexivity.
      apply takes_group. apply takes_npm_word; auto.
    + apply (search_finds pre "npm" ws "i" post (alt3 "install" "i" "add"));
        try assumption; try reflexivity.
      apply takes_group. apply takes_npm_word; auto.
    + apply (search_finds pre "npm" ws "add" post (alt3 "install" "i" "add"));
        try assumption; try reflexivity.
      apply takes_group. apply takes_npm_word; auto.
    + apply (search_finds pre "yarn" ws "add" post (Lit "add"));
        try assumption; try reflexivity.
      apply takes_lit.
    + apply (search_finds pre "pnpm" ws "add" post (alt2 "add" "install"));
        try assumption; try reflexivity.
      apply takes_group. apply takes_add_install; auto.
    + apply (search_finds pre "pnpm" ws "install" post (alt2 "add" "install"));
        try assumption; try reflexivity.
      apply takes_group. apply takes_add_install; auto.
    + apply (search_finds pre "bun" ws "add" post (alt2 "add" "install"));
        try assumption; try reflexivity.
      apply takes_group. apply takes_add_install; auto.
    + apply (search_finds pre "bun" ws "install" post (alt2 "add" "install"));
        try assumption; try reflexivity.
      apply takes_group. apply takes_add_install; auto.
    + apply (search_finds pre "pip" ws "install" post (Lit "install"));
        try assumption; try reflexivity.
      apply takes_lit.
Qed.

(** The loop over a table stops at the first pattern that is found. *)
Lemma first_manager_first (table : list (string * regex)) (command manager : string) :
  first_manager table command = Some manager
  <-> exists before pattern after,
        table = before ++ (manager, pattern) :: after
        /\ re_search pattern command <> None
        /\ Forall (fun entry => re_search (snd entry) command = None) before.
Proof.
  split.
  - induction table as [|[m p] table IH]; [discriminate|]. cbn [first_manager].
    destruct (re_search p command) as [mo|] eqn:E.
    + intros [= <-]. exists [], p, table. rewrite E. repeat split; [discriminate|].
      constructor.
    + intros H. destruct (IH H) as (before & pattern & after & -> & Hp & Hb).
      exists ((m, p) :: before), pattern, after.
      repeat split; [exact Hp | now constructor].
  - intros (before & pattern & after & -> & Hp & Hb).
    induction Hb as [|[m p] before Hm Hb IH]; cbn [app first_manager].
    + now destruct (re_search pattern command).
    + simpl in Hm. now rewrite Hm.
Qed.

End Table.

(** X23. The manager detected is the first one, in the order of the
    table (npm, yarn, pnpm, bun, pip), for which the command holds, as
    whole words, the manager's name, whitespace and one of its install
    subcommands; no manager is detected in a command without such
    words. *)
Theorem detect_manager_first_install_command (command manager : string) :
  detect_manager command = Some manager
  <-> exists before after,
        fst <$> PACKAGE_MANAGERS = before ++ manager :: after
        /\ install_command command manager
        /\ forall earlier, earlier ∈ before -> ~ install_command command earlier.
Proof.
  unfold detect_manager. rewrite first_manager_first. split.
  - intros (before & pattern & after & Htable & Hp & Hb).
    exists (fst <$> before), (fst <$> after). split; [|split].
    + rewrite Htable. now rewrite fmap_app.
    + apply (search_install_command command manager pattern); [|exact Hp].
      rewrite Htable. apply elem_of_app. right. left.
    + intros earlier [[m p] [-> Hin]]%list_elem_of_fmap Hcmd.
      rewrite Forall_forall in Hb. specialize (Hb _ Hin). simpl in Hb.
      apply (search_install_command command m p); [|exact Hcmd|exact Hb].
      rewrite Htable. apply elem_of_app. now left.
  - intros (before & after & Hnames & Hcmd & Hearlier).
    apply fmap_app_inv in Hnames as (tb & rest & -> & Hrest & Htable).
    symmetry in Hrest. apply fmap_cons_inv in Hrest as ([m p] & ta & Hm & -> & ->).
    simpl in Hm. subst m.
    exists tb, p, ta. split; [exact Htable|]. split.
    + apply (search_install_command command manager p); [|exact Hcmd].
      rewrite Htable. apply elem_of_app. right. left.
    + apply Forall_forall. intros [m' p'] Hin. simpl.
      destruct (re_search p' command) as [mo|] eqn:E; [|reflexivity].
      exfalso. apply (Hearlier m'); [now apply (list_elem_of_fmap_2 fst _ (m', p'))|].
      apply (search_install_command command m' p'); [|congruence].
      rewrite Htable. apply elem_of_app. now left.
Qed.

(** ** Packages the manifest does not list *)

Section Unlisted.


End Unlisted.


